(** * RAINS: the section verifier, the section validity window, the
    recursive resolver and the CBOR form of a message

    A shallow embedding of the Go sources, followed by the vocabulary in
    which their properties are stated, sample data, and the theorems.

    Go values are modelled as follows. An [int64] and a [time.Time] are
    integers ([Z]); a slice is its backing array and its length, so that
    deleting from a slice while ranging over it behaves as in Go; a panic
    is the result [Panic]; the state of the server (caches, the messages
    sent) is a record threaded through a state monad; an interface is a
    type class, and the values of an interface that the code switches on
    are a sum type. *)

From Stdlib Require Import ZArith String Ascii List Bool Lia DecimalString.
From stdpp Require Import base option list gmap strings sorting.
Local Open Scope Z_scope.

(** * RAINS server core: a shallow embedding of the verifier, the recursive
    resolver and the message codec, with the properties of the
    specification stated and settled against the Go sources.

    Layout: the Go packages are embedded as modules ([rainslib], [rainsd],
    [libresolve], [message]); the theorems follow the definitions.

    Conventions.
    - Go's [int64] values are integers of [Z]; the embedded code compares
      and copies them and never adds two of them, so no wrap-around arises.
    - [time.Time] is the number of nanoseconds since the Unix epoch and
      [time.Duration] a number of nanoseconds; [time.Now()] is the value
      [now] handed to each operation (one reading of the clock per call).
    - A Go slice is a window on a backing array ([slice.t]); the signature
      list of a section is such a slice because the verifier deletes from it
      while it ranges over it.
    - A run-time panic of the Go code is the [Panic] result. *)

(** ** Results of code that can panic *)

Inductive result (A : Type) : Type :=
| Ok (a : A)
| Panic (why : string).
Arguments Ok {A} a.
Arguments Panic {A} why.

#[global] Instance result_ret : MRet result := fun A a => Ok a.
#[global] Instance result_bind : MBind result := fun A B f m =>
  match m with
  | Ok a => f a
  | Panic why => Panic why
  end.

#[global] Instance result_fmap : FMap result := fun A B f m =>
  match m with
  | Ok a => Ok (f a)
  | Panic why => Panic why
  end.

Definition isOk {A} (r : result A) : bool :=
  match r with Ok _ => true | Panic _ => false end.

(** ** Package time *)

Module time.
Definition Time := Z.
Definition Duration := Z.
Definition Second : Duration := 1000000000.
(** [t.Add(d)] *)
Definition Add (t : Time) (d : Duration) : Time := t + d.
(** [t.Unix()]: whole seconds since the epoch, rounded down. *)
Definition Unix (t : Time) : Z := t / Second.
End time.

Module math.
Definition MaxInt64 : Z := 9223372036854775807.
End math.

(** ** Go slices *)

Module slice.
Section slice.
Context {A : Type}.

(** The window [backing[0:len]] of a backing array; its capacity is the
    length of [backing]. *)
Record t := mk { backing : list A; len : nat }.

Definition of_list (l : list A) : t := mk l (length l).

(** The elements a fresh [range] or [len] sees. *)
Definition elems (s : t) : list A := take (len s) (backing s).

(** [append(s[:i], s[i+1:]...)]: [s[i+1:]] panics when [i+1 > len(s)];
    otherwise the result fits the capacity of [s[:i]], so the elements
    from [i+1] up to [len(s)-1] are moved one slot down inside the same
    backing array, the last slot of the old window keeps its content,
    and the window shrinks by one. *)
Definition delete (i : nat) (s : t) : result t :=
  if bool_decide (i + 1 ≤ len s)%nat then
    Ok (mk (take i (backing s)
              ++ drop (i + 1) (take (len s) (backing s))
              ++ drop (len s - 1) (backing s))
           (len s - 1))
  else Panic "slice bounds out of range".
End slice.
Arguments t : clear implicits.
End slice.

(** ** Package rainslib: sections and their validity *)

Module rainslib.
Import time.

Inductive ObjectType :=
| OTName | OTIP6Addr | OTIP4Addr | OTRedirection | OTDelegation
| OTNameset | OTCertInfo | OTServiceInfo | OTRegistrar | OTRegistrant
| OTInfraKey | OTExtraKey | OTNextKey.

#[global] Instance ObjectType_eq_dec : EqDecision ObjectType.
Proof. solve_decision. Defined.

(** An object of an assertion; only its type is inspected here. *)
Record Object := { OType : ObjectType; Value : string }.

Definition KeySpaceID := Z.
Definition RainsKeySpace : KeySpaceID := 0.
Definition SignatureAlgorithmType := Z.
Definition KeyAlgorithmType := Z.
Definition Ed25519 : SignatureAlgorithmType := 1.

Module Signature.
Record t := {
  Algorithm : SignatureAlgorithmType;
  KeySpace : KeySpaceID;
  ValidSince : Z;
  ValidUntil : Z;
  Data : string
}.
End Signature.

Module PublicKey.
Record t := {
  Key : string;
  ValidSince : Z;
  ValidUntil : Z
}.
(** The zero value, which a Go map returns for an absent key. *)
Definition zero : t := {| Key := ""; ValidSince := 0; ValidUntil := 0 |}.
End PublicKey.

Module AssertionSection.
Record t := {
  SubjectName : string;
  Content : list Object;
  Signatures : slice.t Signature.t;
  SubjectZone : string;
  Context : string;
  validSince : Z;
  validUntil : Z
}.

Definition set_Signatures (v : slice.t Signature.t) (a : t) : t :=
  {| SubjectName := SubjectName a; Content := Content a; Signatures := v;
     SubjectZone := SubjectZone a; Context := Context a;
     validSince := validSince a; validUntil := validUntil a |}.
Definition set_validSince (v : Z) (a : t) : t :=
  {| SubjectName := SubjectName a; Content := Content a;
     Signatures := Signatures a; SubjectZone := SubjectZone a;
     Context := Context a; validSince := v; validUntil := validUntil a |}.
Definition set_validUntil (v : Z) (a : t) : t :=
  {| SubjectName := SubjectName a; Content := Content a;
     Signatures := Signatures a; SubjectZone := SubjectZone a;
     Context := Context a; validSince := validSince a; validUntil := v |}.

Definition Sigs (a : t) : slice.t Signature.t := Signatures a.

Definition DeleteSig (i : nat) (a : t) : result t :=
  s ← slice.delete i (Signatures a); mret (set_Signatures s a).

Definition GetContext (a : t) : string := Context a.
Definition GetSubjectZone (a : t) : string := SubjectZone a.

Definition UpdateValidity (now : Time) (validSince' validUntil' : Z)
    (maxValidity : Duration) (a : t) : t :=
  let a := if validSince a =? 0 then set_validSince math.MaxInt64 a else a in
  let a :=
    if validSince' <? validSince a then
      if validSince' >? Unix (Add now maxValidity)
      then set_validSince (Unix (Add now maxValidity)) a
      else set_validSince validSince' a
    else a in
  if validUntil' >? validUntil a then
    if validUntil' >? Unix (Add now maxValidity)
    then set_validUntil (Unix (Add now maxValidity)) a
    else set_validUntil validUntil' a
  else a.

Definition ValidSince (a : t) : Z := validSince a.
Definition ValidUntil (a : t) : Z := validUntil a.
End AssertionSection.

Module ShardSection.
Record t := {
  Content : list AssertionSection.t;
  Signatures : slice.t Signature.t;
  SubjectZone : string;
  Context : string;
  RangeFrom : string;
  RangeTo : string;
  validSince : Z;
  validUntil : Z
}.

Definition set_Content (v : list AssertionSection.t) (s : t) : t :=
  {| Content := v; Signatures := Signatures s;
     SubjectZone := SubjectZone s; Context := Context s;
     RangeFrom := RangeFrom s; RangeTo := RangeTo s;
     validSince := validSince s; validUntil := validUntil s |}.
Definition set_Signatures (v : slice.t Signature.t) (s : t) : t :=
  {| Content := Content s; Signatures := v;
     SubjectZone := SubjectZone s; Context := Context s;
     RangeFrom := RangeFrom s; RangeTo := RangeTo s;
     validSince := validSince s; validUntil := validUntil s |}.
Definition set_validSince (v : Z) (s : t) : t :=
  {| Content := Content s; Signatures := Signatures s;
     SubjectZone := SubjectZone s; Context := Context s;
     RangeFrom := RangeFrom s; RangeTo := RangeTo s;
     validSince := v; validUntil := validUntil s |}.
Definition set_validUntil (v : Z) (s : t) : t :=
  {| Content := Content s; Signatures := Signatures s;
     SubjectZone := SubjectZone s; Context := Context s;
     RangeFrom := RangeFrom s; RangeTo := RangeTo s;
     validSince := validSince s; validUntil := v |}.

Definition Sigs (s : t) : slice.t Signature.t := Signatures s.

Definition DeleteSig (i : nat) (s : t) : result t :=
  sl ← slice.delete i (Signatures s); mret (set_Signatures sl s).

Definition GetContext (s : t) : string := Context s.
Definition GetSubjectZone (s : t) : string := SubjectZone s.

Definition UpdateValidity (now : Time) (validSince' validUntil' : Z)
    (maxValidity : Duration) (s : t) : t :=
  let s := if validSince s =? 0 then set_validSince math.MaxInt64 s else s in
  let s :=
    if validSince' <? validSince s then
      if validSince' >? Unix (Add now maxValidity)
      then set_validSince (Unix (Add now maxValidity)) s
      else set_validSince validSince' s
    else s in
  if validUntil' >? validUntil s then
    if validUntil' >? Unix (Add now maxValidity)
    then set_validUntil (Unix (Add now maxValidity)) s
    else set_validUntil validUntil' s
  else s.

Definition ValidSince (s : t) : Z := validSince s.
Definition ValidUntil (s : t) : Z := validUntil s.
End ShardSection.

(** The dynamic values of [MessageSectionWithSigForward] inside a zone:
    an assertion, a shard, or a value of any other type. *)
Inductive MessageSectionWithSigForward :=
| FAssertion (a : AssertionSection.t)
| FShard (s : ShardSection.t)
| FOther.

Module ZoneSection.
Record t := {
  Signatures : slice.t Signature.t;
  SubjectZone : string;
  Context : string;
  Content : list MessageSectionWithSigForward;
  validSince : Z;
  validUntil : Z
}.

Definition set_Content (v : list MessageSectionWithSigForward) (z : t) : t :=
  {| Signatures := Signatures z; SubjectZone := SubjectZone z;
     Context := Context z; Content := v;
     validSince := validSince z; validUntil := validUntil z |}.
Definition set_Signatures (v : slice.t Signature.t) (z : t) : t :=
  {| Signatures := v; SubjectZone := SubjectZone z;
     Context := Context z; Content := Content z;
     validSince := validSince z; validUntil := validUntil z |}.
Definition set_validSince (v : Z) (z : t) : t :=
  {| Signatures := Signatures z; SubjectZone := SubjectZone z;
     Context := Context z; Content := Content z;
     validSince := v; validUntil := validUntil z |}.
Definition set_validUntil (v : Z) (z : t) : t :=
  {| Signatures := Signatures z; SubjectZone := SubjectZone z;
     Context := Context z; Content := Content z;
     validSince := validSince z; validUntil := v |}.

Definition Sigs (z : t) : slice.t Signature.t := Signatures z.

Definition DeleteSig (i : nat) (z : t) : result t :=
  sl ← slice.delete i (Signatures z); mret (set_Signatures sl z).

Definition GetContext (z : t) : string := Context z.
Definition GetSubjectZone (z : t) : string := SubjectZone z.

Definition UpdateValidity (now : Time) (validSince' validUntil' : Z)
    (maxValidity : Duration) (z : t) : t :=
  let z := if validSince z =? 0 then set_validSince math.MaxInt64 z else z in
  let z :=
    if validSince' <? validSince z then
      if validSince' >? Unix (Add now maxValidity)
      then set_validSince (Unix (Add now maxValidity)) z
      else set_validSince validSince' z
    else z in
  if validUntil' >? validUntil z then
    if validUntil' >? Unix (Add now maxValidity)
    then set_validUntil (Unix (Add now maxValidity)) z
    else set_validUntil validUntil' z
  else z.

Definition ValidSince (z : t) : Z := validSince z.
Definition ValidUntil (z : t) : Z := validUntil z.
End ZoneSection.

(** A value of interface type [MessageSectionWithSig], as [verify] builds
    it: a pointer to an assertion, a shard or a zone. *)
Inductive SectionWithSig :=
| SAssertion (a : AssertionSection.t)
| SShard (s : ShardSection.t)
| SZone (z : ZoneSection.t).

(** The interface [MessageSectionWithSig]. [box] is the conversion of a
    concrete section to the interface value, on which type switches
    dispatch. *)
Class MessageSectionWithSig (S : Type) := {
  Sigs : S → slice.t Signature.t;
  DeleteSig : nat → S → result S;
  GetContext : S → string;
  GetSubjectZone : S → string;
  UpdateValidity : Time → Z → Z → Duration → S → S;
  ValidSince : S → Z;
  ValidUntil : S → Z;
  box : S → SectionWithSig
}.

#[global] Instance AssertionSection_withSig :
    MessageSectionWithSig AssertionSection.t := {|
  Sigs := AssertionSection.Sigs;
  DeleteSig := AssertionSection.DeleteSig;
  GetContext := AssertionSection.GetContext;
  GetSubjectZone := AssertionSection.GetSubjectZone;
  UpdateValidity := AssertionSection.UpdateValidity;
  ValidSince := AssertionSection.ValidSince;
  ValidUntil := AssertionSection.ValidUntil;
  box := SAssertion
|}.

#[global] Instance ShardSection_withSig :
    MessageSectionWithSig ShardSection.t := {|
  Sigs := ShardSection.Sigs;
  DeleteSig := ShardSection.DeleteSig;
  GetContext := ShardSection.GetContext;
  GetSubjectZone := ShardSection.GetSubjectZone;
  UpdateValidity := ShardSection.UpdateValidity;
  ValidSince := ShardSection.ValidSince;
  ValidUntil := ShardSection.ValidUntil;
  box := SShard
|}.

#[global] Instance ZoneSection_withSig :
    MessageSectionWithSig ZoneSection.t := {|
  Sigs := ZoneSection.Sigs;
  DeleteSig := ZoneSection.DeleteSig;
  GetContext := ZoneSection.GetContext;
  GetSubjectZone := ZoneSection.GetSubjectZone;
  UpdateValidity := ZoneSection.UpdateValidity;
  ValidSince := ZoneSection.ValidSince;
  ValidUntil := ZoneSection.ValidUntil;
  box := SZone
|}.

(** Method calls on the interface value dispatch on its dynamic type. *)
#[global] Instance SectionWithSig_withSig :
    MessageSectionWithSig SectionWithSig := {|
  Sigs sec :=
    match sec with
    | SAssertion a => Sigs a | SShard s => Sigs s | SZone z => Sigs z
    end;
  DeleteSig i sec :=
    match sec with
    | SAssertion a => SAssertion <$> DeleteSig i a
    | SShard s => SShard <$> DeleteSig i s
    | SZone z => SZone <$> DeleteSig i z
    end;
  GetContext sec :=
    match sec with
    | SAssertion a => GetContext a
    | SShard s => GetContext s
    | SZone z => GetContext z
    end;
  GetSubjectZone sec :=
    match sec with
    | SAssertion a => GetSubjectZone a
    | SShard s => GetSubjectZone s
    | SZone z => GetSubjectZone z
    end;
  UpdateValidity now vs vu mv sec :=
    match sec with
    | SAssertion a => SAssertion (UpdateValidity now vs vu mv a)
    | SShard s => SShard (UpdateValidity now vs vu mv s)
    | SZone z => SZone (UpdateValidity now vs vu mv z)
    end;
  ValidSince sec :=
    match sec with
    | SAssertion a => ValidSince a
    | SShard s => ValidSince s
    | SZone z => ValidSince z
    end;
  ValidUntil sec :=
    match sec with
    | SAssertion a => ValidUntil a
    | SShard s => ValidUntil s
    | SZone z => ValidUntil z
    end;
  box sec := sec
|}.

Definition Token := N.
Definition ConnInfo := string.

Module QuerySection.
Record t := {
  Token_ : Token;
  Name : string;
  Context : string;
  QType : ObjectType;
  Expires : Z
}.
End QuerySection.

Inductive NotificationType :=
| MsgTooLarge | RcvInconsistentMsg | NoAssertionAvail | ServerOverloaded
| CapabilityHashNotKnown | UnspecifiedError.

(** A value of interface type [MessageSection] as [verify] receives it. *)
Inductive MessageSection :=
| MWithSig (s : SectionWithSig)
| MQuery (q : QuerySection.t)
| MUnsupported.

(** *** The order of sections *)

(** Go's [<] on strings: bytewise lexicographic order; [a > b] is
    [less b a]. *)
Definition less (a b : string) : bool :=
  match String.compare a b with Lt => true | _ => false end.

(** [Object.CompareTo] is not among the sources. *)
Class ObjectOrder := { Object_CompareTo : Object → Object → Z }.

Section order.
Context `{ObjectOrder}.

(** The loop [for i, o := range a.Content] of [AssertionSection.CompareTo]:
    [content] and [other] are what is left of both contents from index [i]
    on; [assertion.Content[i]] panics beyond the end. *)
Fixpoint compareObjects (content other : list Object) : result Z :=
  match content with
  | [] => mret 0
  | o :: content' =>
      match other with
      | [] => Panic "index out of range"
      | o' :: other' =>
          if negb (Object_CompareTo o o' =? 0) then mret (Object_CompareTo o o')
          else compareObjects content' other'
      end
  end.

Definition AssertionSection_CompareTo (a assertion : AssertionSection.t)
    : result Z :=
  if less (AssertionSection.SubjectName a)
       (AssertionSection.SubjectName assertion) then mret (-1)
  else if less (AssertionSection.SubjectName assertion)
            (AssertionSection.SubjectName a) then mret 1
  else if less (AssertionSection.SubjectZone a)
            (AssertionSection.SubjectZone assertion) then mret (-1)
  else if less (AssertionSection.SubjectZone assertion)
            (AssertionSection.SubjectZone a) then mret 1
  else if less (AssertionSection.Context a)
            (AssertionSection.Context assertion) then mret (-1)
  else if less (AssertionSection.Context assertion)
            (AssertionSection.Context a) then mret 1
  else if (length (AssertionSection.Content a)
           <? length (AssertionSection.Content assertion))%nat then mret (-1)
  else if (length (AssertionSection.Content assertion)
           <? length (AssertionSection.Content a))%nat then mret 1
  else compareObjects (AssertionSection.Content a)
         (AssertionSection.Content assertion).

(** The loop of [ShardSection.CompareTo]. *)
Fixpoint compareAssertions (content other : list AssertionSection.t)
    : result Z :=
  match content with
  | [] => mret 0
  | a :: content' =>
      match other with
      | [] => Panic "index out of range"
      | a' :: other' =>
          c ← AssertionSection_CompareTo a a';
          if negb (c =? 0) then mret c else compareAssertions content' other'
      end
  end.

(** The comparison of the subject zones is the other way round than the
    ones that follow, as in the source. *)
Definition ShardSection_CompareTo (s shard : ShardSection.t) : result Z :=
  if less (ShardSection.SubjectZone s) (ShardSection.SubjectZone shard)
  then mret 1
  else if less (ShardSection.SubjectZone shard) (ShardSection.SubjectZone s)
  then mret (-1)
  else if less (ShardSection.Context s) (ShardSection.Context shard)
  then mret (-1)
  else if less (ShardSection.Context shard) (ShardSection.Context s)
  then mret 1
  else if less (ShardSection.RangeFrom s) (ShardSection.RangeFrom shard)
  then mret (-1)
  else if less (ShardSection.RangeFrom shard) (ShardSection.RangeFrom s)
  then mret 1
  else if less (ShardSection.RangeTo s) (ShardSection.RangeTo shard)
  then mret (-1)
  else if less (ShardSection.RangeTo shard) (ShardSection.RangeTo s)
  then mret 1
  else if (length (ShardSection.Content s)
           <? length (ShardSection.Content shard))%nat then mret (-1)
  else if (length (ShardSection.Content shard)
           <? length (ShardSection.Content s))%nat then mret 1
  else compareAssertions (ShardSection.Content s) (ShardSection.Content shard).

(** The loop [for i, section := range z.Content] of
    [ZoneSection.CompareTo]: [content] is what is left of [z.Content] and
    [other] what is left of [zone.Content], both from index [i] on. An
    assertion is compared with [zone.Content[i]]; a shard is compared with
    [z.Content[i]], which is the shard itself. *)
Fixpoint compareZoneContent (content other : list MessageSectionWithSigForward)
    : result Z :=
  match content with
  | [] => mret 0
  | section :: content' =>
      let rest := compareZoneContent content' (tail other) in
      match section with
      | FAssertion section =>
          match other with
          | [] => Panic "index out of range"
          | FAssertion a :: _ =>
              c ← AssertionSection_CompareTo section a;
              if negb (c =? 0) then mret c else rest
          | _ :: _ => mret (-1)
          end
      | FShard section =>
          c ← ShardSection_CompareTo section section;
          if negb (c =? 0) then mret c else rest
      | FOther => rest
      end
  end.

Definition ZoneSection_CompareTo (z zone : ZoneSection.t) : result Z :=
  if less (ZoneSection.SubjectZone z) (ZoneSection.SubjectZone zone)
  then mret (-1)
  else if less (ZoneSection.SubjectZone zone) (ZoneSection.SubjectZone z)
  then mret 1
  else if less (ZoneSection.Context z) (ZoneSection.Context zone)
  then mret (-1)
  else if less (ZoneSection.Context zone) (ZoneSection.Context z)
  then mret 1
  else if (length (ZoneSection.Content z)
           <? length (ZoneSection.Content zone))%nat then mret (-1)
  else if (length (ZoneSection.Content zone)
           <? length (ZoneSection.Content z))%nat then mret 1
  else compareZoneContent (ZoneSection.Content z) (ZoneSection.Content zone).
End order.

End rainslib.

(** ** Package rainsd: the verifier *)

Module rainsd.
Import time rainslib.

(** *** Data *)

Record keyCacheKey := {
  context : string;
  zone : string;
  keyAlgo : KeyAlgorithmType
}.

#[global] Instance keyCacheKey_eq_dec : EqDecision keyCacheKey.
Proof. solve_decision. Defined.

#[global] Instance keyCacheKey_countable : Countable keyCacheKey :=
  inj_countable'
    (fun k => (context k, zone k, keyAlgo k))
    (fun p => {| context := p.1.1; zone := p.1.2; keyAlgo := p.2 |})
    (fun k => match k with Build_keyCacheKey _ _ _ => eq_refl end).

Record contextAndZone := { Context : string; Zone : string }.

#[global] Instance contextAndZone_eq_dec : EqDecision contextAndZone.
Proof. solve_decision. Defined.

#[global] Instance contextAndZone_countable : Countable contextAndZone :=
  inj_countable'
    (fun k => (Context k, Zone k))
    (fun p => {| Context := p.1; Zone := p.2 |})
    (fun k => match k with Build_contextAndZone _ _ => eq_refl end).

(** The configuration options the verifier reads. *)
Record rainsdConfig := {
  DelegationQueryValidity : Duration;
  MaxCacheAssertionValidity : Duration;
  MaxCacheShardValidity : Duration;
  MaxCacheZoneValidity : Duration
}.

Module sectionWithSigSender.
Record t := {
  Section : SectionWithSig;
  Sender : ConnInfo;
  Token : rainslib.Token
}.
Definition set_Section (s : SectionWithSig) (x : t) : t :=
  {| Section := s; Sender := Sender x; Token := Token x |}.
End sectionWithSigSender.

Module msgSectionSender.
Record t := {
  Section : MessageSection;
  Sender : ConnInfo;
  Token : rainslib.Token
}.
End msgSectionSender.

Record pendingSignatureCacheValue := {
  sectionWSSender : sectionWithSigSender.t;
  validUntil : Z
}.

(** A call of [sendQuery]. *)
Record sentQuery := {
  qContext : string;
  qZone : string;
  qExpires : Z;
  qType : ObjectType;
  qToken : rainslib.Token;
  qDestination : ConnInfo
}.

(** *** The pending-signature store *)

Module pendingSignatureCache.
Abbreviation t := (gmap contextAndZone (list pendingSignatureCacheValue)).

Definition bucket (context zone : string) (c : t)
    : list pendingSignatureCacheValue :=
  default [] (c !! {| Context := context; Zone := zone |}).

(** Modelled from the spec: [pendingSignatureCache.Add] is not among the
    sources. The specification (4.3) keys the store by (context, zone),
    each value being the collection of parked entries, and has [add]
    return whether the entry is the first one for that key. *)
Definition Add (context zone : string) (v : pendingSignatureCacheValue)
    (c : t) : t * bool :=
  let k := {| Context := context; Zone := zone |} in
  (<[k := bucket context zone c ++ [v]]> c,
   bool_decide (bucket context zone c = [])).

(** Modelled from the spec: [getAndRemoveAll(context, zone)] "returns all
    parked sections and empties that bucket" (4.3). *)
Definition GetAndRemoveAll (context zone : string) (c : t)
    : list pendingSignatureCacheValue * t :=
  (bucket context zone c, delete {| Context := context; Zone := zone |} c).

(** Modelled from the spec: "entries whose validUntil has passed are
    swept periodically" (4.3). *)
Definition RemoveExpiredSections (nowUnix : Z) (c : t) : t :=
  filter (fun v => nowUnix ≤ validUntil v) <$> c.
End pendingSignatureCache.

(** *** The server state the verifier reads and writes

    [zoneKeyCache] is what [zoneKeyCache.Get] answers in this state (the
    key cache is not among the sources). [notifications], [sentQueries],
    [asserted] and [queried] record the calls of [sendNotificationMsg],
    [sendQuery], [assert] and [query], whose bodies are not among the
    sources either; [tokensDrawn] counts the calls of [GenerateToken]. *)
Record World := {
  zoneKeyCache : keyCacheKey → option PublicKey.t;
  pendingSignatures : pendingSignatureCache.t;
  activeTokens : gset rainslib.Token;
  tokensDrawn : nat;
  notifications : list (rainslib.Token * ConnInfo * NotificationType);
  sentQueries : list sentQuery;
  asserted : list (sectionWithSigSender.t * bool);
  queried : list (QuerySection.t * ConnInfo)
}.

Definition set_pendingSignatures (v : pendingSignatureCache.t) (w : World) :=
  {| zoneKeyCache := zoneKeyCache w; pendingSignatures := v;
     activeTokens := activeTokens w; tokensDrawn := tokensDrawn w;
     notifications := notifications w; sentQueries := sentQueries w;
     asserted := asserted w; queried := queried w |}.
Definition set_activeTokens (v : gset rainslib.Token) (w : World) :=
  {| zoneKeyCache := zoneKeyCache w; pendingSignatures := pendingSignatures w;
     activeTokens := v; tokensDrawn := tokensDrawn w;
     notifications := notifications w; sentQueries := sentQueries w;
     asserted := asserted w; queried := queried w |}.
Definition set_tokensDrawn (v : nat) (w : World) :=
  {| zoneKeyCache := zoneKeyCache w; pendingSignatures := pendingSignatures w;
     activeTokens := activeTokens w; tokensDrawn := v;
     notifications := notifications w; sentQueries := sentQueries w;
     asserted := asserted w; queried := queried w |}.
Definition set_notifications
    (v : list (rainslib.Token * ConnInfo * NotificationType)) (w : World) :=
  {| zoneKeyCache := zoneKeyCache w; pendingSignatures := pendingSignatures w;
     activeTokens := activeTokens w; tokensDrawn := tokensDrawn w;
     notifications := v; sentQueries := sentQueries w;
     asserted := asserted w; queried := queried w |}.
Definition set_sentQueries (v : list sentQuery) (w : World) :=
  {| zoneKeyCache := zoneKeyCache w; pendingSignatures := pendingSignatures w;
     activeTokens := activeTokens w; tokensDrawn := tokensDrawn w;
     notifications := notifications w; sentQueries := v;
     asserted := asserted w; queried := queried w |}.
Definition set_asserted (v : list (sectionWithSigSender.t * bool)) (w : World) :=
  {| zoneKeyCache := zoneKeyCache w; pendingSignatures := pendingSignatures w;
     activeTokens := activeTokens w; tokensDrawn := tokensDrawn w;
     notifications := notifications w; sentQueries := sentQueries w;
     asserted := v; queried := queried w |}.
Definition set_queried (v : list (QuerySection.t * ConnInfo)) (w : World) :=
  {| zoneKeyCache := zoneKeyCache w; pendingSignatures := pendingSignatures w;
     activeTokens := activeTokens w; tokensDrawn := tokensDrawn w;
     notifications := notifications w; sentQueries := sentQueries w;
     asserted := asserted w; queried := v |}.

(** Stateful code that can panic. *)
Definition M (A : Type) : Type := World → result (A * World).

#[global] Instance M_ret : MRet M := fun A a w => Ok (a, w).
#[global] Instance M_bind : MBind M := fun A B f m w =>
  match m w with
  | Ok (a, w') => f a w'
  | Panic why => Panic why
  end.

Definition modify (f : World → World) : M unit := fun w => Ok (tt, f w).
Definition lift {A} (r : result A) : M A := fun w =>
  match r with Ok a => Ok (a, w) | Panic why => Panic why end.

(** A loop that returns [false] at the first element whose check fails
    and [true] after the last one. *)
Fixpoint forallM {A} (check : A → M bool) (l : list A) : M bool :=
  match l with
  | [] => mret true
  | x :: l' => ok ← check x; if ok : bool then forallM check l' else mret false
  end.

(** [!a() || !b()] fails: [b] runs only when [a] held. *)
Definition andM (a b : M bool) : M bool :=
  ok ← a; if ok : bool then b else mret false.

Fixpoint foldlM {A B} (f : B → A → result B) (b : B) (l : list A) : result B :=
  match l with
  | [] => mret b
  | x :: l' => b' ← f b x; foldlM f b' l'
  end.

(** *** What the sources leave to other files

    [VerifySignature] is the cryptographic check; [bareStubOf] is the byte
    string [CreateStub] and [RevParseSignedMsgSection] produce for a
    section; [mapRange] is the order in which a [range] over a Go map
    visits its keys, which the language leaves open. *)
Class Env := {
  Config : rainsdConfig;
  VerifySignature :
    SignatureAlgorithmType → string → string → string → bool;
  bareStubOf : SectionWithSig → string;
  containedShardsAreConsistent : ZoneSection.t → bool;
  authoritative : contextAndZone → bool;
  getDelegationAddress : string → string → ConnInfo;
  GenerateToken : nat → rainslib.Token;
  mapRange : gset keyCacheKey → list keyCacheKey;
  mapRange_perm : ∀ s, mapRange s ≡ₚ elements s
}.

Section verifier.
Context `{Env}.

Definition sendNotificationMsg (token : rainslib.Token) (sender : ConnInfo)
    (t : NotificationType) : M unit :=
  modify (fun w => set_notifications (notifications w ++ [(token, sender, t)]) w).

Definition sendQuery (context zone : string) (expTime : Z)
    (objType : ObjectType) (token : rainslib.Token) (sender : ConnInfo)
    : M unit :=
  modify (fun w => set_sentQueries
    (sentQueries w ++
       [{| qContext := context; qZone := zone; qExpires := expTime;
           qType := objType; qToken := token; qDestination := sender |}]) w).

(** [assert] is the entry point of the engine, which is not among the
    sources: the call is recorded, what the engine does with the section
    is not modelled. *)
Definition assert (section : sectionWithSigSender.t) (isAuthoritative : bool)
    : M unit :=
  modify (fun w => set_asserted (asserted w ++ [(section, isAuthoritative)]) w).

Definition query (q : QuerySection.t) (sender : ConnInfo) : M unit :=
  modify (fun w => set_queried (queried w ++ [(q, sender)]) w).

Definition generateToken : M rainslib.Token := fun w =>
  Ok (GenerateToken (tokensDrawn w), set_tokensDrawn (S (tokensDrawn w)) w).

(** *** Structural consistency *)

Definition validQuery (now : Time) (section : QuerySection.t)
    (sender : ConnInfo) : bool :=
  if QuerySection.Expires section <? Unix now then false else true.

Definition containedSectionValid {S} `{MessageSectionWithSig S}
    (section : S) (sectionSender : sectionWithSigSender.t) : M bool :=
  if bool_decide (GetContext section
                    ≠ GetContext (sectionWithSigSender.Section sectionSender))
     || bool_decide (GetSubjectZone section
                    ≠ GetSubjectZone (sectionWithSigSender.Section sectionSender))
  then
    _ ← sendNotificationMsg (sectionWithSigSender.Token sectionSender)
          (sectionWithSigSender.Sender sectionSender) RcvInconsistentMsg;
    mret false
  else mret true.

(** Go's [<] and [>] on strings: bytewise lexicographic order. *)
Definition strLt (a b : string) : bool :=
  match String.compare a b with Lt => true | _ => false end.
Definition strGt (a b : string) : bool :=
  match String.compare a b with Gt => true | _ => false end.

Definition containedSectionInRange (subjectName : string)
    (shard : ShardSection.t) (sectionSender : sectionWithSigSender.t)
    : M bool :=
  if (negb (String.eqb (ShardSection.RangeFrom shard) "")
        && strLt subjectName (ShardSection.RangeFrom shard))
     || (negb (String.eqb (ShardSection.RangeTo shard) "")
        && strGt subjectName (ShardSection.RangeTo shard))
  then
    _ ← sendNotificationMsg (sectionWithSigSender.Token sectionSender)
          (sectionWithSigSender.Sender sectionSender) RcvInconsistentMsg;
    mret false
  else mret true.

Definition containedAssertionsAndShardsValid
    (sectionSender : sectionWithSigSender.t) : M bool :=
  match sectionWithSigSender.Section sectionSender with
  | SAssertion _ => mret true
  | SShard sec =>
      forallM (fun assertion =>
        andM (containedSectionValid assertion sectionSender)
             (containedSectionInRange
                (AssertionSection.SubjectName assertion) sec sectionSender))
        (ShardSection.Content sec)
  | SZone sec =>
      forallM (fun section =>
        match section with
        | FAssertion section => containedSectionValid section sectionSender
        | FShard section =>
            andM (containedSectionValid section sectionSender)
              (forallM (fun assertion =>
                 andM (containedSectionValid assertion sectionSender)
                      (containedSectionInRange
                         (AssertionSection.SubjectName assertion)
                         section sectionSender))
                 (ShardSection.Content section))
        | FOther =>
            _ ← sendNotificationMsg
                  (sectionWithSigSender.Token sectionSender)
                  (sectionWithSigSender.Sender sectionSender)
                  RcvInconsistentMsg;
            mret false
        end)
        (ZoneSection.Content sec)
  end.

(** *** Key inventory *)

(** [analyseAssertionContent]: whether some object is a delegation, and
    whether all objects are. *)
Definition analyseAssertionContent (a : AssertionSection.t) : bool * bool :=
  foldl (fun '(containsDelegation, allElementsDelegations) o =>
           if decide (OType o = OTDelegation)
           then (true, allElementsDelegations)
           else (containsDelegation, false))
        (false, true) (AssertionSection.Content a).

(** One iteration of the loop of [extractNeededKeys]. The type assertion
    of [section] to a pointer to an assertion panics on another dynamic
    type. *)
Definition extractNeededKey {S} `{MessageSectionWithSig S} (section : S)
    (isAssertion : bool) (keys : gset keyCacheKey) (sig : Signature.t)
    : result (gset keyCacheKey) :=
  if bool_decide (Signature.KeySpace sig ≠ RainsKeySpace) then mret keys
  else
    let key := {| context := GetContext section;
                  zone := GetSubjectZone section;
                  keyAlgo := Signature.Algorithm sig |} in
    if isAssertion then
      match box section with
      | SAssertion a =>
          let '(containsDelegation, allElementsDelegations) :=
            analyseAssertionContent a in
          let keys :=
            if containsDelegation then
              {[ {| context := GetContext section;
                    zone := AssertionSection.SubjectName a;
                    keyAlgo := Signature.Algorithm sig |} ]} ∪ keys
            else keys in
          if allElementsDelegations then mret keys
          else mret ({[ key ]} ∪ keys)
      | _ => Panic "interface conversion: not *rainslib.AssertionSection"
      end
    else mret ({[ key ]} ∪ keys).

Definition extractNeededKeys {S} `{MessageSectionWithSig S} (section : S)
    (isAssertion : bool) (keys : gset keyCacheKey)
    : result (gset keyCacheKey) :=
  foldlM (extractNeededKey section isAssertion) keys
         (slice.elems (Sigs section)).

Definition neededKeys (section : SectionWithSig) : result (gset keyCacheKey) :=
  match section with
  | SAssertion section => extractNeededKeys section true ∅
  | SShard section =>
      keys ← extractNeededKeys section false ∅;
      foldlM (fun keys a => extractNeededKeys a true keys) keys
             (ShardSection.Content section)
  | SZone section =>
      keys ← extractNeededKeys section false ∅;
      foldlM (fun keys sec =>
                match sec with
                | FAssertion a => extractNeededKeys a true keys
                | FShard s => extractNeededKeys s false keys
                | FOther => mret keys
                end) keys
             (ZoneSection.Content section)
  end.

(** [publicKeysPresent]: the keys found, indexed by algorithm (a later
    key of the same algorithm overwrites an earlier one), the missing
    identifiers, and whether none is missing. *)
Definition publicKeysPresent (cache : keyCacheKey → option PublicKey.t)
    (neededKeys : gset keyCacheKey)
    : gmap KeyAlgorithmType PublicKey.t * gset keyCacheKey * bool :=
  let '(keys, missingKeys) :=
    foldl (fun '(keys, missingKeys) keyID =>
             match cache keyID with
             | Some key => (<[keyAlgo keyID := key]> keys, missingKeys)
             | None => (keys, {[ keyID ]} ∪ missingKeys)
             end)
          (∅, ∅) (mapRange neededKeys) in
  (keys, missingKeys, bool_decide (size missingKeys = 0%nat)).

Definition getQueryValidity (now : Time) (sigs : slice.t Signature.t) : Z :=
  let validity :=
    foldl (fun validity sig =>
             if Signature.ValidUntil sig >? validity
             then Signature.ValidUntil sig else validity)
          0 (slice.elems sigs) in
  let upperBound := Unix (Add now (DelegationQueryValidity Config)) in
  if validity >? upperBound then upperBound else validity.

(** *** Signature validation *)

Definition updateSectionValidity {S} `{MessageSectionWithSig S}
    (now : Time) (section : S)
    (pkeyValidSince pkeyValidUntil sigValidSince sigValidUntil : Z) : S :=
  let maxValidity :=
    match box section with
    | SAssertion _ => MaxCacheAssertionValidity Config
    | SShard _ => MaxCacheShardValidity Config
    | SZone _ => MaxCacheZoneValidity Config
    end in
  if pkeyValidSince <? sigValidSince then
    if pkeyValidUntil <? sigValidUntil
    then UpdateValidity now sigValidSince pkeyValidUntil maxValidity section
    else UpdateValidity now sigValidSince sigValidUntil maxValidity section
  else
    if pkeyValidUntil <? sigValidUntil
    then UpdateValidity now pkeyValidSince pkeyValidUntil maxValidity section
    else UpdateValidity now pkeyValidSince sigValidUntil maxValidity section.

(** The loop [for i, sig := range section.Sigs()] of [validateSignatures],
    from index [i] on. The range expression was evaluated once, so the
    loop visits the indices below the length the slice had at the start
    ([i :: rest] are the ones left) and reads each [sig] from the backing
    array, which [DeleteSig] rewrites as the loop goes. The boolean is
    [false] when the body returned [false]. *)
Fixpoint validateLoop {S} `{MessageSectionWithSig S} (now : Time)
    (bareStub : string) (keys : gmap KeyAlgorithmType PublicKey.t)
    (indices : list nat) (section : S) : result (bool * S) :=
  match indices with
  | [] => mret (true, section)
  | i :: rest =>
      match slice.backing (Sigs section) !! i with
      | None => Panic "index out of range"
      | Some sig =>
          if Signature.ValidUntil sig <? Unix now then
            section ← DeleteSig i section;
            validateLoop now bareStub keys rest section
          else
            let pkey :=
              default PublicKey.zero (keys !! Signature.Algorithm sig) in
            if negb (VerifySignature (Signature.Algorithm sig)
                       (PublicKey.Key pkey) bareStub (Signature.Data sig))
            then mret (false, section)
            else validateLoop now bareStub keys rest
                   (updateSectionValidity now section
                      (PublicKey.ValidSince pkey) (PublicKey.ValidUntil pkey)
                      (Signature.ValidSince sig) (Signature.ValidUntil sig))
      end
  end.

Definition validateSignatures {S} `{MessageSectionWithSig S} (now : Time)
    (section : S) (keys : gmap KeyAlgorithmType PublicKey.t)
    : result (bool * S) :=
  if bool_decide (slice.len (Sigs section) = 0%nat) then mret (false, section)
  else
    let bareStub := bareStubOf (box section) in
    '(completed, section) ←
      validateLoop now bareStub keys
        (seq 0 (slice.len (Sigs section))) section;
    if negb completed then mret (false, section)
    else if bool_decide (ValidSince section = math.MaxInt64)
            && bool_decide (ValidUntil section = 0)
    then mret (false, section)
    else mret (bool_decide (0 < slice.len (Sigs section))%nat, section).

(** The loop over the assertions of a shard; the assertions are updated
    in place, up to and including the first one that fails. *)
Fixpoint validateAssertions (now : Time)
    (keys : gmap KeyAlgorithmType PublicKey.t)
    (content : list AssertionSection.t)
    : result (bool * list AssertionSection.t) :=
  match content with
  | [] => mret (true, [])
  | assertion :: rest =>
      '(ok, assertion) ← validateSignatures now assertion keys;
      if negb ok then mret (false, assertion :: rest)
      else
        '(ok, rest) ← validateAssertions now keys rest;
        mret (ok, assertion :: rest)
  end.

Definition validShardSignatures (now : Time) (section : ShardSection.t)
    (keys : gmap KeyAlgorithmType PublicKey.t)
    : result (bool * ShardSection.t) :=
  '(ok, section) ← validateSignatures now section keys;
  if negb ok then mret (false, section)
  else
    '(ok, content) ← validateAssertions now keys (ShardSection.Content section);
    mret (ok, ShardSection.set_Content content section).

Fixpoint validateZoneContent (now : Time)
    (keys : gmap KeyAlgorithmType PublicKey.t)
    (content : list MessageSectionWithSigForward)
    : result (bool * list MessageSectionWithSigForward) :=
  match content with
  | [] => mret (true, [])
  | sec :: rest =>
      '(ok, sec) ←
        match sec with
        | FAssertion a =>
            '(ok, a) ← validateSignatures now a keys; mret (ok, FAssertion a)
        | FShard s =>
            '(ok, s) ← validShardSignatures now s keys; mret (ok, FShard s)
        | FOther => mret (true, FOther)
        end;
      if negb ok then mret (false, sec :: rest)
      else
        '(ok, rest) ← validateZoneContent now keys rest;
        mret (ok, sec :: rest)
  end.

Definition validZoneSignatures (now : Time) (section : ZoneSection.t)
    (keys : gmap KeyAlgorithmType PublicKey.t)
    : result (bool * ZoneSection.t) :=
  '(ok, section) ← validateSignatures now section keys;
  if negb ok then mret (false, section)
  else
    '(ok, content) ← validateZoneContent now keys (ZoneSection.Content section);
    mret (ok, ZoneSection.set_Content content section).

Definition validSignature (now : Time) (section : SectionWithSig)
    (keys : gmap KeyAlgorithmType PublicKey.t)
    : result (bool * SectionWithSig) :=
  match section with
  | SAssertion section =>
      '(ok, section) ← validateSignatures now section keys;
      mret (ok, SAssertion section)
  | SShard section =>
      '(ok, section) ← validShardSignatures now section keys;
      mret (ok, SShard section)
  | SZone section =>
      '(ok, section) ← validZoneSignatures now section keys;
      mret (ok, SZone section)
  end.

(** *** verifySignatures and verify

    The section is reached through a pointer, so the caller sees what
    validation did to it: [verifySignatures] also returns the
    [sectionSender] as it is afterwards. *)
Definition verifySignatures (now : Time)
    (sectionSender : sectionWithSigSender.t)
    : M (bool * sectionWithSigSender.t) :=
  let section := sectionWithSigSender.Section sectionSender in
  neededKeys ← lift (neededKeys section);
  w ← (fun w => Ok (w, w));
  let '(publicKeys, missingKeys, ok) :=
    publicKeysPresent (zoneKeyCache w) neededKeys in
  if ok : bool then
    '(valid, section) ← lift (validSignature now section publicKeys);
    mret (valid, sectionWithSigSender.set_Section section sectionSender)
  else
    let cacheValue :=
      {| sectionWSSender := sectionSender;
         validUntil := getQueryValidity now (Sigs section) |} in
    ok ← (fun w =>
            let '(pending, ok) :=
              pendingSignatureCache.Add (GetContext section)
                (GetSubjectZone section) cacheValue (pendingSignatures w) in
            Ok (ok, set_pendingSignatures pending w));
    if ok : bool then
      let delegate :=
        getDelegationAddress (GetContext section) (GetSubjectZone section) in
      token ← generateToken;
      _ ← sendQuery (GetContext section) (GetSubjectZone section)
            (validUntil cacheValue) OTDelegation token delegate;
      _ ← modify (fun w => set_activeTokens ({[ token ]} ∪ activeTokens w) w);
      mret (false, sectionSender)
    else mret (false, sectionSender).

Definition verify (now : Time) (msgSender : msgSectionSender.t) : M unit :=
  match msgSectionSender.Section msgSender with
  | MWithSig section =>
      let sectionSender :=
        {| sectionWithSigSender.Section := section;
           sectionWithSigSender.Sender := msgSectionSender.Sender msgSender;
           sectionWithSigSender.Token := msgSectionSender.Token msgSender |} in
      consistent ← containedAssertionsAndShardsValid sectionSender;
      if negb consistent then mret tt
      else
        match section with
        | SZone zone =>
            if negb (containedShardsAreConsistent zone) then mret false
            else mret true
        | _ => mret true
        end ≫= fun continue =>
        if negb continue then mret tt
        else
          '(ok, sectionSender) ← verifySignatures now sectionSender;
          if ok : bool then
            assert sectionSender
              (authoritative
                 {| Context := GetContext
                      (sectionWithSigSender.Section sectionSender);
                    Zone := GetSubjectZone
                      (sectionWithSigSender.Section sectionSender) |})
          else mret tt
  | MQuery section =>
      if validQuery now section (msgSectionSender.Sender msgSender)
      then query section (msgSectionSender.Sender msgSender)
      else mret tt
  | MUnsupported => mret tt
  end.
End verifier.

(** *** Message signatures *)

(** The field of [rainslib.RainsMessage] that [verifyMessageSignature]
    reads. *)
Record RainsMessage := { msgSignatures : list Signature.t }.

Definition validMsgSignature (msgStub : string) (sig : Signature.t) : bool :=
  true.

(** The loop of [verifyMessageSignature]. *)
Fixpoint validMsgSignatures (sigs : list Signature.t) : bool :=
  match sigs with
  | [] => true
  | sig :: rest =>
      if negb (validMsgSignature EmptyString sig) then false
      else validMsgSignatures rest
  end.

Definition verifyMessageSignature (msg : RainsMessage) : bool :=
  if bool_decide (length (msgSignatures msg) = 0%nat) then true
  else validMsgSignatures (msgSignatures msg).

End rainsd.

(** ** Package libresolve: the recursive resolver *)

Module libresolve.
Import rainslib.

#[global] Instance ObjectType_countable : Countable ObjectType :=
  inj_countable'
    (fun t => match t with
              | OTName => 0 | OTIP6Addr => 1 | OTIP4Addr => 2
              | OTRedirection => 3 | OTDelegation => 4 | OTNameset => 5
              | OTCertInfo => 6 | OTServiceInfo => 7 | OTRegistrar => 8
              | OTRegistrant => 9 | OTInfraKey => 10 | OTExtraKey => 11
              | OTNextKey => 12
              end%nat)
    (fun n => match n with
              | 0 => OTName | 1 => OTIP6Addr | 2 => OTIP4Addr
              | 3 => OTRedirection | 4 => OTDelegation | 5 => OTNameset
              | 6 => OTCertInfo | 7 => OTServiceInfo | 8 => OTRegistrar
              | 9 => OTRegistrant | 10 => OTInfraKey | 11 => OTExtraKey
              | _ => OTNextKey
              end%nat)
    (fun t => match t with
              | OTName | OTIP6Addr | OTIP4Addr | OTRedirection | OTDelegation
              | OTNameset | OTCertInfo | OTServiceInfo | OTRegistrar
              | OTRegistrant | OTInfraKey | OTExtraKey | OTNextKey => eq_refl
              end).

(** *** Data *)

(** A [net.Addr], by its string form. *)
Definition Addr := string.

Record ServiceInfo := { SrvName : string; Port : N; Priority : N }.
Record Name := { AliasName : string; AliasTypes : list ObjectType }.

(** The dynamic value of [Object.Value]. *)
Inductive Value :=
| VString (s : string)
| VServiceInfo (srv : ServiceInfo)
| VName (n : Name)
| VOther.

Record Object := { OType : ObjectType; OValue : Value }.

Record Assertion := {
  SubjectName : string;
  SubjectZone : string;
  Context : string;
  Content : list Object
}.

Record Shard := {
  ShardSubjectZone : string;
  RangeFrom : string;
  RangeTo : string
}.

Record Zone := {
  ZoneSubjectZone : string;
  ZoneContent : list Assertion
}.

Record Query := {
  QName : string;
  QContext : string;
  QTypes : list ObjectType
}.

Inductive Section :=
| SecAssertion (a : Assertion)
| SecShard (s : Shard)
| SecZone (z : Zone)
| SecQuery (q : Query)
| SecOther.

(** A message, without its token. *)
Record Message := { MsgContent : list Section }.

Definition rainsPrefix : string := "_rains".
Definition rainsPort : N := 55553.

(** *** Package strings *)

Definition HasPrefix (s prefix : string) : bool := String.prefix prefix s.

Definition HasSuffix (s suffix : string) : bool :=
  (String.length suffix <=? String.length s)%nat
  && String.eqb
       (String.substring (String.length s - String.length suffix)
          (String.length suffix) s)
       suffix.

Definition TrimSuffix (s suffix : string) : string :=
  if HasSuffix s suffix
  then String.substring 0 (String.length s - String.length suffix) s
  else s.

(** [strings.Split(s, ":")[0]] *)
Fixpoint beforeColon (s : string) : string :=
  match s with
  | EmptyString => EmptyString
  | String c rest =>
      if Ascii.eqb c ":"%char then EmptyString else String c (beforeColon rest)
  end.

(** [fmt.Sprintf("%s:%d", host, port)] *)
Definition hostPort (host : string) (port : N) : string :=
  (host ++ ":" ++ NilEmpty.string_of_uint (N.to_uint port))%string.

(** *** What the sources leave to other packages

    [SendQuery n addr] is what the [n]-th call of [util.SendQuery], sent
    to [addr] (nil is [None]), returns: the answer, or [None] for an
    error. [ResolveTCPAddr] is [net.ResolveTCPAddr]. [FQDN] and [InRange]
    are the methods of assertions and shards. [rangeValues] is the order
    in which a [range] visits the values of a Go map. *)
Class Network := {
  SendQuery : nat → option Addr → Query → option Message;
  ResolveTCPAddr : string → option Addr;
  FQDN : Assertion → string;
  InRange : Shard → string → bool;
  rangeValues : gmap string string → list string;
  rangeValues_perm : ∀ m, rangeValues m ≡ₚ (map_to_list m).*2
}.

(** The resolver's mutable state: the delegation cache, and how many
    queries it has sent. *)
Record Resolver := {
  RootNameServers : list Addr;
  Delegations : gmap string Assertion;
  queriesSent : nat
}.

Record Answer := {
  isFinal : bool;
  isRedir : bool;
  redirMap : gmap string string;
  srvMap : gmap string ServiceInfo;
  ipMap : gmap string string;
  nameMap : gmap string Name
}.

Definition set_isFinal (v : bool) (a : Answer) : Answer :=
  {| isFinal := v; isRedir := isRedir a; redirMap := redirMap a;
     srvMap := srvMap a; ipMap := ipMap a; nameMap := nameMap a |}.
Definition set_isRedir (v : bool) (a : Answer) : Answer :=
  {| isFinal := isFinal a; isRedir := v; redirMap := redirMap a;
     srvMap := srvMap a; ipMap := ipMap a; nameMap := nameMap a |}.
Definition set_redirMap (v : gmap string string) (a : Answer) : Answer :=
  {| isFinal := isFinal a; isRedir := isRedir a; redirMap := v;
     srvMap := srvMap a; ipMap := ipMap a; nameMap := nameMap a |}.
Definition set_srvMap (v : gmap string ServiceInfo) (a : Answer) : Answer :=
  {| isFinal := isFinal a; isRedir := isRedir a; redirMap := redirMap a;
     srvMap := v; ipMap := ipMap a; nameMap := nameMap a |}.
Definition set_ipMap (v : gmap string string) (a : Answer) : Answer :=
  {| isFinal := isFinal a; isRedir := isRedir a; redirMap := redirMap a;
     srvMap := srvMap a; ipMap := v; nameMap := nameMap a |}.
Definition set_nameMap (v : gmap string Name) (a : Answer) : Answer :=
  {| isFinal := isFinal a; isRedir := isRedir a; redirMap := redirMap a;
     srvMap := srvMap a; ipMap := ipMap a; nameMap := v |}.

Definition set_Delegations (v : gmap string Assertion) (r : Resolver) :=
  {| RootNameServers := RootNameServers r; Delegations := v;
     queriesSent := queriesSent r |}.
(** The state after one more call of [util.SendQuery]. *)
Definition sent (r : Resolver) : Resolver :=
  {| RootNameServers := RootNameServers r; Delegations := Delegations r;
     queriesSent := S (queriesSent r) |}.

Section resolver.
Context `{Network}.

(** *** handleAnswer *)

(** One iteration of the loop of [handleAssertion]; a type assertion on
    the value of an object panics when the value has another type. *)
Definition handleObject (a : Assertion) (types : gset ObjectType)
    (name : string) (st : Answer * Resolver) (o : Object)
    : result (Answer * Resolver) :=
  let '(ans, r) := st in
  st ←
    match OType o with
    | OTRedirection =>
        match OValue o with
        | VString v =>
            let ans := set_redirMap (<[FQDN a := v]> (redirMap ans)) ans in
            if negb (bool_decide (OTRedirection ∈ types))
               || negb (String.eqb (FQDN a) name)
            then mret (set_isRedir true ans, r)
            else mret (ans, r)
        | _ => Panic "interface conversion: not string"
        end
    | OTDelegation =>
        mret (ans, set_Delegations (<[FQDN a := a]> (Delegations r)) r)
    | OTServiceInfo =>
        match OValue o with
        | VServiceInfo v =>
            mret (set_srvMap (<[FQDN a := v]> (srvMap ans)) ans, r)
        | _ => Panic "interface conversion: not object.ServiceInfo"
        end
    | OTIP6Addr | OTIP4Addr =>
        match OValue o with
        | VString v => mret (set_ipMap (<[FQDN a := v]> (ipMap ans)) ans, r)
        | _ => Panic "interface conversion: not string"
        end
    | OTName =>
        match OValue o with
        | VName v => mret (set_nameMap (<[FQDN a := v]> (nameMap ans)) ans, r)
        | _ => Panic "interface conversion: not object.Name"
        end
    | _ => mret (ans, r)
    end;
  let '(ans, r) := st in
  if bool_decide (OType o ∈ types) && String.eqb (FQDN a) name
  then mret (set_isFinal true ans, r)
  else mret (ans, r).

Definition handleAssertion (a : Assertion) (types : gset ObjectType)
    (name : string) (st : Answer * Resolver) : result (Answer * Resolver) :=
  rainsd.foldlM (handleObject a types name) st (Content a).

Definition handleShard (s : Shard) (types : gset ObjectType)
    (name : string) (ans : Answer) : Answer :=
  if HasSuffix name (ShardSubjectZone s)
     && InRange s (TrimSuffix name (ShardSubjectZone s))
  then set_isFinal true ans else ans.

Definition handleZone (z : Zone) (types : gset ObjectType) (name : string)
    (st : Answer * Resolver) : result (Answer * Resolver) :=
  '(ans, r) ←
    rainsd.foldlM (fun st sec => handleAssertion sec types name st) st
      (ZoneContent z);
  if HasSuffix name (ZoneSubjectZone z)
  then mret (set_isFinal true ans, r) else mret (ans, r).

Definition handleAnswer (msg : Message) (q : Query) (r : Resolver)
    : result (Answer * Resolver) :=
  let types : gset ObjectType := list_to_set (QTypes q) in
  rainsd.foldlM (fun '(ans, r) sec =>
            match sec with
            | SecAssertion s => handleAssertion s types (QName q) (ans, r)
            | SecShard s => mret (handleShard s types (QName q) ans, r)
            | SecZone s => handleZone s types (QName q) (ans, r)
            | _ => mret (ans, r)
            end)
         ({| isFinal := false; isRedir := false; redirMap := ∅;
             srvMap := ∅; ipMap := ∅; nameMap := ∅ |}, r)
         (MsgContent msg).

(** *** handleRedirect *)

Definition allAllowedTypes : gset ObjectType :=
  {[ OTIP6Addr; OTIP4Addr; OTServiceInfo; OTName ]}.
Definition allowedAddrTypes : gset ObjectType := {[ OTIP6Addr; OTIP4Addr ]}.

(** [handleRedirect] calls itself; [depth] bounds the nesting of the
    calls and [None] says that the bound was hit. The result of a call
    that returns is the address, or [None] for the error. *)
Fixpoint handleRedirect (depth : nat) (name : string) (ans : Answer)
    (allowedTypes : gset ObjectType) : option (option Addr) :=
  match depth with
  | O => None
  | S depth =>
      let viaName : option (option Addr) :=
        if bool_decide (OTName ∈ allowedTypes) then
          match nameMap ans !! name with
          | Some nameVal =>
              match handleRedirect depth (AliasName nameVal) ans
                      (list_to_set (AliasTypes nameVal)) with
              | None => None
              | Some (Some addr) => Some (Some addr)
              | Some None => Some None
              end
          | None => Some None
          end
        else Some None in
      let viaSrv : option (option Addr) :=
        if bool_decide (OTServiceInfo ∈ allowedTypes)
           && HasPrefix name rainsPrefix then
          match srvMap ans !! name with
          | Some srvVal =>
              match handleRedirect depth (SrvName srvVal) ans
                      allowedAddrTypes with
              | None => None
              | Some (Some addr) =>
                  Some (ResolveTCPAddr
                          (hostPort (beforeColon addr) (Port srvVal)))
              | Some None => viaName
              end
          | None => viaName
          end
        else viaName in
      if bool_decide (OTIP6Addr ∈ allowedTypes)
         || bool_decide (OTIP4Addr ∈ allowedTypes) then
        match ipMap ans !! name with
        | Some ipAddr => Some (ResolveTCPAddr (hostPort ipAddr rainsPort))
        | None => viaSrv
        end
      else viaSrv
  end.

(** The loop [for _, name := range redirMap] of [recursiveResolve]:
    [addr] is assigned by every call and the loop stops at the first
    call without error. *)
Fixpoint followRedirects (depth : nat) (names : list string) (ans : Answer)
    (addr : option Addr) : option (option Addr) :=
  match names with
  | [] => Some addr
  | name :: rest =>
      match handleRedirect depth name ans allAllowedTypes with
      | None => None
      | Some (Some addr) => Some (Some addr)
      | Some None => followRedirects depth rest ans None
      end
  end.

(** *** recursiveResolve *)

(** The error values of [recursiveResolve]. *)
Inductive error :=
| NoAnswerObtained (query : Query).

(** The inner loop of [recursiveResolve] from authority [addr]. [fuel]
    bounds the number of iterations and the depth of [handleRedirect];
    the outer [None] says that a bound was hit. The walk yields the
    final answer, or [None] when it ends with [break]. *)
Fixpoint walk (fuel : nat) (q : Query) (addr : option Addr) (r : Resolver)
    : option (result (option Message * Resolver)) :=
  match fuel with
  | O => None
  | S fuel' =>
      match SendQuery (queriesSent r) addr q with
      | None => Some (Ok (None, sent r))
      | Some answer =>
          if bool_decide (MsgContent answer = []) then
            Some (Ok (None, sent r))
          else
            match handleAnswer answer q (sent r) with
            | Panic why => Some (Panic why)
            | Ok (ans, r') =>
                if isFinal ans then Some (Ok (Some answer, r'))
                else if isRedir ans then
                  match followRedirects fuel' (rangeValues (redirMap ans))
                          ans addr with
                  | None => None
                  | Some addr' => walk fuel' q addr' r'
                  end
                else Some (Ok (None, r'))
            end
      end
  end.

(** The loop over the root name servers and the final error. *)
Fixpoint tryRoots (fuel : nat) (q : Query) (roots : list Addr)
    (r : Resolver)
    : option (result (option Message * option error * Resolver)) :=
  match roots with
  | [] => Some (Ok (None, Some (NoAnswerObtained q), r))
  | root :: rest =>
      match walk fuel q (Some root) r with
      | None => None
      | Some (Panic why) => Some (Panic why)
      | Some (Ok (Some answer, r')) => Some (Ok (Some answer, None, r'))
      | Some (Ok (None, r')) => tryRoots fuel q rest r'
      end
  end.

(** [recursiveResolve] returns the message (nil is [None]) and the
    error (nil is [None]). *)
Definition recursiveResolve (fuel : nat) (q : Query) (r : Resolver)
    : option (result (option Message * option error * Resolver)) :=
  let lookup :=
    if bool_decide (OTDelegation ∈ QTypes q)
    then Delegations r !! QName q else None in
  match lookup with
  | Some a => Some (Ok (Some {| MsgContent := [SecAssertion a] |}, None, r))
  | None => tryRoots fuel q (RootNameServers r) r
  end.

(** *** The outcome of a walk, in the words of the specification *)

(** The walk from [addr] ends without a final answer: the query fails,
    the answer is empty, the answer is neither final nor a redirect, or
    the answer redirects to an authority whose walk ends so. *)
Inductive walkFails (q : Query)
    : option Addr → Resolver → Resolver → Prop :=
| fails_error addr r :
    SendQuery (queriesSent r) addr q = None →
    walkFails q addr r (sent r)
| fails_empty addr r answer :
    SendQuery (queriesSent r) addr q = Some answer →
    MsgContent answer = [] →
    walkFails q addr r (sent r)
| fails_unexpected addr r answer ans r' :
    SendQuery (queriesSent r) addr q = Some answer →
    MsgContent answer ≠ [] →
    handleAnswer answer q (sent r) = Ok (ans, r') →
    isFinal ans = false → isRedir ans = false →
    walkFails q addr r r'
| fails_redirected addr r answer ans r' depth addr' r'' :
    SendQuery (queriesSent r) addr q = Some answer →
    MsgContent answer ≠ [] →
    handleAnswer answer q (sent r) = Ok (ans, r') →
    isFinal ans = false → isRedir ans = true →
    followRedirects depth (rangeValues (redirMap ans)) ans addr
      = Some addr' →
    walkFails q addr' r' r'' →
    walkFails q addr r r''.

(** No root yields a final answer. *)
Inductive rootsFail (q : Query)
    : list Addr → Resolver → Resolver → Prop :=
| rootsFail_nil r : rootsFail q [] r r
| rootsFail_cons root rest r r' r'' :
    walkFails q (Some root) r r' →
    rootsFail q rest r' r'' →
    rootsFail q (root :: rest) r r''.

(** The delegation shortcut applies: the query asks for a delegation
    and one is cached for its name. *)
Definition cachedDelegation (q : Query) (r : Resolver) : Prop :=
  OTDelegation ∈ QTypes q ∧ is_Some (Delegations r !! QName q).
End resolver.

(** *** The lookups

    The fields of the resolver that never change, [Forwarders] and [Mode],
    are passed as [Settings]. *)

Inductive ResolutionMode := Recursive | Forward | OtherMode (mode : Z).

Record Settings := { Forwarders : list Addr; Mode : ResolutionMode }.

(** The error values of the lookups. *)
Inductive lookupError :=
| RecursiveLookupFailed (e : error)
| NoForwarders
| NoForwarderReachable (forwarders : list Addr)
| UnsupportedMode (mode : ResolutionMode).

Section lookups.
Context `{Network}.

(** The loop of [forwardQuery]: the answer of the first forwarder that
    [util.SendQuery] reaches. *)
Fixpoint tryForwarders (q : Query) (forwarders all : list Addr) (r : Resolver)
    : option Message * option lookupError * Resolver :=
  match forwarders with
  | [] => (None, Some (NoForwarderReachable all), r)
  | forwarder :: rest =>
      match SendQuery (queriesSent r) (Some forwarder) q with
      | Some answer => (Some answer, None, sent r)
      | None => tryForwarders q rest all (sent r)
      end
  end.

Definition forwardQuery (settings : Settings) (q : Query) (r : Resolver)
    : option Message * option lookupError * Resolver :=
  if bool_decide (length (Forwarders settings) = 0%nat)
  then (None, Some NoForwarders, r)
  else tryForwarders q (Forwarders settings) (Forwarders settings) r.

(** [ClientLookup]; the outer [None] says that [recursiveResolve] ran out
    of fuel. *)
Definition ClientLookup (fuel : nat) (settings : Settings) (q : Query)
    (r : Resolver)
    : option (result (option Message * option lookupError * Resolver)) :=
  match Mode settings with
  | Recursive =>
      match recursiveResolve fuel q r with
      | None => None
      | Some (Panic why) => Some (Panic why)
      | Some (Ok (msg, err, r')) =>
          Some (Ok (msg, RecursiveLookupFailed <$> err, r'))
      end
  | Forward => Some (Ok (forwardQuery settings q r))
  | OtherMode _ => Some (Ok (None, Some (UnsupportedMode (Mode settings)), r))
  end.

(** [ServerLookup] up to the point where the answer is handed to the
    connection of [addr]: the message with its token set. The error of the
    lookup is discarded, and [msg.Token = token] dereferences [msg]. *)
Definition ServerLookup (fuel : nat) (settings : Settings) (q : Query)
    (addr : Addr) (token : N) (r : Resolver)
    : option (result (Addr * (N * Message) * Resolver)) :=
  let looked : option (result (option Message * Resolver)) :=
    match Mode settings with
    | Recursive =>
        match recursiveResolve fuel q r with
        | None => None
        | Some (Panic why) => Some (Panic why)
        | Some (Ok (msg, _, r')) => Some (Ok (msg, r'))
        end
    | Forward =>
        let '(msg, _, r') := forwardQuery settings q r in Some (Ok (msg, r'))
    | OtherMode _ => Some (Ok (None, r))
    end in
  match looked with
  | None => None
  | Some (Panic why) => Some (Panic why)
  | Some (Ok (None, r')) =>
      Some (Panic "invalid memory address or nil pointer dereference")
  | Some (Ok (Some msg, r')) => Some (Ok (addr, (token, msg), r'))
  end.

(** [getDelegations]: the cached delegation of every query of the message
    that asks for one. *)
Definition getDelegations (msg : Message) (r : Resolver) : list Section :=
  foldl (fun answer s =>
           match s with
           | SecQuery q =>
               if bool_decide (OTDelegation ∈ QTypes q) then
                 match Delegations r !! QName q with
                 | Some a => answer ++ [SecAssertion a]
                 | None => answer
                 end
               else answer
           | _ => answer
           end)
        [] (MsgContent msg).
End lookups.

End libresolve.

(** ** Package message: the CBOR form of a message *)

Module message.

(** *** The wire and the reader *)

(** CBOR data items. *)
Inductive item :=
| IUint (n : N)
| INegative (z : Z)
| IText (s : string)
| IBytes (b : list N)
| IArray (l : list item)
| IMap (m : list (Z * item))
| ITag (tag : N) (content : item).

(** Go values of type [interface{}], by the dynamic types that
    [UnmarshalCBOR] asserts. *)
Inductive dyn :=
| DUint64 (n : N)
| DInt64 (z : Z)
| DInt (z : Z)
| DString (s : string)
| DBytes (b : list N)
| DSlice (l : list dyn)                   (* []interface{} *)
| DSliceOfSlices (l : list (list dyn))    (* [][]interface{} *)
| DIntMap (m : list (Z * dyn))            (* map[int]interface{} *)
| DSignatureAlgorithmType (a : Z)         (* algorithmTypes.SignatureAlgorithmType *)
| DKeySpaceID (k : Z).                    (* keys.KeySpaceID *)

(** Modelled from the decoder's own use of the reader (the CBOR library
    is not among the sources): [UnmarshalCBOR] takes the capabilities,
    the token and the sections, which are arrays, as [[]interface{}], an
    array inside the section array again as [[]interface{}], a
    non-negative integer as [uint64], a text as [string] and a section
    body as [map[int]interface{}]. The reader is generic: what it
    returns depends on the data item alone. *)
Fixpoint read (i : item) : dyn :=
  match i with
  | IUint n => DUint64 n
  | INegative z => DInt64 z
  | IText s => DString s
  | IBytes b => DBytes b
  | IArray l => DSlice (map read l)
  | IMap m => DIntMap (map (fun kv => match kv with (k, v) => (k, read v) end) m)
  | ITag _ content => read content
  end.

(** [r.ReadTag()] then [r.ReadIntMapUntagged()] *)
Definition ReadTag (wire : item) : option (N * item) :=
  match wire with ITag tag content => Some (tag, content) | _ => None end.

Definition ReadIntMapUntagged (content : item) : option (list (Z * dyn)) :=
  match content with
  | IMap m => Some (map (fun kv => match kv with (k, v) => (k, read v) end) m)
  | _ => None
  end.

(** [m[k]] on a Go map: the value and whether the key is present. *)
Fixpoint lookup (k : Z) (m : list (Z * dyn)) : option dyn :=
  match m with
  | [] => None
  | (k', v) :: m' => if Z.eqb k k' then Some v else lookup k m'
  end.

(** *** Messages *)

Record PublicKeyID := { Algorithm : Z; KeySpace : Z; KeyPhase : Z }.

Record Signature := {
  PKID : PublicKeyID;
  ValidSince : Z;
  ValidUntil : Z;
  Data : dyn
}.

(** The dynamic types of a [sections.MessageSection] that the type
    switches of [MarshalCBOR] and [Sort] name; [KOther] is any other type,
    which their [default] branches receive. *)
Inductive sectionKind :=
| KAssertion | KShard | KZone | KQuery | KNotification
| KAddressAssertion | KAddressZone | KAddressQuery
| KOther.

(** The type code of the section kinds that [MarshalCBOR] writes. *)
Definition typeCode (k : sectionKind) : option N :=
  match k with
  | KAssertion => Some 1%N
  | KShard => Some 2%N
  | KZone => Some 3%N
  | KQuery => Some 4%N
  | KNotification => Some 23%N
  | _ => None
  end.

(** Section bodies are encoded and decoded by the sections package, which
    is not among the sources: [Body] is a section body, [marshalBody] its
    data item and [UnmarshalMap] the decoder of a kind (an error is
    [None]). *)
Class SectionCodec := {
  Body : Type;
  marshalBody : sectionKind → Body → item;
  UnmarshalMap : sectionKind → list (Z * dyn) → option Body
}.

Section codec.
Context `{SectionCodec}.

Record MessageSection := { kind : sectionKind; body : Body }.

Record RainsMessage := {
  Capabilities : list string;
  Token : list N;
  Content : list MessageSection;
  Signatures : list Signature
}.

Definition set_Capabilities (v : list string) (rm : RainsMessage) :=
  {| Capabilities := v; Token := Token rm; Content := Content rm;
     Signatures := Signatures rm |}.
Definition set_Token (v : list N) (rm : RainsMessage) :=
  {| Capabilities := Capabilities rm; Token := v; Content := Content rm;
     Signatures := Signatures rm |}.
Definition set_Content (v : list MessageSection) (rm : RainsMessage) :=
  {| Capabilities := Capabilities rm; Token := Token rm; Content := v;
     Signatures := Signatures rm |}.
Definition set_Signatures (v : list Signature) (rm : RainsMessage) :=
  {| Capabilities := Capabilities rm; Token := Token rm;
     Content := Content rm; Signatures := v |}.

(** The zero value of [RainsMessage], into which a message is decoded. *)
Definition zeroMessage : RainsMessage :=
  {| Capabilities := []; Token := replicate 16 0%N; Content := [];
     Signatures := [] |}.

(** *** MarshalCBOR *)

Definition integer (z : Z) : item :=
  if z <? 0 then INegative z else IUint (Z.to_N z).

(** Modelled from the spec: "signatures are arrays [alg, keySpace,
    keyPhase, validSince, validUntil, data]" (6); the data is written
    as the item the reader turns into it. *)
Definition writeSignature (data : dyn → item) (sig : Signature) : item :=
  IArray [integer (Algorithm (PKID sig)); integer (KeySpace (PKID sig));
          integer (KeyPhase (PKID sig)); integer (ValidSince sig);
          integer (ValidUntil sig); data (Data sig)].

(** The item of signature data that is a byte string; other data is not
    written by this model. *)
Definition writeData (d : dyn) : item :=
  match d with
  | DBytes b => IBytes b
  | DString s => IText s
  | DUint64 n => IUint n
  | _ => IBytes []
  end.

Definition messageTag : N := 0xE99BA8.

(** The sections as [type, section] pairs; an unknown section type is
    the error [None]. *)
Fixpoint writeSections (content : list MessageSection) : option (list item) :=
  match content with
  | [] => Some []
  | sect :: rest =>
      match typeCode (kind sect) with
      | None => None
      | Some code =>
          match writeSections rest with
          | None => None
          | Some items =>
              Some (IArray [IUint code; marshalBody (kind sect) (body sect)]
                    :: items)
          end
      end
  end.

(** [MarshalCBOR]: the item written, or [None] for the error of an unknown
    section type. The writer is taken to succeed: the errors that
    [w.WriteTag] and [w.WriteIntMap] may return are not modelled. *)
Definition MarshalCBOR (rm : RainsMessage) : option item :=
  let m0 :=
    if bool_decide (0 < length (Signatures rm))%nat
    then [(0, IArray (writeSignature writeData <$> Signatures rm))] else [] in
  let m1 :=
    if bool_decide (0 < length (Capabilities rm))%nat
    then [(1, IArray (IText <$> Capabilities rm))] else [] in
  let m2 := [(2, IArray (IUint <$> Token rm))] in
  match writeSections (Content rm) with
  | None => None
  | Some msgsect =>
      Some (ITag messageTag (IMap (m0 ++ m1 ++ m2 ++ [(23, IArray msgsect)])))
  end.

(** *** UnmarshalCBOR *)

Inductive error :=
| FailedToReadTag
| UnexpectedTag (tag : N)
| FailedToReadMap
| TokenMissing
| SectionError.

Definition conversion {A} : result A := Panic "interface conversion".

(** The type assertions of the decoder. *)
Definition asSlice (v : option dyn) : result (list dyn) :=
  match v with Some (DSlice l) => Ok l | _ => conversion end.
Definition asSliceOfSlices (v : dyn) : result (list (list dyn)) :=
  match v with DSliceOfSlices l => Ok l | _ => conversion end.
Definition asUint64 (v : option dyn) : result N :=
  match v with Some (DUint64 n) => Ok n | _ => conversion end.
Definition asInt64 (v : option dyn) : result Z :=
  match v with Some (DInt64 z) => Ok z | _ => conversion end.
Definition asInt (v : option dyn) : result Z :=
  match v with Some (DInt z) => Ok z | _ => conversion end.
Definition asString (v : dyn) : result string :=
  match v with DString s => Ok s | _ => conversion end.
Definition asIntMap (v : option dyn) : result (list (Z * dyn)) :=
  match v with Some (DIntMap m) => Ok m | _ => conversion end.
Definition asSignatureAlgorithmType (v : option dyn) : result Z :=
  match v with Some (DSignatureAlgorithmType a) => Ok a | _ => conversion end.
Definition asKeySpaceID (v : option dyn) : result Z :=
  match v with Some (DKeySpaceID k) => Ok k | _ => conversion end.

(** [sig[i]]: an index beyond the slice panics; [asX (sig !! i)] covers
    both the index and the type assertion. *)
Definition readSignature (sig : list dyn) : result Signature :=
  alg ← asSignatureAlgorithmType (sig !! 0%nat);
  ks ← asKeySpaceID (sig !! 1%nat);
  kp ← asInt (sig !! 2%nat);
  vs ← asInt64 (sig !! 3%nat);
  vu ← asInt64 (sig !! 4%nat);
  match sig !! 5%nat with
  | None => Panic "index out of range"
  | Some data =>
      mret {| PKID := {| Algorithm := alg; KeySpace := ks; KeyPhase := kp |};
              ValidSince := vs; ValidUntil := vu; Data := data |}
  end.

Fixpoint readAll {A B} (f : A → result B) (l : list A) : result (list B) :=
  match l with
  | [] => mret []
  | x :: l' => y ← f x; ys ← readAll f l'; mret (y :: ys)
  end.

(** [rm.Token[i] = byte(val.(uint64))] for every element of the token
    array: the token has 16 bytes, an index beyond them panics. *)
Fixpoint readToken (i : nat) (vals : list dyn) (token : list N)
    : result (list N) :=
  match vals with
  | [] => mret token
  | val :: rest =>
      n ← asUint64 (Some val);
      if bool_decide (i < length token)%nat
      then readToken (S i) rest (<[i := (n mod 256)%N]> token)
      else Panic "index out of range"
  end.

Definition kindOfCode (t : N) : option sectionKind :=
  match t with
  | 1%N => Some KAssertion
  | 2%N => Some KShard
  | 3%N => Some KZone
  | 4%N => Some KQuery
  | 23%N => Some KNotification
  | _ => None
  end.

(** The loop over the section array: the sections read so far, and the
    error of [UnmarshalMap] when a body fails to decode. An unknown
    type code is passed over. *)
Fixpoint readSections (elems : list dyn) (content : list MessageSection)
    : result (option error * list MessageSection) :=
  match elems with
  | [] => mret (None, content)
  | elem :: rest =>
      elem ← asSlice (Some elem);
      t ← asUint64 (elem !! 0%nat);
      match kindOfCode t with
      | Some k =>
          m ← asIntMap (elem !! 1%nat);
          match UnmarshalMap k m with
          | None => mret (Some SectionError, content)
          | Some b =>
              readSections rest (content ++ [{| kind := k; body := b |}])
          end
      | None => readSections rest content
      end
  end.

(** [UnmarshalCBOR] into [rm]: the error returned (nil is [None]) and
    the message as it is afterwards. *)
Definition UnmarshalCBOR (wire : item) (rm : RainsMessage)
    : result (option error * RainsMessage) :=
  match ReadTag wire with
  | None => mret (Some FailedToReadTag, rm)
  | Some (tag, content) =>
      if negb (N.eqb tag messageTag) then mret (Some (UnexpectedTag tag), rm)
      else
        match ReadIntMapUntagged content with
        | None => mret (Some FailedToReadMap, rm)
        | Some m =>
            rm ←
              match lookup 0 m with
              | Some sigs =>
                  sigs ← asSliceOfSlices sigs;
                  sigs ← readAll readSignature sigs;
                  mret (set_Signatures sigs rm)
              | None => mret rm
              end;
            rm ←
              match lookup 1 m with
              | Some caps =>
                  caps ← asSlice (Some caps);
                  caps ← readAll asString caps;
                  mret (set_Capabilities caps rm)
              | None => mret rm
              end;
            match lookup 2 m with
            | None => mret (Some TokenMissing, rm)
            | Some token =>
                token ← asSlice (Some token);
                token ← readToken 0 token (Token rm);
                let rm := set_Token token rm in
                elems ← asSlice (lookup 23 m);
                '(err, content) ← readSections elems (Content rm);
                mret (err, set_Content content rm)
            end
        end
  end.

(** A message is well formed when its token has 16 bytes and its
    sections are of the kinds that have a type code. *)
Definition wellFormed (rm : RainsMessage) : Prop :=
  length (Token rm) = 16%nat
  ∧ Forall (fun b => (b < 256)%N) (Token rm)
  ∧ Forall (fun sect => is_Some (typeCode (kind sect))) (Content rm).
End codec.

(** *** Sort *)

#[global] Instance sectionKind_eq_dec : EqDecision sectionKind.
Proof. solve_decision. Defined.

(** [sec.Sort()], which sorts the content of one section, belongs to the
    sections package; [sort.Slice] with the [CompareTo] of a kind belongs
    to Go's library and to that package. [sort.Slice] permutes the slice
    it is given. *)
Class SectionOrder `{SectionCodec} := {
  sortSection : sectionKind → Body → Body;
  sortSlice : sectionKind → list Body → list Body;
  sortSlice_perm : ∀ k l, sortSlice k l ≡ₚ l
}.

Section sorting.
Context `{SectionOrder}.

(** The slice that the first loop of [Sort] fills with the sections of one
    kind, after [sort.Slice]. A section of another type ([KOther]) goes
    to no slice: the [default] branch only logs a warning. *)
Definition sortedOfKind (k : sectionKind) (content : list MessageSection)
    : list MessageSection :=
  (fun b => {| kind := k; body := b |})
  <$> sortSlice k (body <$> filter (fun sect => kind sect = k) content).

Definition Sort (m : RainsMessage) : RainsMessage :=
  let content :=
    (fun sec => {| kind := kind sec;
                   body := sortSection (kind sec) (body sec) |})
    <$> Content m in
  set_Content
    (sortedOfKind KAddressQuery content
     ++ sortedOfKind KAddressZone content
     ++ sortedOfKind KAddressAssertion content
     ++ sortedOfKind KAssertion content
     ++ sortedOfKind KShard content
     ++ sortedOfKind KZone content
     ++ sortedOfKind KQuery content
     ++ sortedOfKind KNotification content)
    m.
End sorting.

End message.

(** * The vocabulary of the properties *)

(** ** The validity window of a section *)

Module validity.
Import time rainslib.

(** The stored [validSince] as [UpdateValidity] reads it: a stored 0
    stands for "not set yet" and is replaced by [MaxInt64]. *)
Definition initialised (v : Z) : Z := if v =? 0 then math.MaxInt64 else v.

(** What one call of [UpdateValidity] does to the two bounds. *)
Definition extendSince (deadline validSince' stored : Z) : Z :=
  if validSince' <? initialised stored
  then Z.min validSince' deadline else initialised stored.
Definition extendUntil (deadline validUntil' stored : Z) : Z :=
  if validUntil' >? stored then Z.min validUntil' deadline else stored.

(** The laws of the interface that the proofs about the generic verifier
    code rely on; the four implementations satisfy them. *)
Class LawfulSection (S : Type) `{MessageSectionWithSig S} := {
  Sigs_UpdateValidity now vs vu mv (s : S) :
    Sigs (UpdateValidity now vs vu mv s) = Sigs s;
  box_UpdateValidity now vs vu mv (s : S) :
    box (UpdateValidity now vs vu mv s) = UpdateValidity now vs vu mv (box s);
  ValidSince_UpdateValidity now vs vu mv (s : S) :
    ValidSince (UpdateValidity now vs vu mv s)
    = extendSince (Unix (Add now mv)) vs (ValidSince s);
  ValidUntil_UpdateValidity now vs vu mv (s : S) :
    ValidUntil (UpdateValidity now vs vu mv s)
    = extendUntil (Unix (Add now mv)) vu (ValidUntil s);
  ValidSince_box (s : S) : ValidSince (box s) = ValidSince s;
  ValidUntil_box (s : S) : ValidUntil (box s) = ValidUntil s;
  Sigs_box (s : S) : Sigs (box s) = Sigs s;
  DeleteSig_Ok i (s s' : S) :
    DeleteSig i s = Ok s' →
    slice.delete i (Sigs s) = Ok (Sigs s')
    ∧ ValidSince s' = ValidSince s ∧ ValidUntil s' = ValidUntil s;
  DeleteSig_Panic i (s : S) why :
    DeleteSig i s = Panic why → slice.delete i (Sigs s) = Panic why
}.
End validity.

(** ** The verifier *)

Module verifier_spec.
Import time rainslib rainsd validity.

Definition set_zoneKeyCache (v : keyCacheKey → option PublicKey.t) (w : World) :=
  {| zoneKeyCache := v; pendingSignatures := pendingSignatures w;
     activeTokens := activeTokens w; tokensDrawn := tokensDrawn w;
     notifications := notifications w; sentQueries := sentQueries w;
     asserted := asserted w; queried := queried w |}.

(** The length of a slice is within its backing array. *)
Definition slice_wf {A} (s : slice.t A) : Prop :=
  (slice.len s ≤ length (slice.backing s))%nat.

Section vocabulary.
Context `{Env}.

(** A signature is expired at [now]: the test of [validateSignatures]. *)
Definition expired (now : Time) (sig : Signature.t) : bool :=
  Signature.ValidUntil sig <? Unix now.

(** The signature checks against the key stored for its algorithm (the
    zero key when there is none, as a Go map gives). *)
Definition verifies (keys : gmap KeyAlgorithmType PublicKey.t)
    (bareStub : string) (sig : Signature.t) : bool :=
  VerifySignature (Signature.Algorithm sig)
    (PublicKey.Key (default PublicKey.zero (keys !! Signature.Algorithm sig)))
    bareStub (Signature.Data sig).

(** The configured [maxCacheValidity] of a section kind. *)
Definition maxCacheValidity (sec : SectionWithSig) : Duration :=
  match sec with
  | SAssertion _ => MaxCacheAssertionValidity Config
  | SShard _ => MaxCacheShardValidity Config
  | SZone _ => MaxCacheZoneValidity Config
  end.

(** [m] is a check: it answers [b] and, when it fails, its only effect is
    [f]. *)
Definition checks (m : M bool) (b : bool) (f : World → World) : Prop :=
  ∀ w, m w = Ok (b, if b then w else f w).

Definition notifyInconsistent (ss : sectionWithSigSender.t) (w : World) : World :=
  set_notifications
    (notifications w ++
       [(sectionWithSigSender.Token ss, sectionWithSigSender.Sender ss,
         RcvInconsistentMsg)]) w.

Definition sameContextZone {S} `{MessageSectionWithSig S} (inner : S)
    (outer : SectionWithSig) : bool :=
  bool_decide (GetContext inner = GetContext outer)
  && bool_decide (GetSubjectZone inner = GetSubjectZone outer).

Definition inRange (subjectName rangeFrom rangeTo : string) : bool :=
  (String.eqb rangeFrom "" || String.leb rangeFrom subjectName)
  && (String.eqb rangeTo "" || String.leb subjectName rangeTo).

Definition shardContentConsistent (outer : SectionWithSig)
    (shard : ShardSection.t) : bool :=
  forallb (fun a =>
             sameContextZone a outer
             && inRange (AssertionSection.SubjectName a)
                  (ShardSection.RangeFrom shard) (ShardSection.RangeTo shard))
          (ShardSection.Content shard).

Definition structurallyConsistent (sec : SectionWithSig) : bool :=
  match sec with
  | SAssertion _ => true
  | SShard s => shardContentConsistent sec s
  | SZone z =>
      forallb (fun c =>
                 match c with
                 | FAssertion a => sameContextZone a sec
                 | FShard s =>
                     sameContextZone s sec && shardContentConsistent sec s
                 | FOther => false
                 end)
              (ZoneSection.Content z)
  end.

Definition containedAssertionsConsistent (sec : SectionWithSig) : Prop :=
  match sec with
  | SAssertion _ => True
  | SShard s =>
      ∀ a, a ∈ ShardSection.Content s →
        GetContext a = GetContext s ∧ GetSubjectZone a = GetSubjectZone s
        ∧ inRange (AssertionSection.SubjectName a)
            (ShardSection.RangeFrom s) (ShardSection.RangeTo s) = true
  | SZone z =>
      (∀ a, FAssertion a ∈ ZoneSection.Content z →
         GetContext a = GetContext z ∧ GetSubjectZone a = GetSubjectZone z)
      ∧ (∀ s a, FShard s ∈ ZoneSection.Content z →
           a ∈ ShardSection.Content s →
           GetContext a = GetContext z ∧ GetSubjectZone a = GetSubjectZone z
           ∧ inRange (AssertionSection.SubjectName a)
               (ShardSection.RangeFrom s) (ShardSection.RangeTo s) = true)
  end.

(** Some required public key is missing in state [w]. *)
Definition keysMissing (w : World) (sec : SectionWithSig) : Prop :=
  ∃ nk, neededKeys sec = Ok nk
        ∧ (publicKeysPresent (zoneKeyCache w) nk).2 = false.

(** All required public keys are present; [keys] are the stored keys by
    algorithm. *)
Definition keysPresent (w : World) (sec : SectionWithSig)
    (keys : gmap KeyAlgorithmType PublicKey.t) : Prop :=
  ∃ nk, neededKeys sec = Ok nk
        ∧ (publicKeysPresent (zoneKeyCache w) nk).1.1 = keys
        ∧ (publicKeysPresent (zoneKeyCache w) nk).2 = true.

Definition delegationQueryFor (now : Time) (ss : sectionWithSigSender.t)
    (w : World) : sentQuery :=
  let sec := sectionWithSigSender.Section ss in
  {| qContext := GetContext sec; qZone := GetSubjectZone sec;
     qExpires := getQueryValidity now (Sigs sec);
     qType := OTDelegation;
     qToken := GenerateToken (tokensDrawn w);
     qDestination := getDelegationAddress (GetContext sec) (GetSubjectZone sec) |}.

(** The state after [verifySignatures] has parked a section. *)
Definition park (now : Time) (ss : sectionWithSigSender.t) (w : World) : World :=
  let sec := sectionWithSigSender.Section ss in
  let cacheValue :=
    {| sectionWSSender := ss;
       validUntil := getQueryValidity now (Sigs sec) |} in
  let added :=
    pendingSignatureCache.Add (GetContext sec) (GetSubjectZone sec)
      cacheValue (pendingSignatures w) in
  let w1 := set_pendingSignatures added.1 w in
  if added.2 then
    set_activeTokens ({[ GenerateToken (tokensDrawn w) ]} ∪ activeTokens w)
      (set_sentQueries (sentQueries w ++ [delegationQueryFor now ss w])
         (set_tokensDrawn (S (tokensDrawn w)) w1))
  else w1.

(** [verify] on a signed section, by the outcome of the structural check. *)
Definition sectionSenderOf (ms : msgSectionSender.t) (sec : SectionWithSig)
    : sectionWithSigSender.t :=
  {| sectionWithSigSender.Section := sec;
     sectionWithSigSender.Sender := msgSectionSender.Sender ms;
     sectionWithSigSender.Token := msgSectionSender.Token ms |}.

Definition zoneShardsConsistent (sec : SectionWithSig) : bool :=
  match sec with
  | SZone zone => containedShardsAreConsistent zone
  | _ => true
  end.

(** The identifier (context, subjectName, algorithm) of each signature in
    the rains key space. *)
Definition subjectNameKeys (a : AssertionSection.t) : gset keyCacheKey :=
  list_to_set
    ((fun sig => {| context := AssertionSection.Context a;
                    zone := AssertionSection.SubjectName a;
                    keyAlgo := Signature.Algorithm sig |})
     <$> filter (fun sig => Signature.KeySpace sig = RainsKeySpace)
           (slice.elems (AssertionSection.Signatures a))).

(** What can happen to the server state: a section is verified; a
    delegation arrives and its bucket is drained (the drained sections
    come back through later [verify] steps); the reaper sweeps the
    pending store; the key cache changes. *)
Inductive step : World → World → Prop :=
| step_verify now ms w w' :
    verify now ms w = Ok (tt, w') → step w w'
| step_delegation context zone w :
    step w (set_pendingSignatures
              (pendingSignatureCache.GetAndRemoveAll context zone
                 (pendingSignatures w)).2 w)
| step_reap now w :
    step w (set_pendingSignatures
              (pendingSignatureCache.RemoveExpiredSections (Unix now)
                 (pendingSignatures w)) w)
| step_keys cache w :
    step w (set_zoneKeyCache cache w).

Definition queryTarget (q : sentQuery) : contextAndZone :=
  {| Context := qContext q; Zone := qZone q |}.

(** The targets of the queries sent between two states. *)
Definition emitted (w w' : World) : list contextAndZone :=
  queryTarget <$> drop (length (sentQueries w)) (sentQueries w').

Definition stillPending (w : World) (cz : contextAndZone) : bool :=
  bool_decide (pendingSignatureCache.bucket (Context cz) (Zone cz)
                 (pendingSignatures w) ≠ []).

(** [reachable w outstanding]: the server can be in state [w], and
    [outstanding] lists the targets of the delegation queries sent since
    the bucket of the target was last empty. *)
Inductive reachable : World → list contextAndZone → Prop :=
| reachable_init w :
    pendingSignatures w = ∅ → reachable w []
| reachable_step w outstanding w' :
    reachable w outstanding → step w w' →
    reachable w' (filter (fun cz => stillPending w' cz = true)
                    (outstanding ++ emitted w w')).

Definition targetOf (sec : SectionWithSig) : contextAndZone :=
  {| Context := GetContext sec; Zone := GetSubjectZone sec |}.

(** The identifier (context, subjectZone, algorithm) of each signature in
    the rains key space. *)
Definition subjectZoneKeys (a : AssertionSection.t) : gset keyCacheKey :=
  list_to_set
    ((fun sig => {| context := AssertionSection.Context a;
                    zone := AssertionSection.SubjectZone a;
                    keyAlgo := Signature.Algorithm sig |})
     <$> filter (fun sig => Signature.KeySpace sig = RainsKeySpace)
           (slice.elems (AssertionSection.Signatures a))).

(** Some object of the assertion is a delegation. *)
Definition containsDelegation (a : AssertionSection.t) : bool :=
  existsb (fun o => bool_decide (OType o = OTDelegation))
    (AssertionSection.Content a).

(** Every object of the assertion is a delegation. *)
Definition allDelegations (a : AssertionSection.t) : bool :=
  forallb (fun o => bool_decide (OType o = OTDelegation))
    (AssertionSection.Content a).

Definition intersectionUntil (keys : gmap KeyAlgorithmType PublicKey.t)
    (sig : Signature.t) : Z :=
  Z.min (Signature.ValidUntil sig)
    (PublicKey.ValidUntil
       (default PublicKey.zero (keys !! Signature.Algorithm sig))).

(** The latest time a bound may be moved to: now plus the
    [maxCacheValidity] of the section kind. *)
Definition deadline (now : Time) (sec : SectionWithSig) : Z :=
  Unix (Add now (maxCacheValidity sec)).

End vocabulary.
End verifier_spec.

Module sections_spec.
Import time rainslib validity.

(** Two contents of zones that differ at most in what their shards are. *)
Definition sameUpToShards (c c' : MessageSectionWithSigForward) : Prop :=
  match c, c' with
  | FShard _, FShard _ => True
  | _, _ => c = c'
  end.
End sections_spec.

Module resolver_spec.
Import rainslib libresolve.

(** A lookup gave a message or an error, never both and never neither. *)
Definition messageOrError {E} (msg : option Message) (err : option E) : Prop :=
  (is_Some msg ∧ err = None) ∨ (msg = None ∧ is_Some err).

(** Every delegation cached in [r] is still cached in [r'] (under the same
    name, possibly replaced by a newer one). *)
Definition keepsDelegations (r r' : Resolver) : Prop :=
  ∀ name, is_Some (Delegations r !! name) → is_Some (Delegations r' !! name).

(** Some object of the assertion is a delegation. *)
Definition hasDelegation (a : Assertion) : Prop :=
  ∃ o, o ∈ Content a ∧ OType o = OTDelegation.

(** What a step leaves of the resolver: the roots, every cached
    delegation, and the count of queries sent, which grows by [n]. *)
Definition advances (n : nat) (r r' : Resolver) : Prop :=
  RootNameServers r' = RootNameServers r
  ∧ queriesSent r' = (queriesSent r + n)%nat
  ∧ keepsDelegations r r'.
End resolver_spec.

Module message_spec.
Import message.

(** The place of a kind of section in a sorted message ([KOther] has
    none: [Sort] drops such a section). *)
Definition rank (k : sectionKind) : nat :=
  match k with
  | KAddressQuery => 0
  | KAddressZone => 1
  | KAddressAssertion => 2
  | KAssertion => 3
  | KShard => 4
  | KZone => 5
  | KQuery => 6
  | KNotification => 7
  | KOther => 8
  end.
End message_spec.

(** * Sample data *)

(** ** Sample data, used by the examples and witnesses *)
Module examples.
Import time rainslib rainsd validity verifier_spec.
Local Open Scope string_scope.

Definition config : rainsdConfig := {|
  DelegationQueryValidity := 5 * Second;
  MaxCacheAssertionValidity := 720 * Second;
  MaxCacheShardValidity := 720 * Second;
  MaxCacheZoneValidity := 720 * Second
|}.

(** A signature checks here exactly when its data is the string "good". *)
#[global] Instance env : Env := {|
  Config := config;
  VerifySignature := fun alg key stub data => String.eqb data "good";
  bareStubOf := fun _ => "stub";
  containedShardsAreConsistent := fun _ => true;
  authoritative := fun _ => false;
  getDelegationAddress := fun _ _ => "delegate";
  GenerateToken := fun n => N.of_nat n;
  mapRange := elements;
  mapRange_perm := fun s => reflexivity (elements s)
|}.

Definition now : Time := 1000 * Second.

Definition sig (validSince validUntil : Z) (data : string) : Signature.t := {|
  Signature.Algorithm := Ed25519;
  Signature.KeySpace := RainsKeySpace;
  Signature.ValidSince := validSince;
  Signature.ValidUntil := validUntil;
  Signature.Data := data
|}.

Definition assertion (subjectName subjectZone : string)
    (content : list Object) (sigs : list Signature.t) : AssertionSection.t := {|
  AssertionSection.SubjectName := subjectName;
  AssertionSection.Content := content;
  AssertionSection.Signatures := slice.of_list sigs;
  AssertionSection.SubjectZone := subjectZone;
  AssertionSection.Context := ".";
  AssertionSection.validSince := 0;
  AssertionSection.validUntil := 0
|}.

Definition ip4 : Object := {| OType := OTIP4Addr; Value := "192.0.2.1" |}.
Definition deleg : Object := {| OType := OTDelegation; Value := "K_ch" |}.

Definition www (sigs : list Signature.t) : AssertionSection.t :=
  assertion "www" "ch" [ip4] sigs.

Definition shard (rangeFrom rangeTo : string)
    (content : list AssertionSection.t) (sigs : list Signature.t)
    : ShardSection.t := {|
  ShardSection.Content := content;
  ShardSection.Signatures := slice.of_list sigs;
  ShardSection.SubjectZone := "ch";
  ShardSection.Context := ".";
  ShardSection.RangeFrom := rangeFrom;
  ShardSection.RangeTo := rangeTo;
  ShardSection.validSince := 0;
  ShardSection.validUntil := 0
|}.

Definition key : PublicKey.t :=
  {| PublicKey.Key := "K"; PublicKey.ValidSince := 0;
     PublicKey.ValidUntil := 10000 |}.

Definition world (cache : keyCacheKey → option PublicKey.t) : World := {|
  zoneKeyCache := cache;
  pendingSignatures := ∅;
  activeTokens := ∅;
  tokensDrawn := 0;
  notifications := [];
  sentQueries := [];
  asserted := [];
  queried := []
|}.

(** Every key is known. *)
Definition allKeys : World := world (fun _ => Some key).
(** No key is known. *)
Definition noKeys : World := world (fun _ => None).

Definition from_peer (sec : SectionWithSig) : msgSectionSender.t := {|
  msgSectionSender.Section := MWithSig sec;
  msgSectionSender.Sender := "peer";
  msgSectionSender.Token := 7%N
|}.

(** Objects ordered by their values. *)
#[global] Instance objectOrder : ObjectOrder := {|
  Object_CompareTo := fun o o' =>
    match String.compare (Value o) (Value o') with
    | Lt => -1 | Eq => 0 | Gt => 1
    end
|}.

Definition zoneOf (content : list MessageSectionWithSigForward)
    (sigs : list Signature.t) : ZoneSection.t := {|
  ZoneSection.Signatures := slice.of_list sigs;
  ZoneSection.SubjectZone := "ch";
  ZoneSection.Context := ".";
  ZoneSection.Content := content;
  ZoneSection.validSince := 0;
  ZoneSection.validUntil := 0
|}.

End examples.

Module libresolve_examples.
Import rainslib libresolve resolver_spec.
Local Open Scope string_scope.

(** A network in which the first query sent fails and every later one is
    answered by an empty message. *)
#[global] Instance network : Network := {|
  SendQuery := fun n addr q =>
    match n with O => None | S _ => Some {| MsgContent := [] |} end;
  ResolveTCPAddr := Some;
  FQDN := fun a => SubjectName a ++ "." ++ SubjectZone a;
  InRange := fun s name =>
    String.ltb (RangeFrom s) name && String.ltb name (RangeTo s);
  rangeValues := fun m => (map_to_list m).*2;
  rangeValues_perm := fun m => reflexivity ((map_to_list m).*2)
|}.

Definition chDelegation : Assertion := {|
  SubjectName := "ch"; SubjectZone := "."; Context := ".";
  Content := [{| OType := OTDelegation; OValue := VString "K_ch" |}]
|}.

Definition addressQuery : Query :=
  {| QName := "www.ch."; QContext := "."; QTypes := [OTIP4Addr] |}.
Definition delegationQuery : Query :=
  {| QName := "ch."; QContext := "."; QTypes := [OTDelegation] |}.

Definition resolver (delegations : gmap string Assertion) : Resolver := {|
  RootNameServers := ["root1:55553"; "root2:55553"];
  Delegations := delegations;
  queriesSent := 0
|}.

Definition forwarding : Settings :=
  {| Forwarders := ["fwd1:55553"; "fwd2:55553"]; Mode := Forward |}.
Definition recursing : Settings := {| Forwarders := []; Mode := Recursive |}.

End libresolve_examples.

Module message_examples.
Import message.
Local Open Scope string_scope.

(** A section body is a text here, carried under key 0 of its map. *)
#[global] Instance codec : SectionCodec := {|
  Body := string;
  marshalBody := fun _ b => IMap [(0, IText b)];
  UnmarshalMap := fun _ m =>
    match lookup 0 m with Some (DString s) => Some s | _ => None end
|}.

Definition signature : Signature := {|
  PKID := {| Algorithm := 1; KeySpace := 0; KeyPhase := 1 |};
  ValidSince := 2000; ValidUntil := 5000;
  Data := DBytes [1%N; 2%N; 3%N]
|}.

Definition token : list N := N.of_nat <$> seq 1 16.

Definition unsignedMessage : RainsMessage := {|
  Capabilities := ["urn:x-rains:tlssrv"];
  Token := token;
  Content := [{| kind := KAssertion; body := "www" |};
              {| kind := KQuery; body := "ch" |}];
  Signatures := []
|}.

Definition signedMessage : RainsMessage := {|
  Capabilities := [];
  Token := token;
  Content := [];
  Signatures := [signature]
|}.
End message_examples.

(** * Theorems *)

(** ** The sections of rainslib *)

Module rainslib_facts.
Import time rainslib validity.

Ltac delete_sig_cases :=
  intros;
  cbn [DeleteSig Sigs ValidSince ValidUntil AssertionSection_withSig
       ShardSection_withSig ZoneSection_withSig] in *;
  unfold AssertionSection.DeleteSig, ShardSection.DeleteSig,
    ZoneSection.DeleteSig, AssertionSection.Sigs, ShardSection.Sigs,
    ZoneSection.Sigs in *;
  match goal with
  | H : context [slice.delete ?i ?sl] |- _ =>
      destruct (slice.delete i sl) eqn:?; cbn in H; inversion H; subst;
      cbn; auto
  end.

Ltac no_if t :=
  lazymatch t with
  | context [if _ then _ else _] => fail
  | _ => idtac
  end.

Ltac section_fields :=
  unfold AssertionSection.ValidSince, AssertionSection.ValidUntil,
    AssertionSection.Sigs, ShardSection.ValidSince, ShardSection.ValidUntil,
    ShardSection.Sigs, ZoneSection.ValidSince, ZoneSection.ValidUntil,
    ZoneSection.Sigs in *;
  cbn [AssertionSection.validSince AssertionSection.validUntil
       AssertionSection.Signatures AssertionSection.Sigs
       AssertionSection.ValidSince AssertionSection.ValidUntil
       AssertionSection.set_validSince AssertionSection.set_validUntil
       ShardSection.validSince ShardSection.validUntil
       ShardSection.Signatures ShardSection.Sigs
       ShardSection.ValidSince ShardSection.ValidUntil
       ShardSection.set_validSince ShardSection.set_validUntil
       ZoneSection.validSince ZoneSection.validUntil
       ZoneSection.Signatures ZoneSection.Sigs
       ZoneSection.ValidSince ZoneSection.ValidUntil
       ZoneSection.set_validSince ZoneSection.set_validUntil] in *.

(** Case analysis on the comparisons of [UpdateValidity], innermost
    first. *)
Ltac update_validity_cases :=
  intros; try reflexivity;
  cbn [Sigs UpdateValidity ValidSince ValidUntil box
       AssertionSection_withSig ShardSection_withSig ZoneSection_withSig];
  unfold AssertionSection.UpdateValidity, ShardSection.UpdateValidity,
    ZoneSection.UpdateValidity, extendSince, extendUntil, initialised;
  rewrite ?Z.gtb_ltb;
  repeat (section_fields;
          match goal with
          | |- context [?a =? ?b] =>
              no_if a; no_if b; destruct (Z.eqb_spec a b)
          | |- context [?a <? ?b] =>
              no_if a; no_if b; destruct (Z.ltb_spec a b)
          end);
  section_fields; try reflexivity; try lia.

#[global] Instance AssertionSection_lawful : LawfulSection AssertionSection.t.
Proof. split; [update_validity_cases .. | delete_sig_cases | delete_sig_cases]. Qed.

#[global] Instance ShardSection_lawful : LawfulSection ShardSection.t.
Proof. split; [update_validity_cases .. | delete_sig_cases | delete_sig_cases]. Qed.

#[global] Instance ZoneSection_lawful : LawfulSection ZoneSection.t.
Proof. split; [update_validity_cases .. | delete_sig_cases | delete_sig_cases]. Qed.

#[global] Instance SectionWithSig_lawful : LawfulSection SectionWithSig.
Proof.
  split; intros; try reflexivity.
  - destruct s as [a|sh|z];
      [exact (Sigs_UpdateValidity now vs vu mv a)
      |exact (Sigs_UpdateValidity now vs vu mv sh)
      |exact (Sigs_UpdateValidity now vs vu mv z)].
  - destruct s as [a|sh|z];
      [exact (ValidSince_UpdateValidity now vs vu mv a)
      |exact (ValidSince_UpdateValidity now vs vu mv sh)
      |exact (ValidSince_UpdateValidity now vs vu mv z)].
  - destruct s as [a|sh|z];
      [exact (ValidUntil_UpdateValidity now vs vu mv a)
      |exact (ValidUntil_UpdateValidity now vs vu mv sh)
      |exact (ValidUntil_UpdateValidity now vs vu mv z)].
  - destruct s as [a|sh|z]; cbn in H;
      [destruct (AssertionSection.DeleteSig i a) as [a'|] eqn:E
      |destruct (ShardSection.DeleteSig i sh) as [a'|] eqn:E
      |destruct (ZoneSection.DeleteSig i z) as [a'|] eqn:E];
      cbn in H; inversion H; subst;
      [exact (DeleteSig_Ok (S:=AssertionSection.t) _ _ _ E)
      |exact (DeleteSig_Ok (S:=ShardSection.t) _ _ _ E)
      |exact (DeleteSig_Ok (S:=ZoneSection.t) _ _ _ E)].
  - destruct s as [a|sh|z]; cbn in H;
      [destruct (AssertionSection.DeleteSig i a) as [a'|] eqn:E
      |destruct (ShardSection.DeleteSig i sh) as [a'|] eqn:E
      |destruct (ZoneSection.DeleteSig i z) as [a'|] eqn:E];
      cbn in H; inversion H; subst;
      [exact (DeleteSig_Panic (S:=AssertionSection.t) _ _ _ E)
      |exact (DeleteSig_Panic (S:=ShardSection.t) _ _ _ E)
      |exact (DeleteSig_Panic (S:=ZoneSection.t) _ _ _ E)].
Qed.

(** C10, with the precondition it needs. For an assertion, shard or
    zone section whose stored validUntil is not beyond now + maxValidity,
    a call [UpdateValidity validSince validUntil maxValidity] only extends
    the validity window: the stored validUntil does not decrease, the
    stored validSince (a stored 0 read as "not set", that is as MaxInt64)
    does not increase, a bound that changes is at most now + maxValidity
    afterwards, and so is the stored validUntil. *)
Theorem UpdateValidity_extends_window (sec : SectionWithSig) (now : Time)
    (validSince validUntil : Z) (maxValidity : Duration) :
  ValidUntil sec ≤ Unix (Add now maxValidity) →
  let sec' := UpdateValidity now validSince validUntil maxValidity sec in
  ValidUntil sec ≤ ValidUntil sec'
  ∧ ValidSince sec' ≤ initialised (ValidSince sec)
  ∧ (ValidUntil sec' = ValidUntil sec
     ∨ ValidUntil sec' ≤ Unix (Add now maxValidity))
  ∧ (ValidSince sec' = initialised (ValidSince sec)
     ∨ ValidSince sec' ≤ Unix (Add now maxValidity))
  ∧ ValidUntil sec' ≤ Unix (Add now maxValidity).
Proof.
  intros Hold sec'. subst sec'.
  rewrite ValidSince_UpdateValidity, ValidUntil_UpdateValidity.
  unfold extendSince, extendUntil. rewrite Z.gtb_ltb.
  destruct (Z.ltb_spec validSince (initialised (ValidSince sec))),
           (Z.ltb_spec (ValidUntil sec) validUntil); lia.
Qed.

Lemma UpdateValidity_extends_window_witness :
  let sec := SAssertion (examples.www []) in
  let sec' := UpdateValidity examples.now 900 5000 (10000 * Second) sec in
  ValidUntil sec ≤ ValidUntil sec'
  ∧ ValidSince sec' ≤ initialised (ValidSince sec)
  ∧ (ValidUntil sec' = ValidUntil sec
     ∨ ValidUntil sec' ≤ Unix (Add examples.now (10000 * Second)))
  ∧ (ValidSince sec' = initialised (ValidSince sec)
     ∨ ValidSince sec' ≤ Unix (Add examples.now (10000 * Second)))
  ∧ ValidUntil sec' ≤ Unix (Add examples.now (10000 * Second)).
Proof.
  apply (UpdateValidity_extends_window (SAssertion (examples.www []))
           examples.now 900 5000 (10000 * Second)).
  vm_compute. discriminate.
Defined.

Lemma UpdateValidity_can_shrink_validUntil :
  let fresh := SAssertion (examples.www []) in
  let sec := UpdateValidity examples.now 900 5000 (10000 * Second) fresh in
  let sec' := UpdateValidity examples.now 900 6000 (100 * Second) sec in
  ValidUntil sec = 5000 ∧ ValidUntil sec' = 1100
  ∧ ValidUntil sec' < ValidUntil sec.
Proof. vm_compute. repeat split. Qed.
End rainslib_facts.

(** ** The verifier of rainsd *)

Module rainsd_facts.
Import time rainslib rainsd validity verifier_spec rainslib_facts.

Section slices.
Context {A : Type}.

Lemma delete_Ok (s : slice.t A) (i : nat) :
(i < slice.len s)%nat →
slice.delete i s
= Ok (slice.mk (take i (slice.backing s)
                  ++ drop (i + 1) (take (slice.len s) (slice.backing s))
                  ++ drop (slice.len s - 1) (slice.backing s))
               (slice.len s - 1)).
Proof. intros Hi. unfold slice.delete. by rewrite bool_decide_eq_true_2 by lia. Qed.

Lemma delete_Panic (s : slice.t A) (i : nat) :
(slice.len s ≤ i)%nat →
slice.delete i s = Panic "slice bounds out of range".
Proof. intros Hi. unfold slice.delete. by rewrite bool_decide_eq_false_2 by lia. Qed.

(** What [slice.delete] leaves in the backing array, slot by slot. *)
Lemma delete_backing_lookup (s s' : slice.t A) (i p : nat) :
slice_wf s → slice.delete i s = Ok s' →
slice.backing s' !! p
= if decide (p < i)%nat then slice.backing s !! p
  else if decide (p < slice.len s - 1)%nat then slice.backing s !! S p
  else slice.backing s !! p.
Proof.
unfold slice_wf, slice.delete. intros Hwf Hd.
case_bool_decide as Hi; [|done]. injection Hd as <-. cbn [slice.backing].
destruct (decide (p < i)%nat).
- rewrite lookup_app_l by (rewrite length_take; lia).
  by rewrite lookup_take_lt.
- rewrite lookup_app_r by (rewrite length_take; lia).
  rewrite length_take_le by lia.
  destruct (decide (p < slice.len s - 1)%nat).
  + rewrite lookup_app_l by (rewrite length_drop, length_take; lia).
    rewrite lookup_drop, lookup_take_lt by lia. f_equal. lia.
  + rewrite lookup_app_r by (rewrite length_drop, length_take; lia).
    rewrite length_drop, length_take_le by lia.
    rewrite lookup_drop. f_equal. lia.
Qed.

Lemma delete_backing_length (s s' : slice.t A) (i : nat) :
slice_wf s → slice.delete i s = Ok s' →
length (slice.backing s') = length (slice.backing s)
∧ slice.len s' = (slice.len s - 1)%nat.
Proof.
unfold slice_wf, slice.delete. intros Hwf Hd.
case_bool_decide as Hi; [|done]. injection Hd as <-. cbn.
rewrite !length_app, !length_drop, !length_take. lia.
Qed.

(** The elements after a deletion: the [i]-th one is gone. *)
Lemma delete_elems (s s' : slice.t A) (i : nat) :
slice_wf s → slice.delete i s = Ok s' →
slice.elems s' = take i (slice.elems s) ++ drop (S i) (slice.elems s).
Proof.
unfold slice_wf, slice.delete, slice.elems. intros Hwf Hd.
case_bool_decide as Hi; [|done]. injection Hd as <-. cbn.
rewrite app_assoc.
rewrite take_app_length'
  by (rewrite length_app, length_drop, !length_take; lia).
rewrite take_take. rewrite Nat.min_l by lia.
by rewrite Nat.add_1_r.
Qed.
End slices.

Section loop.
Context `{Env} {Sec : Type} `{LawfulSection Sec}.
Variables (now : Time) (keys : gmap KeyAlgorithmType PublicKey.t).

Lemma updateSectionValidity_eq (sec : Sec) ks ku ss su :
updateSectionValidity now sec ks ku ss su
= UpdateValidity now (Z.max ss ks) (Z.min su ku) (maxCacheValidity (box sec)) sec.
Proof.
unfold updateSectionValidity, maxCacheValidity.
destruct (Z.ltb_spec ks ss), (Z.ltb_spec ku su);
  f_equal; lia.
Qed.

Lemma Sigs_updateSectionValidity (sec : Sec) ks ku ss su :
Sigs (updateSectionValidity now sec ks ku ss su) = Sigs sec.
Proof. rewrite updateSectionValidity_eq. apply Sigs_UpdateValidity. Qed.

Lemma validateLoop_fails (bareStub : string) (pre post : list nat) (i : nat) (sec : Sec) (sig : Signature.t) :
(∀ j, j ∈ pre → ∃ sj, slice.backing (Sigs sec) !! j = Some sj ∧ expired now sj = false) →
slice.backing (Sigs sec) !! i = Some sig →
expired now sig = false →
verifies keys bareStub sig = false →
∃ sec', validateLoop now bareStub keys (pre ++ i :: post) sec = Ok (false, sec').
Proof.
revert sec. induction pre as [|j pre IH]; intros sec Hpre Hi Hexp Hver.
- cbn. rewrite Hi. unfold expired in Hexp. rewrite Hexp.
  unfold verifies in Hver. rewrite Hver. cbn. eauto.
- destruct (Hpre j) as (sj & Hj & Hjexp); [left|].
  cbn. rewrite Hj. unfold expired in Hjexp. rewrite Hjexp.
  destruct (negb _) eqn:Hv; [cbn; eauto|].
  apply IH.
  + intros k Hk. rewrite Sigs_updateSectionValidity. apply Hpre. by right.
  + by rewrite Sigs_updateSectionValidity.
  + done.
  + done.
Qed.

Lemma validateLoop_unexpired (bareStub : string) (indices : list nat) (sec : Sec) :
(∀ j, j ∈ indices → ∃ sj, slice.backing (Sigs sec) !! j = Some sj ∧ expired now sj = false) →
∃ sec', validateLoop now bareStub keys indices sec
        = Ok (forallb (fun j => from_option (verifies keys bareStub) false (slice.backing (Sigs sec) !! j)) indices, sec')
      ∧ Sigs sec' = Sigs sec.
Proof.
revert sec. induction indices as [|j indices IH]; intros sec Hall.
- cbn. eauto.
- destruct (Hall j) as (sj & Hj & Hjexp); [left|].
  cbn. rewrite Hj. unfold expired in Hjexp. rewrite Hjexp. cbn.
  fold (verifies keys bareStub sj).
  destruct (verifies keys bareStub sj) eqn:Hv; cbn; [|eauto].
  destruct (IH (updateSectionValidity now sec
             (PublicKey.ValidSince (default PublicKey.zero (keys !! Signature.Algorithm sj)))
             (PublicKey.ValidUntil (default PublicKey.zero (keys !! Signature.Algorithm sj)))
             (Signature.ValidSince sj) (Signature.ValidUntil sj))) as (sec' & Heq & Hs).
  { intros k Hk. rewrite Sigs_updateSectionValidity. apply Hall. by right. }
  exists sec'. rewrite Heq, Hs, !Sigs_updateSectionValidity. done.
Qed.

Lemma seq_split_at (k n : nat) :
(k < n)%nat → seq 0 n = seq 0 k ++ k :: seq (S k) (n - S k).
Proof.
intros Hk. replace n with (k + S (n - S k))%nat at 1 by lia.
rewrite seq_app. reflexivity.
Qed.

(** A signature that is not expired, fails the check and has no expired
  signature before it makes validation return [false]. *)
Lemma validateSignatures_fails (sec : Sec) (k : nat) (sig : Signature.t) :
slice.elems (Sigs sec) !! k = Some sig →
(∀ j sj, (j < k)%nat → slice.elems (Sigs sec) !! j = Some sj →
         expired now sj = false) →
expired now sig = false →
verifies keys (bareStubOf (box sec)) sig = false →
∃ sec', validateSignatures now sec keys = Ok (false, sec').
Proof.
intros Hk Hpre Hexp Hver. unfold slice.elems in *.
apply lookup_take_Some in Hk as [Hk Hlt].
unfold validateSignatures.
rewrite bool_decide_eq_false_2 by lia.
rewrite (seq_split_at k _ Hlt).
destruct (validateLoop_fails (bareStubOf (box sec)) (seq 0 k)
            (seq (S k) (slice.len (Sigs sec) - S k)) k sec sig)
  as (sec' & ->); auto.
- intros j Hj. apply elem_of_seq in Hj.
  destruct (lookup_lt_is_Some_2 (slice.backing (Sigs sec)) j) as [sj Hsj].
  { apply lookup_lt_Some in Hk. lia. }
  exists sj. split; [done|]. apply (Hpre j); [lia|].
  apply lookup_take_Some. split; [done|lia].
- cbn. eauto.
Qed.

Lemma validateSignatures_unexpired (sec : Sec) :
(∀ sig, sig ∈ slice.elems (Sigs sec) → expired now sig = false) →
(slice.len (Sigs sec) ≤ length (slice.backing (Sigs sec)))%nat →
∃ b sec', validateSignatures now sec keys = Ok (b, sec')
  ∧ Sigs sec' = Sigs sec
  ∧ (b = true →
       slice.elems (Sigs sec) ≠ []
       ∧ ∀ sig, sig ∈ slice.elems (Sigs sec) →
           verifies keys (bareStubOf (box sec)) sig = true)
  ∧ (∀ sig, sig ∈ slice.elems (Sigs sec) →
       verifies keys (bareStubOf (box sec)) sig = false → b = false).
Proof.
intros Hall Hwf. unfold validateSignatures.
case_bool_decide as Hlen.
{ exists false, sec. cbn. repeat split; try done. }
destruct (validateLoop_unexpired (bareStubOf (box sec))
            (seq 0 (slice.len (Sigs sec))) sec) as (sec' & Heq & Hs).
{ intros j Hj. apply elem_of_seq in Hj.
  destruct (lookup_lt_is_Some_2 (slice.backing (Sigs sec)) j) as [sj Hsj];
    [lia|].
  exists sj. split; [done|]. apply Hall. unfold slice.elems.
  apply (list_elem_of_lookup_2 _ j). apply lookup_take_Some. split; [done|lia]. }
rewrite Heq. cbn.
set (ok := forallb _ _) in *.
assert (Hok : ok = true ↔
          ∀ sig, sig ∈ slice.elems (Sigs sec) →
                 verifies keys (bareStubOf (box sec)) sig = true).
{ unfold ok. rewrite forallb_forall. split.
  - intros Hf sig Hsig. unfold slice.elems in Hsig.
    apply list_elem_of_lookup in Hsig as [j Hj].
    apply lookup_take_Some in Hj as [Hj Hlt].
    specialize (Hf j). rewrite Hj in Hf. apply Hf.
    apply list_elem_of_In, elem_of_seq. lia.
  - intros Hf j Hj. apply list_elem_of_In, elem_of_seq in Hj.
    destruct (lookup_lt_is_Some_2 (slice.backing (Sigs sec)) j) as [sj Hsj];
      [lia|].
    rewrite Hsj. cbn. apply Hf. unfold slice.elems.
    apply (list_elem_of_lookup_2 _ j). apply lookup_take_Some. split; [done|lia]. }
assert (Hne : slice.elems (Sigs sec) ≠ []).
{ unfold slice.elems. intros Hnil. apply (f_equal length) in Hnil.
  rewrite length_take in Hnil. cbn in Hnil. lia. }
destruct ok eqn:Eok; cbn.
- pose proof (proj1 Hok eq_refl) as Hver.
  assert (Hcontra : ∀ (b : bool) sig, sig ∈ slice.elems (Sigs sec) →
            verifies keys (bareStubOf (box sec)) sig = false → b = false).
  { intros b sig Hsig Hv. rewrite Hver in Hv; done. }
  destruct (_ && _); cbn; eexists _, sec';
    (split; [reflexivity|]); (split; [done|]); split; eauto; done.
- exists false, sec'. repeat split; done.
Qed.
End loop.

Section structural.
Context `{Env}.

Lemma checks_andM a b ba bb f :
checks a ba f → checks b bb f → checks (andM a b) (ba && bb) f.
Proof.
intros Ha Hb w. unfold andM, mbind, M_bind. rewrite Ha.
destruct ba; cbn; [apply Hb|reflexivity].
Qed.

Lemma checks_forallM {A} (check : A → M bool) (p : A → bool) f (l : list A) :
(∀ x, x ∈ l → checks (check x) (p x) f) →
checks (forallM check l) (forallb p l) f.
Proof.
induction l as [|x l IH]; intros Hall w; cbn.
- reflexivity.
- unfold mbind, M_bind. rewrite (Hall x) by left.
  destruct (p x); cbn; [|reflexivity].
  apply IH. intros y Hy. apply Hall. by right.
Qed.

Lemma containedSectionValid_checks {Sec} `{MessageSectionWithSig Sec}
  (section : Sec) ss :
checks (containedSectionValid section ss)
  (sameContextZone section (sectionWithSigSender.Section ss))
  (notifyInconsistent ss).
Proof.
intros w. unfold containedSectionValid, sameContextZone.
repeat case_bool_decide; cbn; try reflexivity; congruence.
Qed.

Lemma strLt_leb a b : strLt a b = negb (String.leb b a).
Proof.
unfold strLt, String.leb. rewrite (String.compare_antisym b a).
destruct (String.compare a b); reflexivity.
Qed.

Lemma strGt_leb a b : strGt a b = negb (String.leb a b).
Proof. unfold strGt, String.leb. destruct (String.compare a b); reflexivity. Qed.

Lemma containedSectionInRange_checks subjectName shard ss :
checks (containedSectionInRange subjectName shard ss)
  (inRange subjectName (ShardSection.RangeFrom shard)
     (ShardSection.RangeTo shard))
  (notifyInconsistent ss).
Proof.
intros w. unfold containedSectionInRange, inRange.
rewrite strLt_leb, strGt_leb.
destruct (String.eqb _ ""), (String.eqb _ ""), (String.leb _ _),
  (String.leb _ _); reflexivity.
Qed.

Lemma shardContent_checks outer shard ss :
sectionWithSigSender.Section ss = outer →
checks (forallM (fun assertion =>
          andM (containedSectionValid assertion ss)
               (containedSectionInRange
                  (AssertionSection.SubjectName assertion) shard ss))
          (ShardSection.Content shard))
  (shardContentConsistent outer shard) (notifyInconsistent ss).
Proof.
intros <-. apply checks_forallM. intros a _.
apply checks_andM;
  [apply containedSectionValid_checks|apply containedSectionInRange_checks].
Qed.

Lemma containedAssertionsAndShardsValid_checks ss :
checks (containedAssertionsAndShardsValid ss)
  (structurallyConsistent (sectionWithSigSender.Section ss))
  (notifyInconsistent ss).
Proof.
unfold containedAssertionsAndShardsValid, structurallyConsistent.
destruct (sectionWithSigSender.Section ss) as [a|s|z] eqn:Hsec.
- intros w. reflexivity.
- by apply shardContent_checks.
- apply checks_forallM. intros [a|s|] _.
  + rewrite <- Hsec. apply containedSectionValid_checks.
  + apply checks_andM.
    * rewrite <- Hsec. apply containedSectionValid_checks.
    * by apply shardContent_checks.
  + intros w. reflexivity.
Qed.

Lemma structurallyConsistent_contained sec :
structurallyConsistent sec = true → containedAssertionsConsistent sec.
Proof.
destruct sec as [a|s|z]; cbn; [done| |].
- unfold shardContentConsistent. rewrite forallb_forall.
  intros Hall a Ha. apply list_elem_of_In, Hall in Ha.
  unfold sameContextZone in Ha.
  apply andb_prop in Ha as [Ha ?]. apply andb_prop in Ha as [? ?].
  repeat case_bool_decide; done.
- rewrite forallb_forall. intros Hall. split.
  + intros a Ha. apply list_elem_of_In, Hall in Ha.
    unfold sameContextZone in Ha. apply andb_prop in Ha as [? ?].
    repeat case_bool_decide; done.
  + intros s a Hs Ha. apply list_elem_of_In, Hall in Hs.
    apply andb_prop in Hs as [_ Hs]. unfold shardContentConsistent in Hs.
    rewrite forallb_forall in Hs. apply list_elem_of_In, Hs in Ha.
    unfold sameContextZone in Ha.
    apply andb_prop in Ha as [Ha ?]. apply andb_prop in Ha as [? ?].
    repeat case_bool_decide; done.
Qed.
End structural.

Section verify_facts.
Context `{Env}.

Lemma foldlM_ok {A B} (f : B → A → result B) (l : list A) (b : B) :
(∀ b x, x ∈ l → ∃ b', f b x = Ok b') → ∃ b', foldlM f b l = Ok b'.
Proof.
revert b. induction l as [|x l IH]; intros b Hf; cbn; [eauto|].
destruct (Hf b x) as [b' ->]; [left|]. cbn.
apply IH. intros b0 y Hy. apply Hf. by right.
Qed.

Lemma extractNeededKeys_assertion_ok (a : AssertionSection.t) keys :
∃ keys', extractNeededKeys a true keys = Ok keys'.
Proof.
apply foldlM_ok. intros b sig _. unfold extractNeededKey.
case_bool_decide; [cbn; eauto|]. cbn.
destruct (analyseAssertionContent a) as [[] []]; cbn; eauto.
Qed.

Lemma extractNeededKeys_outer_ok {Sec} `{MessageSectionWithSig Sec}
  (sec : Sec) keys :
∃ keys', extractNeededKeys sec false keys = Ok keys'.
Proof.
apply foldlM_ok. intros b sig _. unfold extractNeededKey.
case_bool_decide; cbn; eauto.
Qed.

Lemma neededKeys_ok (sec : SectionWithSig) : ∃ nk, neededKeys sec = Ok nk.
Proof.
destruct sec as [a|s|z]; cbn.
- apply extractNeededKeys_assertion_ok.
- destruct (extractNeededKeys_outer_ok s ∅) as [ks ->]. cbn.
  apply foldlM_ok. intros. apply extractNeededKeys_assertion_ok.
- destruct (extractNeededKeys_outer_ok z ∅) as [ks ->]. cbn.
  apply foldlM_ok. intros b [a|s|] _.
  + apply extractNeededKeys_assertion_ok.
  + apply extractNeededKeys_outer_ok.
  + cbn. eauto.
Qed.

Lemma verifySignatures_present now ss w keys :
keysPresent w (sectionWithSigSender.Section ss) keys →
verifySignatures now ss w
= match validSignature now (sectionWithSigSender.Section ss) keys with
  | Ok (valid, sec') =>
      Ok (valid, sectionWithSigSender.set_Section sec' ss, w)
  | Panic why => Panic why
  end.
Proof.
intros (nk & Hnk & Hkeys & Hok).
unfold verifySignatures, mbind, M_bind, lift. rewrite Hnk.
destruct (publicKeysPresent (zoneKeyCache w) nk) as [[ks missing] ok].
cbn in Hkeys, Hok. subst.
destruct (validSignature now _ keys) as [[valid sec']|]; reflexivity.
Qed.

Lemma verifySignatures_missing now ss w :
keysMissing w (sectionWithSigSender.Section ss) →
verifySignatures now ss w = Ok (false, ss, park now ss w).
Proof.
intros (nk & Hnk & Hok).
unfold verifySignatures, mbind, M_bind, lift. rewrite Hnk.
destruct (publicKeysPresent (zoneKeyCache w) nk) as [[ks missing] ok].
cbn in Hok. subst. unfold park.
destruct (pendingSignatureCache.Add _ _ _ _) as [pending first] eqn:Hadd.
cbn [fst snd]. destruct first; reflexivity.
Qed.

Lemma keys_present_or_missing w sec :
(∃ keys, keysPresent w sec keys) ∨ keysMissing w sec.
Proof.
destruct (neededKeys_ok sec) as [nk Hnk].
destruct (publicKeysPresent (zoneKeyCache w) nk) as [[ks missing] ok] eqn:E.
destruct ok.
- left. exists ks, nk. rewrite E. done.
- right. exists nk. rewrite E. done.
Qed.

Lemma verify_inconsistent now ms sec w :
msgSectionSender.Section ms = MWithSig sec →
structurallyConsistent sec = false →
verify now ms w = Ok (tt, notifyInconsistent (sectionSenderOf ms sec) w).
Proof.
intros Hsec Hcons. unfold verify. rewrite Hsec.
unfold mbind at 1. unfold M_bind.
rewrite (containedAssertionsAndShardsValid_checks (sectionSenderOf ms sec)).
cbn [sectionSenderOf sectionWithSigSender.Section]. rewrite Hcons. reflexivity.
Qed.

Lemma verify_consistent now ms sec w :
msgSectionSender.Section ms = MWithSig sec →
structurallyConsistent sec = true →
verify now ms w
= if zoneShardsConsistent sec then
    match verifySignatures now (sectionSenderOf ms sec) w with
    | Ok (true, ss', w') =>
        assert ss'
          (authoritative
             {| Context := GetContext (sectionWithSigSender.Section ss');
                Zone := GetSubjectZone (sectionWithSigSender.Section ss') |})
          w'
    | Ok (false, _, w') => Ok (tt, w')
    | Panic why => Panic why
    end
  else Ok (tt, w).
Proof.
intros Hsec Hcons. unfold verify. rewrite Hsec.
unfold mbind at 1. unfold M_bind.
rewrite (containedAssertionsAndShardsValid_checks (sectionSenderOf ms sec)).
cbn [sectionSenderOf sectionWithSigSender.Section]. rewrite Hcons.
cbn [negb]. unfold mbind, M_bind, zoneShardsConsistent.
destruct sec as [a|s|z]; cbn [mret M_ret negb].
1,2: destruct (verifySignatures _ _ _) as [[[[] ss'] w']|]; reflexivity.
destruct (containedShardsAreConsistent z); cbn [mret M_ret negb];
  [|reflexivity].
destruct (verifySignatures _ _ _) as [[[[] ss'] w']|]; reflexivity.
Qed.
End verify_facts.

Section single.
Context `{Env} {Sec : Type} `{LawfulSection Sec}.
Variables (now : Time) (keys : gmap KeyAlgorithmType PublicKey.t).

Lemma single_signature_slice (sec : Sec) sig :
slice_wf (Sigs sec) → slice.elems (Sigs sec) = [sig] →
slice.len (Sigs sec) = 1%nat ∧ slice.backing (Sigs sec) !! 0%nat = Some sig.
Proof.
unfold slice_wf, slice.elems. intros Hwf He.
assert (Hlen : slice.len (Sigs sec) = 1%nat).
{ apply (f_equal length) in He. rewrite length_take in He. cbn in He. lia. }
split; [done|]. rewrite Hlen in He.
destruct (slice.backing (Sigs sec)); cbn in *; congruence.
Qed.

Lemma validateSignatures_single_expired (sec : Sec) sig :
slice_wf (Sigs sec) → slice.elems (Sigs sec) = [sig] →
expired now sig = true →
∃ sec', validateSignatures now sec keys = Ok (false, sec')
        ∧ slice.elems (Sigs sec') = [].
Proof.
intros Hwf He Hexp.
destruct (single_signature_slice sec sig Hwf He) as [Hlen Hfirst].
unfold validateSignatures. rewrite Hlen. cbn.
rewrite Hfirst. unfold expired in Hexp. rewrite Hexp.
assert (Hdel : ∃ sl, slice.delete 0 (Sigs sec) = Ok sl ∧ slice.len sl = 0%nat).
{ unfold slice.delete. rewrite Hlen. cbn. eauto. }
destruct Hdel as (sl & Hdel & Hsl).
destruct (DeleteSig 0 sec) as [sec1|why] eqn:Hd.
- apply DeleteSig_Ok in Hd as (Hd & _ & _).
  rewrite Hdel in Hd. injection Hd as Hd. cbn. subst sl.
  exists sec1. rewrite bool_decide_eq_false_2 by lia. rewrite Hsl.
  split; [|by unfold slice.elems; rewrite Hsl].
  destruct (_ && _); reflexivity.
- apply DeleteSig_Panic in Hd. congruence.
Qed.

End single.

Section hull.
Context `{Env} {Sec : Type} `{LawfulSection Sec}.
Variables (now : Time) (keys : gmap KeyAlgorithmType PublicKey.t).

Lemma filter_delete_rejected {A} (P : A → Prop) `{∀ x, Decision (P x)}
  (l : list A) (i : nat) (x : A) :
l !! i = Some x → ¬ P x →
filter P (take i l ++ drop (S i) l) = filter P l.
Proof.
intros Hi Hx. rewrite <- (take_drop_middle l i x Hi) at 3.
rewrite !filter_app, filter_cons_False by done. done.
Qed.

(** The loop deletes nothing but signatures it found expired. *)
Lemma validateLoop_keeps_unexpired (bareStub : string) (indices : list nat) :
∀ (sec sec' : Sec) (ok : bool),
  slice_wf (Sigs sec) →
  validateLoop now bareStub keys indices sec = Ok (ok, sec') →
  slice_wf (Sigs sec')
  ∧ filter (fun sig => expired now sig = false) (slice.elems (Sigs sec'))
    = filter (fun sig => expired now sig = false) (slice.elems (Sigs sec)).
Proof.
induction indices as [|i indices IH]; intros sec sec' ok Hwf Hloop;
  cbn [validateLoop] in Hloop.
- injection Hloop as _ <-. done.
- destruct (slice.backing (Sigs sec) !! i) as [sig|] eqn:Hsig; [|done].
  destruct (Signature.ValidUntil sig <? Unix now) eqn:Hexp.
  + destruct (DeleteSig i sec) as [sec1|why] eqn:Hdel; [|done].
    cbn [mbind result_bind] in Hloop.
    apply DeleteSig_Ok in Hdel as (Hdel & _ & _).
    assert (Hi : (i < slice.len (Sigs sec))%nat).
    { unfold slice.delete in Hdel. case_bool_decide; [lia|done]. }
    destruct (delete_backing_length _ _ _ Hwf Hdel) as [Hl1 Hl2].
    assert (Hwf1 : slice_wf (Sigs sec1)).
    { unfold slice_wf in *. lia. }
    destruct (IH _ _ _ Hwf1 Hloop) as [Hwf' Hf]. split; [done|].
    rewrite Hf, (delete_elems _ _ _ Hwf Hdel).
    apply (filter_delete_rejected _ _ i sig).
    * unfold slice.elems. by rewrite lookup_take_lt.
    * unfold expired. by rewrite Hexp.
  + destruct (negb _); [by injection Hloop as _ <-|].
    destruct (IH _ _ _ ltac:(by rewrite Sigs_updateSectionValidity) Hloop)
      as [Hwf' Hf].
    split; [done|]. by rewrite Hf, Sigs_updateSectionValidity.
Qed.

Lemma validateSignatures_keeps_unexpired (sec sec' : Sec) (ok : bool) :
slice_wf (Sigs sec) →
validateSignatures now sec keys = Ok (ok, sec') →
filter (fun sig => expired now sig = false) (slice.elems (Sigs sec'))
= filter (fun sig => expired now sig = false) (slice.elems (Sigs sec)).
Proof.
intros Hwf. unfold validateSignatures.
case_bool_decide; [by intros [= _ <-]|].
destruct (validateLoop _ _ _ _ _) as [[completed sec1]|] eqn:Hloop; [|done].
apply validateLoop_keeps_unexpired in Hloop as [_ Hf]; [|done].
cbn [mbind result_bind].
destruct (negb completed); [by intros [= _ <-]|].
destruct (_ && _); by intros [= _ <-].
Qed.

(** *** The window after the loop *)






End hull.

Section validity.
Context `{Env}.

(** [validSignature] validates the signatures of the outer section
  first; what it then does to the content leaves the outer section's
  signatures and validity alone. *)
Lemma validSignature_outer now (sec : SectionWithSig) keys :
match sec with
| SAssertion a =>
    validSignature now sec keys
    = '(ok, a') ← validateSignatures now a keys; mret (ok, SAssertion a')
| SShard s =>
    match validateSignatures now s keys with
    | Ok (true, s1) =>
        ∀ ok sec', validSignature now sec keys = Ok (ok, sec') →
          ValidSince sec' = ValidSince s1 ∧ ValidUntil sec' = ValidUntil s1
          ∧ Sigs sec' = Sigs s1
    | Ok (false, s1) => validSignature now sec keys = Ok (false, SShard s1)
    | Panic why => validSignature now sec keys = Panic why
    end
| SZone z =>
    match validateSignatures now z keys with
    | Ok (true, z1) =>
        ∀ ok sec', validSignature now sec keys = Ok (ok, sec') →
          ValidSince sec' = ValidSince z1 ∧ ValidUntil sec' = ValidUntil z1
          ∧ Sigs sec' = Sigs z1
    | Ok (false, z1) => validSignature now sec keys = Ok (false, SZone z1)
    | Panic why => validSignature now sec keys = Panic why
    end
end.
Proof.
destruct sec as [a|s|z]; [reflexivity| |].
- unfold validSignature, validShardSignatures.
  destruct (validateSignatures now s keys) as [[[] s1]|]; cbn;
    [|reflexivity..].
  intros ok sec'.
  destruct (validateAssertions _ _ _) as [[ok' content]|]; cbn; [|done].
  intros [= <- <-]. done.
- unfold validSignature, validZoneSignatures.
  destruct (validateSignatures now z keys) as [[[] z1]|]; cbn;
    [|reflexivity..].
  intros ok sec'.
  destruct (validateZoneContent _ _ _) as [[ok' content]|]; cbn; [|done].
  intros [= <- <-]. done.
Qed.


End validity.



Section expiry.
Context `{Env} {Sec : Type} `{LawfulSection Sec}.

(** C7, as the code has it. The test is validUntil < now, so a signature
    whose validUntil equals now is not expired. Validation deletes no
    signature whose validUntil is now or later: whatever it answers, these
    signatures are all still on the section, in their order. In a section
    none of whose signatures has validUntil < now, nothing is deleted and
    every signature, also one with validUntil = now, is checked against
    its key. A section whose only signature has validUntil < now loses
    it, unverified, and fails validation. *)
Theorem signature_expiry_boundary (now : Time) (sec : Sec)
  (keys : gmap KeyAlgorithmType PublicKey.t) :
slice_wf (Sigs sec) →
(∀ ok sec', validateSignatures now sec keys = Ok (ok, sec') →
   filter (fun sig => Unix now ≤ Signature.ValidUntil sig)
     (slice.elems (Sigs sec'))
   = filter (fun sig => Unix now ≤ Signature.ValidUntil sig)
       (slice.elems (Sigs sec)))
∧ ((∀ sig, sig ∈ slice.elems (Sigs sec) →
           Unix now ≤ Signature.ValidUntil sig) →
   ∃ ok sec', validateSignatures now sec keys = Ok (ok, sec')
     ∧ Sigs sec' = Sigs sec
     ∧ (ok = true →
          ∀ sig, sig ∈ slice.elems (Sigs sec) →
                 verifies keys (bareStubOf (box sec)) sig = true)
     ∧ (∀ sig, sig ∈ slice.elems (Sigs sec) →
          verifies keys (bareStubOf (box sec)) sig = false → ok = false))
∧ (∀ sig, slice.elems (Sigs sec) = [sig] →
     Signature.ValidUntil sig < Unix now →
     ∃ sec', validateSignatures now sec keys = Ok (false, sec')
             ∧ slice.elems (Sigs sec') = []).
Proof.
intros Hwf. split; [|split].
- intros ok sec' Hval.
  assert (Hiff : ∀ sig, Unix now ≤ Signature.ValidUntil sig
                        ↔ expired now sig = false).
  { intros sig. unfold expired. by rewrite Z.ltb_ge. }
  rewrite !(list_filter_iff _ _ _ Hiff).
  by apply (validateSignatures_keeps_unexpired now keys sec sec' ok).
- intros Hall.
  destruct (validateSignatures_unexpired now keys sec) as (ok & sec' & Hv & Hs & Ht & Hf).
  { intros sig Hsig. unfold expired. apply Z.ltb_ge. by apply Hall. }
  { exact Hwf. }
  exists ok, sec'. repeat split; try done. intros Hok. by apply Ht.
- intros sig He Hexp.
  apply (validateSignatures_single_expired now keys sec sig Hwf He).
  unfold expired. by apply Z.ltb_lt.
Qed.
End expiry.

Lemma signature_expiry_boundary_witness :
  let s := examples.sig 0 1000 "good" in
  let a := examples.www [s; examples.sig 0 2000 "good"] in
  let keys : gmap KeyAlgorithmType PublicKey.t := {[ Ed25519 := examples.key ]} in
  Signature.ValidUntil s = Unix examples.now
  ∧ ∃ ok a', validateSignatures examples.now a keys = Ok (ok, a')
      ∧ Sigs a' = Sigs a
      ∧ (ok = true →
           ∀ sig, sig ∈ slice.elems (Sigs a) →
                  verifies keys (bareStubOf (box a)) sig = true)
      ∧ (∀ sig, sig ∈ slice.elems (Sigs a) →
           verifies keys (bareStubOf (box a)) sig = false → ok = false).
Proof.
  intros s a keys. split; [reflexivity|].
  refine (proj1 (proj2 (signature_expiry_boundary examples.now a keys _)) _).
  - vm_compute. lia.
  - intros sig Hsig.
    apply elem_of_cons in Hsig as [->|Hsig];
      [|apply list_elem_of_singleton in Hsig as ->]; vm_compute; discriminate.
Defined.

(** C7 as stated fails: a signature with validUntil = now is verified
    and the section is stored with it. *)
Lemma signature_valid_until_now_is_kept :
  let s := examples.sig 0 1000 "good" in
  let sec := SAssertion (examples.www [s]) in
  Signature.ValidUntil s = Unix examples.now
  ∧ ∃ w' stored auth,
      verify examples.now (examples.from_peer sec) examples.allKeys = Ok (tt, w')
      ∧ asserted w' = [(stored, auth)]
      ∧ slice.elems (Sigs (sectionWithSigSender.Section stored)) = [s].
Proof.
  intros s sec. split; [reflexivity|].
  eexists _, _, _. split; [vm_compute; reflexivity|].
  split; reflexivity.
Qed.

Section drop.
Context `{Env}.

Lemma validSignature_fails now (sec : SectionWithSig) keys k sig :
slice.elems (Sigs sec) !! k = Some sig →
(∀ j sj, (j < k)%nat → slice.elems (Sigs sec) !! j = Some sj →
         expired now sj = false) →
expired now sig = false →
verifies keys (bareStubOf sec) sig = false →
∃ sec', validSignature now sec keys = Ok (false, sec').
Proof.
intros Hk Hpre Hexp Hver.
pose proof (validSignature_outer now sec keys) as Hout.
destruct sec as [a|s|z].
- destruct (validateSignatures_fails now keys a k sig Hk Hpre Hexp Hver)
    as [a' Ha].
  rewrite Hout, Ha. cbn. eauto.
- destruct (validateSignatures_fails now keys s k sig Hk Hpre Hexp Hver)
    as [s' Hs].
  rewrite Hs in Hout. eauto.
- destruct (validateSignatures_fails now keys z k sig Hk Hpre Hexp Hver)
    as [z' Hz].
  rewrite Hz in Hout. eauto.
Qed.

(** On the path the slip of the loop does not touch, a failed check
    drops the section silently. When all needed keys are present and a
    signature that is not expired, and has no expired signature before
    it, fails verification, [verify] stores nothing, parks nothing and
    sends no query; the only notification it can send is the one for a
    structural inconsistency. *)
Theorem failed_verification_drops_silently (now : Time)
  (ms : msgSectionSender.t) (sec : SectionWithSig) (w : World)
  (keys : gmap KeyAlgorithmType PublicKey.t) (k : nat) (sig : Signature.t) :
msgSectionSender.Section ms = MWithSig sec →
keysPresent w sec keys →
slice.elems (Sigs sec) !! k = Some sig →
(∀ j sj, (j < k)%nat → slice.elems (Sigs sec) !! j = Some sj →
         Unix now ≤ Signature.ValidUntil sj) →
Unix now ≤ Signature.ValidUntil sig →
verifies keys (bareStubOf sec) sig = false →
verify now ms w
= Ok (tt, if structurallyConsistent sec then w
          else notifyInconsistent (sectionSenderOf ms sec) w).
Proof.
intros Hms Hkeys Hk Hpre Hexp Hver.
destruct (structurallyConsistent sec) eqn:Hcons.
- rewrite (verify_consistent now ms sec w Hms Hcons).
  destruct (zoneShardsConsistent sec); [|reflexivity].
  rewrite (verifySignatures_present now (sectionSenderOf ms sec) w keys Hkeys).
  cbn [sectionSenderOf sectionWithSigSender.Section].
  destruct (validSignature_fails now sec keys k sig) as [sec' ->]; auto.
  + intros j sj Hj Hsj. unfold expired. apply Z.ltb_ge. eauto.
  + unfold expired. by apply Z.ltb_ge.
- apply (verify_inconsistent now ms sec w Hms Hcons).
Qed.
End drop.

Lemma failed_verification_drops_silently_witness :
  let sec := SAssertion (examples.www [examples.sig 0 2000 "good";
                                       examples.sig 0 2000 "bad"]) in
  verify examples.now (examples.from_peer sec) examples.allKeys
  = Ok (tt, examples.allKeys).
Proof.
  intros sec.
  refine (failed_verification_drops_silently examples.now
            (examples.from_peer sec) sec examples.allKeys
            {[ Ed25519 := examples.key ]} 1 (examples.sig 0 2000 "bad")
            _ _ _ _ _ _).
  - reflexivity.
  - eexists. split; [vm_compute; reflexivity|]. split; vm_compute; reflexivity.
  - reflexivity.
  - intros [|[|j]] sj Hj Hsj; [|lia..]. injection Hsj as <-.
    vm_compute. discriminate.
  - vm_compute. discriminate.
  - vm_compute. reflexivity.
Defined.

Section skipped.
Context `{Env}.

Lemma validateLoop_expired_step {Sec} `{MessageSectionWithSig Sec}
  now bareStub keys (i : nat) rest (sec : Sec) sig :
slice.backing (Sigs sec) !! i = Some sig →
Signature.ValidUntil sig < Unix now →
validateLoop now bareStub keys (i :: rest) sec
= (sec1 ← DeleteSig i sec; validateLoop now bareStub keys rest sec1).
Proof.
intros Hsig Hexp. cbn [validateLoop]. rewrite Hsig.
by rewrite (proj2 (Z.ltb_lt _ _) Hexp).
Qed.

Lemma validateLoop_verified_step {Sec} `{MessageSectionWithSig Sec}
  now bareStub keys (i : nat) rest (sec : Sec) sig :
slice.backing (Sigs sec) !! i = Some sig →
Unix now ≤ Signature.ValidUntil sig →
verifies keys bareStub sig = true →
validateLoop now bareStub keys (i :: rest) sec
= validateLoop now bareStub keys rest
    (updateSectionValidity now sec
       (PublicKey.ValidSince
          (default PublicKey.zero (keys !! Signature.Algorithm sig)))
       (PublicKey.ValidUntil
          (default PublicKey.zero (keys !! Signature.Algorithm sig)))
       (Signature.ValidSince sig) (Signature.ValidUntil sig)).
Proof.
intros Hsig Hexp Hver. cbn [validateLoop]. rewrite Hsig.
rewrite (proj2 (Z.ltb_ge _ _) Hexp).
unfold verifies in Hver. by rewrite Hver.
Qed.

(** A window whose upper bound is not negative has a positive upper bound
    after an update with a positive one. *)
Lemma extendUntil_positive (d u stored : Z) :
0 < d → 0 < u → 0 ≤ stored → 0 < extendUntil d u stored.
Proof.
intros Hd Hu Hs. unfold extendUntil. rewrite Z.gtb_ltb.
destruct (Z.ltb_spec stored u); lia.
Qed.

(** Three signatures, the first one expired: the deletion moves the
    second signature to the slot the loop has left, so the loop goes on
    with the third one (twice) and never looks at the second. *)
Lemma validateSignatures_skips now keys (a : AssertionSection.t)
  (e x g : Signature.t) :
slice_wf (Sigs a) →
slice.elems (Sigs a) = [e; x; g] →
Signature.ValidUntil e < Unix now →
Unix now ≤ Signature.ValidUntil g →
verifies keys (bareStubOf (SAssertion a)) g = true →
0 ≤ ValidUntil a →
0 < intersectionUntil keys g →
0 < deadline now (SAssertion a) →
∃ a', validateSignatures now a keys = Ok (true, a')
      ∧ slice.elems (Sigs a') = [x; g].
Proof.
intros Hwf He Hexp Hg Hver Hu Hpos Hd.
cbn [Sigs AssertionSection_withSig] in *. unfold AssertionSection.Sigs in *.
destruct (AssertionSection.Signatures a) as [backing len] eqn:Hsigs.
unfold slice_wf, slice.elems in *. cbn [slice.len slice.backing] in *.
assert (Hlen : len = 3%nat).
{ apply (f_equal length) in He. rewrite length_take in He. cbn in He. lia. }
subst len.
destruct backing as [|b0 [|b1 [|b2 tail]]]; cbn in Hwf; try lia.
cbn in He. injection He as -> -> ->.
unfold validateSignatures.
cbn [Sigs AssertionSection_withSig]. unfold AssertionSection.Sigs.
rewrite Hsigs. cbn [slice.len]. rewrite bool_decide_eq_false_2 by done.
cbn [seq box AssertionSection_withSig].
set (stub := bareStubOf (SAssertion a)) in *.
rewrite (validateLoop_expired_step now stub keys 0 _ a e);
  [|cbn [Sigs AssertionSection_withSig]; unfold AssertionSection.Sigs;
    by rewrite Hsigs|done].
cbn [DeleteSig AssertionSection_withSig]. unfold AssertionSection.DeleteSig.
rewrite Hsigs. unfold slice.delete. cbn [slice.len slice.backing].
rewrite bool_decide_eq_true_2 by lia.
cbn [mbind result_bind mret result_ret take drop app Nat.sub Nat.add].
set (a1 := AssertionSection.set_Signatures _ a).
assert (Hs1 : Sigs a1 = slice.mk (x :: g :: g :: tail) 2) by reflexivity.
rewrite (validateLoop_verified_step now stub keys 1 _ a1 g);
  [|rewrite Hs1; reflexivity|done|done].
set (a2 := updateSectionValidity now a1 _ _ _ _).
assert (Hs2 : Sigs a2 = slice.mk (x :: g :: g :: tail) 2).
{ subst a2. by rewrite (Sigs_updateSectionValidity now). }
rewrite (validateLoop_verified_step now stub keys 2 _ a2 g);
  [|rewrite Hs2; reflexivity|done|done].
set (a3 := updateSectionValidity now a2 _ _ _ _).
assert (Hs3 : Sigs a3 = slice.mk (x :: g :: g :: tail) 2).
{ subst a3. by rewrite (Sigs_updateSectionValidity now). }
assert (Hu3 : 0 < ValidUntil a3).
{ subst a3. rewrite (updateSectionValidity_eq now), ValidUntil_UpdateValidity.
  apply extendUntil_positive; [exact Hd|exact Hpos|].
  subst a2. rewrite (updateSectionValidity_eq now), ValidUntil_UpdateValidity.
  apply Z.lt_le_incl.
  apply extendUntil_positive; [exact Hd|exact Hpos|exact Hu]. }
cbn [validateLoop mret result_ret mbind result_bind negb].
rewrite (bool_decide_eq_false_2 (ValidUntil a3 = 0)) by lia.
rewrite andb_false_r.
exists a3. pose proof Hs3 as Hs3'.
cbn [Sigs AssertionSection_withSig] in Hs3'.
unfold AssertionSection.Sigs in Hs3'.
rewrite ?Hs3, ?Hs3'. cbn [slice.len]. split; [|reflexivity].
by rewrite bool_decide_eq_true_2 by lia.
Qed.

(** C3 fails on the code by a slip of [validateSignatures], whose loop
    deletes from the slice it ranges over: after the deletion of an
    expired signature the next signature has moved into the slot the loop
    has left, and is never examined. An assertion with three signatures,
    the first one expired and the third one valid, is stored together
    with its second signature, whatever that one is: also when it is not
    expired and does not verify. *)
Theorem signature_after_expired_one_is_not_verified (now : Time)
  (ms : msgSectionSender.t) (a : AssertionSection.t) (w : World)
  (keys : gmap KeyAlgorithmType PublicKey.t) (e x g : Signature.t) :
msgSectionSender.Section ms = MWithSig (SAssertion a) →
keysPresent w (SAssertion a) keys →
slice_wf (Sigs a) →
slice.elems (Sigs a) = [e; x; g] →
Signature.ValidUntil e < Unix now →
Unix now ≤ Signature.ValidUntil g →
verifies keys (bareStubOf (SAssertion a)) g = true →
0 ≤ ValidUntil a →
0 < intersectionUntil keys g →
0 < deadline now (SAssertion a) →
∃ w' stored auth,
  verify now ms w = Ok (tt, w')
  ∧ asserted w' = asserted w ++ [(stored, auth)]
  ∧ slice.elems (Sigs (sectionWithSigSender.Section stored)) = [x; g].
Proof.
intros Hms Hkeys Hwf He Hexp Hg Hver Hu Hpos Hd.
destruct (validateSignatures_skips now keys a e x g) as (a' & Hval & Hsigs);
  try done.
rewrite (verify_consistent now ms (SAssertion a) w Hms eq_refl).
cbn [zoneShardsConsistent].
rewrite (verifySignatures_present now (sectionSenderOf ms (SAssertion a)) w
           keys Hkeys).
cbn [sectionSenderOf sectionWithSigSender.Section validSignature].
rewrite Hval. cbn [mbind result_bind mret result_ret].
eexists _, _, _. split; [reflexivity|]. split; [reflexivity|]. exact Hsigs.
Qed.
End skipped.

Lemma signature_after_expired_one_is_not_verified_witness :
  let bad := examples.sig 0 2000 "bad" in
  let good := examples.sig 0 2000 "good" in
  let sec := SAssertion (examples.www [examples.sig 0 10 "good"; bad; good]) in
  let keys : gmap KeyAlgorithmType PublicKey.t := {[ Ed25519 := examples.key ]} in
  (expired examples.now bad = false
   ∧ verifies keys (bareStubOf sec) bad = false)
  ∧ ∃ w' stored auth,
      verify examples.now (examples.from_peer sec) examples.allKeys = Ok (tt, w')
      ∧ asserted w' = [(stored, auth)]
      ∧ slice.elems (Sigs (sectionWithSigSender.Section stored)) = [bad; good].
Proof.
  intros bad good sec keys. split; [split; vm_compute; reflexivity|].
  refine (signature_after_expired_one_is_not_verified examples.now
            (examples.from_peer sec) _ examples.allKeys keys
            (examples.sig 0 10 "good") bad good _ _ _ _ _ _ _ _ _ _).
  - reflexivity.
  - eexists. split; [vm_compute; reflexivity|]. split; vm_compute; reflexivity.
  - vm_compute. lia.
  - reflexivity.
  - vm_compute. reflexivity.
  - vm_compute. discriminate.
  - vm_compute. reflexivity.
  - vm_compute. discriminate.
  - vm_compute. reflexivity.
  - vm_compute. reflexivity.
Defined.

(** Two expired signatures, the second one last: the second deletion
    slices beyond the shortened list and the verifier panics. *)
Example two_expired_signatures_panic :
  let sec := SAssertion (examples.www [examples.sig 0 10 "good";
                                       examples.sig 0 20 "good"]) in
  verify examples.now (examples.from_peer sec) examples.allKeys
  = Panic "slice bounds out of range".
Proof. vm_compute. reflexivity. Qed.

Section consistency.
Context `{Env}.

(** C2. For a section handed to [verify]: it reaches the assertion
    store only if every contained assertion has the context and subject
    zone of the outer section and, inside a shard, a subject name within
    [rangeFrom, rangeTo] (an empty bound does not constrain); and when
    that fails, exactly one RcvInconsistentMsg notification goes to the
    sender and nothing is stored, parked or queried. *)
Theorem inconsistent_section_is_reported_and_dropped (now : Time)
  (ms : msgSectionSender.t) (sec : SectionWithSig) (w : World) :
msgSectionSender.Section ms = MWithSig sec →
(∀ w', verify now ms w = Ok (tt, w') → asserted w' ≠ asserted w →
       containedAssertionsConsistent sec)
∧ (¬ containedAssertionsConsistent sec →
   ∃ w', verify now ms w = Ok (tt, w')
         ∧ notifications w'
           = notifications w
               ++ [(msgSectionSender.Token ms, msgSectionSender.Sender ms,
                    RcvInconsistentMsg)]
         ∧ asserted w' = asserted w
         ∧ pendingSignatures w' = pendingSignatures w
         ∧ sentQueries w' = sentQueries w).
Proof.
intros Hms. split.
- intros w' Hv Hneq. apply structurallyConsistent_contained.
  destruct (structurallyConsistent sec) eqn:Hcons; [done|].
  rewrite (verify_inconsistent now ms sec w Hms Hcons) in Hv.
  injection Hv as <-. done.
- intros Hnot.
  assert (Hcons : structurallyConsistent sec = false).
  { destruct (structurallyConsistent sec) eqn:Hcons; [|done].
    destruct Hnot. by apply structurallyConsistent_contained. }
  eexists. split; [apply (verify_inconsistent now ms sec w Hms Hcons)|].
  done.
Qed.
End consistency.

Lemma inconsistent_section_is_reported_and_dropped_witness :
  let a := examples.assertion "z" "ch" [examples.ip4] [examples.sig 0 2000 "good"] in
  let sec := SShard (examples.shard "a" "m" [a] [examples.sig 0 2000 "good"]) in
  ∃ w', verify examples.now (examples.from_peer sec) examples.allKeys = Ok (tt, w')
        ∧ notifications w' = [(7%N, "peer"%string, RcvInconsistentMsg)]
        ∧ asserted w' = []
        ∧ pendingSignatures w' = ∅
        ∧ sentQueries w' = [].
Proof.
  intros a sec.
  refine (proj2 (inconsistent_section_is_reported_and_dropped examples.now
                   (examples.from_peer sec) sec examples.allKeys eq_refl) _).
  intros Hc. destruct (Hc a) as (_ & _ & Hr); [left|].
  vm_compute in Hr. discriminate.
Defined.

Section parked.
Context `{Env}.

Lemma foldr_max_init (v x : Z) (l : list Z) :
foldr Z.max (Z.max v x) l = Z.max x (foldr Z.max v l).
Proof. induction l as [|y l IH]; cbn; lia. Qed.

Lemma getQueryValidity_eq (now : Time) (sigs : slice.t Signature.t) :
getQueryValidity now sigs
= Z.min (foldr Z.max 0 (Signature.ValidUntil <$> slice.elems sigs))
    (Unix (Add now (DelegationQueryValidity Config))).
Proof.
unfold getQueryValidity.
assert (Hfold : ∀ l v,
  foldl (fun validity sig =>
           if Signature.ValidUntil sig >? validity
           then Signature.ValidUntil sig else validity) v l
  = foldr Z.max v (Signature.ValidUntil <$> l)).
{ induction l as [|sig l IH]; intros v; cbn; [done|].
  rewrite IH, Z.gtb_ltb.
  destruct (Z.ltb_spec v (Signature.ValidUntil sig)).
  - replace (Signature.ValidUntil sig)
      with (Z.max v (Signature.ValidUntil sig)) at 1 by lia.
    apply foldr_max_init.
  - replace v with (Z.max v (Signature.ValidUntil sig)) at 1 by lia.
    apply foldr_max_init. }
rewrite Hfold, Z.gtb_ltb.
destruct (Z.ltb_spec (Unix (Add now (DelegationQueryValidity Config)))
            (foldr Z.max 0 (Signature.ValidUntil <$> slice.elems sigs))); lia.
Qed.

(** What [verifySignatures] parks when a key is missing: the entry has
    validUntil = min (max (0, the signatures' validUntil values),
    now + DelegationQueryValidity), and a delegation query it sends
    carries the same value. *)
Theorem parked_section_validity (now : Time) (ss : sectionWithSigSender.t)
  (w : World) :
keysMissing w (sectionWithSigSender.Section ss) →
let sec := sectionWithSigSender.Section ss in
let validity :=
  Z.min (foldr Z.max 0 (Signature.ValidUntil <$> slice.elems (Sigs sec)))
    (Unix (Add now (DelegationQueryValidity Config))) in
∃ w', verifySignatures now ss w = Ok (false, ss, w')
  ∧ pendingSignatureCache.bucket (GetContext sec) (GetSubjectZone sec)
      (pendingSignatures w')
    = pendingSignatureCache.bucket (GetContext sec) (GetSubjectZone sec)
        (pendingSignatures w)
      ++ [{| sectionWSSender := ss; validUntil := validity |}]
  ∧ (sentQueries w' = sentQueries w
     ∨ ∃ q, sentQueries w' = sentQueries w ++ [q]
            ∧ qContext q = GetContext sec ∧ qZone q = GetSubjectZone sec
            ∧ qType q = OTDelegation ∧ qExpires q = validity).
Proof.
intros Hmiss sec validity. subst sec validity.
exists (park now ss w). split; [by apply verifySignatures_missing|].
unfold park, pendingSignatureCache.Add, delegationQueryFor. cbn [fst snd].
rewrite !getQueryValidity_eq.
case_bool_decide as Hb; cbn.
- split.
  + unfold pendingSignatureCache.bucket at 1. rewrite lookup_insert_eq. done.
  + right. eexists. split; [reflexivity|]. done.
- split; [|by left].
  unfold pendingSignatureCache.bucket at 1. rewrite lookup_insert_eq. done.
Qed.

Lemma foldr_max_negative (l : list Z) :
Forall (fun v => v < 0) l → foldr Z.max 0 l = 0.
Proof. induction 1 as [|v l Hv _ IH]; cbn; lia. Qed.

(** C5 fails on the code by a slip of [getQueryValidity], which starts
    the maximum at 0 and not at a signature: when every signature of the
    section has a negative validUntil, the parked entry and the delegation
    query carry 0, while the minimum of any signature's validUntil and
    now + DelegationQueryValidity is negative. *)
Theorem negative_validity_is_parked_as_zero (now : Time)
  (ss : sectionWithSigSender.t) (w : World) :
let sec := sectionWithSigSender.Section ss in
let upperBound := Unix (Add now (DelegationQueryValidity Config)) in
keysMissing w sec →
Forall (fun sig => Signature.ValidUntil sig < 0) (slice.elems (Sigs sec)) →
0 ≤ upperBound →
∃ w', verifySignatures now ss w = Ok (false, ss, w')
  ∧ pendingSignatureCache.bucket (GetContext sec) (GetSubjectZone sec)
      (pendingSignatures w')
    = pendingSignatureCache.bucket (GetContext sec) (GetSubjectZone sec)
        (pendingSignatures w)
      ++ [{| sectionWSSender := ss; validUntil := 0 |}]
  ∧ (sentQueries w' = sentQueries w
     ∨ ∃ q, sentQueries w' = sentQueries w ++ [q]
            ∧ qContext q = GetContext sec ∧ qZone q = GetSubjectZone sec
            ∧ qType q = OTDelegation ∧ qExpires q = 0)
  ∧ ∀ sig, sig ∈ slice.elems (Sigs sec) →
      Z.min (Signature.ValidUntil sig) upperBound < 0.
Proof.
intros sec upperBound Hmiss Hneg Hub.
destruct (parked_section_validity now ss w Hmiss) as (w' & Hv & Hb & Hq).
fold sec in Hb, Hq.
assert (Hzero :
  Z.min (foldr Z.max 0 (Signature.ValidUntil <$> slice.elems (Sigs sec)))
    (Unix (Add now (DelegationQueryValidity Config))) = 0).
{ rewrite foldr_max_negative; [fold upperBound; lia|].
  by apply Forall_fmap. }
rewrite Hzero in Hb, Hq.
exists w'. split; [done|]. split; [done|]. split; [done|].
intros sig Hsig. apply (proj1 (Forall_forall _ _) Hneg) in Hsig. lia.
Qed.
End parked.

Lemma parked_section_validity_witness :
  let ss := sectionSenderOf
              (examples.from_peer (SAssertion (examples.www [examples.sig 0 2000 "good"])))
              (SAssertion (examples.www [examples.sig 0 2000 "good"])) in
  ∃ w', verifySignatures examples.now ss examples.noKeys = Ok (false, ss, w')
    ∧ pendingSignatureCache.bucket "." "ch" (pendingSignatures w')
      = [{| sectionWSSender := ss; validUntil := 1005 |}]
    ∧ (sentQueries w' = []
       ∨ ∃ q, sentQueries w' = [q]
              ∧ qContext q = "."%string ∧ qZone q = "ch"%string
              ∧ qType q = OTDelegation ∧ qExpires q = 1005).
Proof.
  intros ss.
  refine (parked_section_validity examples.now ss examples.noKeys _).
  eexists. split; vm_compute; reflexivity.
Defined.

Lemma negative_validity_is_parked_as_zero_witness :
  let s := examples.sig 0 (-5) "good" in
  let sec := SAssertion (examples.www [s]) in
  let ss := sectionSenderOf (examples.from_peer sec) sec in
  ∃ w', verifySignatures examples.now ss examples.noKeys = Ok (false, ss, w')
    ∧ pendingSignatureCache.bucket "." "ch" (pendingSignatures w')
      = [{| sectionWSSender := ss; validUntil := 0 |}]
    ∧ (sentQueries w' = []
       ∨ ∃ q, sentQueries w' = [q]
              ∧ qContext q = "."%string ∧ qZone q = "ch"%string
              ∧ qType q = OTDelegation ∧ qExpires q = 0)
    ∧ ∀ sig, sig ∈ [s] →
        Z.min (Signature.ValidUntil sig)
          (Unix (Add examples.now (DelegationQueryValidity Config))) < 0.
Proof.
  intros s sec ss.
  refine (negative_validity_is_parked_as_zero examples.now ss examples.noKeys
            _ _ _).
  - eexists. split; vm_compute; reflexivity.
  - repeat constructor.
  - vm_compute. discriminate.
Defined.

Section inventory.
Context `{Env}.

Lemma analyse_all_delegations (content : list Object) (seen : bool) :
Forall (fun o => OType o = OTDelegation) content →
foldl (fun '(containsDelegation, allElementsDelegations) o =>
         if decide (OType o = OTDelegation)
         then (true, allElementsDelegations)
         else (containsDelegation, false))
      (seen, true) content
= (seen || bool_decide (content ≠ []), true).
Proof.
intros Hall. revert seen.
induction Hall as [|o content Ho _ IH]; intros seen; cbn.
- by rewrite orb_false_r.
- rewrite decide_True by done. rewrite IH. cbn. by rewrite orb_true_r.
Qed.

Lemma extractNeededKey_all_delegations (a : AssertionSection.t)
  (keys : gset keyCacheKey) (sig : Signature.t) :
Forall (fun o => OType o = OTDelegation) (AssertionSection.Content a) →
extractNeededKey a true keys sig
= Ok (if decide (Signature.KeySpace sig = RainsKeySpace) then
        if bool_decide (AssertionSection.Content a = []) then keys
        else {[ {| context := AssertionSection.Context a;
                   zone := AssertionSection.SubjectName a;
                   keyAlgo := Signature.Algorithm sig |} ]} ∪ keys
      else keys).
Proof.
intros Hall. unfold extractNeededKey.
case_bool_decide as Hks.
{ by rewrite decide_False. }
rewrite decide_True by (by destruct (decide (Signature.KeySpace sig = RainsKeySpace))).
cbn [box AssertionSection_withSig]. unfold analyseAssertionContent.
rewrite (analyse_all_delegations _ false Hall). cbn [orb].
destruct (AssertionSection.Content a) eqn:Hc; reflexivity.
Qed.

(** C4, as the code has it. For an assertion all of whose objects are
    delegations, the needed keys are the identifiers (context,
    subjectName, algorithm) of its signatures in the rains key space, and
    none when the assertion has no object; the identifier of the parent
    zone (context, subjectZone, algorithm) is among them only when the
    subject name equals the subject zone. *)
Theorem delegation_assertion_needs_subject_name_key (a : AssertionSection.t) :
Forall (fun o => OType o = OTDelegation) (AssertionSection.Content a) →
neededKeys (SAssertion a)
= Ok (if bool_decide (AssertionSection.Content a = []) then ∅
      else subjectNameKeys a)
∧ ∀ nk algorithm,
    neededKeys (SAssertion a) = Ok nk →
    {| context := AssertionSection.Context a;
       zone := AssertionSection.SubjectZone a;
       keyAlgo := algorithm |} ∈ nk →
    AssertionSection.SubjectName a = AssertionSection.SubjectZone a.
Proof.
intros Hall.
assert (Heq : neededKeys (SAssertion a)
              = Ok (if bool_decide (AssertionSection.Content a = []) then ∅
                    else subjectNameKeys a)).
{ cbn [neededKeys]. unfold extractNeededKeys, subjectNameKeys.
  change (Sigs a) with (AssertionSection.Signatures a).
  generalize (slice.elems (AssertionSection.Signatures a)). intros sigs.
  assert (Hstep : ∀ keys,
    foldlM (extractNeededKey a true) keys sigs
    = Ok (if bool_decide (AssertionSection.Content a = []) then keys
          else keys ∪ list_to_set
                 ((fun sig => {| context := AssertionSection.Context a;
                                 zone := AssertionSection.SubjectName a;
                                 keyAlgo := Signature.Algorithm sig |})
                  <$> filter (fun sig => Signature.KeySpace sig = RainsKeySpace)
                        sigs))).
  { induction sigs as [|sig sigs IH]; intros keys; cbn [foldlM].
    - case_bool_decide; [done|]. cbn. f_equal. set_solver.
    - rewrite (extractNeededKey_all_delegations a keys sig Hall).
      cbn [mbind result_bind]. rewrite IH. rewrite filter_cons.
      destruct (decide (Signature.KeySpace sig = RainsKeySpace)); [|done].
      case_bool_decide; [done|]. f_equal.
      cbn [fmap list_fmap list_to_set foldr]. set_solver. }
  rewrite Hstep. case_bool_decide; [done|]. f_equal. set_solver. }
split; [exact Heq|].
intros nk algorithm Hnk Hin. rewrite Heq in Hnk. injection Hnk as <-.
case_bool_decide; [by apply elem_of_empty in Hin|].
unfold subjectNameKeys in Hin.
apply elem_of_list_to_set, list_elem_of_fmap in Hin as (sig & Hk & _).
by injection Hk.
Qed.
End inventory.

Lemma delegation_assertion_needs_subject_name_key_witness :
  let a := examples.assertion "ch" "." [examples.deleg]
             [examples.sig 0 2000 "good"] in
  neededKeys (SAssertion a) = Ok (subjectNameKeys a)
  ∧ ∀ nk algorithm,
      neededKeys (SAssertion a) = Ok nk →
      {| context := "."; zone := "."; keyAlgo := algorithm |} ∈ nk →
      "ch"%string = "."%string.
Proof.
  intros a.
  refine (delegation_assertion_needs_subject_name_key a _).
  repeat constructor.
Defined.

(** C4 as stated fails: for the delegation of ch in the root zone, the
    key of the parent zone (context, subjectZone, algorithm) is not among
    the needed keys. *)
Lemma delegation_assertion_does_not_need_parent_zone_key :
  let a := examples.assertion "ch" "." [examples.deleg]
             [examples.sig 0 2000 "good"] in
  let keys : gset keyCacheKey :=
    {[ {| context := "."; zone := "ch"; keyAlgo := Ed25519 |} ]} in
  neededKeys (SAssertion a) = Ok keys
  ∧ {| context := AssertionSection.Context a;
       zone := AssertionSection.SubjectZone a;
       keyAlgo := Ed25519 |} ∉ keys.
Proof.
  intros a keys. split; [vm_compute; reflexivity|].
  intros Hin. apply elem_of_singleton in Hin. discriminate.
Qed.

Section one_query.
Context `{Env}.

Lemma emitted_same w w' : sentQueries w' = sentQueries w → emitted w w' = [].
Proof. intros Heq. unfold emitted. rewrite Heq, drop_all. done. Qed.

Lemma emitted_park now ss w :
emitted w (park now ss w)
= if bool_decide (pendingSignatureCache.bucket
                    (GetContext (sectionWithSigSender.Section ss))
                    (GetSubjectZone (sectionWithSigSender.Section ss))
                    (pendingSignatures w) = [])
  then [targetOf (sectionWithSigSender.Section ss)] else [].
Proof.
unfold emitted, park, pendingSignatureCache.Add. cbn [fst snd].
case_bool_decide; cbn.
- rewrite drop_app_length. reflexivity.
- rewrite drop_all. reflexivity.
Qed.

Lemma stillPending_park now ss w cz :
stillPending w cz = true → stillPending (park now ss w) cz = true.
Proof.
unfold stillPending, park, pendingSignatureCache.Add. cbn [fst snd].
intros Hp. apply bool_decide_eq_true in Hp. apply bool_decide_eq_true.
assert (Hb : pendingSignatureCache.bucket (Context cz) (Zone cz)
          (<[{| Context := GetContext (sectionWithSigSender.Section ss);
                Zone := GetSubjectZone (sectionWithSigSender.Section ss) |}
             := pendingSignatureCache.bucket
                  (GetContext (sectionWithSigSender.Section ss))
                  (GetSubjectZone (sectionWithSigSender.Section ss))
                  (pendingSignatures w)
                ++ [{| sectionWSSender := ss;
                       validUntil := getQueryValidity now
                         (Sigs (sectionWithSigSender.Section ss)) |}]]>
             (pendingSignatures w)) ≠ []).
{ unfold pendingSignatureCache.bucket at 1.
  destruct (decide ({| Context := GetContext (sectionWithSigSender.Section ss);
                       Zone := GetSubjectZone (sectionWithSigSender.Section ss) |}
                    = {| Context := Context cz; Zone := Zone cz |})) as [->|Hne].
  - rewrite lookup_insert_eq. cbn. intros Hnil.
    by apply app_eq_nil in Hnil as [_ ?].
  - rewrite lookup_insert_ne by done. exact Hp. }
case_bool_decide; exact Hb.
Qed.

(** What [verify] can do to the pending store and the queries sent. *)
Lemma verify_pending now ms w w' :
verify now ms w = Ok (tt, w') →
(pendingSignatures w' = pendingSignatures w
 ∧ sentQueries w' = sentQueries w)
∨ ∃ ss, w' = park now ss w.
Proof.
intros Hv.
destruct (msgSectionSender.Section ms) as [sec|q|] eqn:Hms.
- destruct (structurallyConsistent sec) eqn:Hcons.
  + rewrite (verify_consistent now ms sec w Hms Hcons) in Hv.
    destruct (zoneShardsConsistent sec); [|injection Hv as <-; by left].
    destruct (keys_present_or_missing w sec) as [[keys Hkeys]|Hmiss].
    * rewrite (verifySignatures_present now (sectionSenderOf ms sec) w keys Hkeys)
        in Hv.
      destruct (validSignature now _ keys) as [[[] sec']|]; [| |done].
      -- injection Hv as <-. by left.
      -- injection Hv as <-. by left.
    * rewrite (verifySignatures_missing now (sectionSenderOf ms sec) w Hmiss)
        in Hv.
      injection Hv as <-. right. eauto.
  + rewrite (verify_inconsistent now ms sec w Hms Hcons) in Hv.
    injection Hv as <-. by left.
- unfold verify in Hv. rewrite Hms in Hv.
  destruct (validQuery _ _ _); injection Hv as <-; by left.
- unfold verify in Hv. rewrite Hms in Hv. injection Hv as <-. by left.
Qed.

Lemma verifySignatures_queries now ss w b ss' w' :
verifySignatures now ss w = Ok (b, ss', w') →
let sec := sectionWithSigSender.Section ss in
(emitted w w' = [targetOf sec]
 ∧ keysMissing w sec
 ∧ pendingSignatureCache.bucket (GetContext sec) (GetSubjectZone sec)
     (pendingSignatures w) = [])
∨ (emitted w w' = []
   ∧ ¬ (keysMissing w sec
        ∧ pendingSignatureCache.bucket (GetContext sec) (GetSubjectZone sec)
            (pendingSignatures w) = [])).
Proof.
intros Hv sec. subst sec.
destruct (keys_present_or_missing w (sectionWithSigSender.Section ss))
  as [[keys Hkeys]|Hmiss].
- rewrite (verifySignatures_present now ss w keys Hkeys) in Hv.
  destruct (validSignature now _ keys) as [[valid sec']|]; [|done].
  injection Hv as <- <- <-. right. split; [by apply emitted_same|].
  intros [(nk & Hnk & Hfalse) _]. destruct Hkeys as (nk' & Hnk' & _ & Htrue).
  congruence.
- rewrite (verifySignatures_missing now ss w Hmiss) in Hv.
  injection Hv as <- <- <-. rewrite emitted_park.
  case_bool_decide; [left|right]; split; try done. by intros [_ ?].
Qed.

Lemma step_outstanding w w' :
step w w' →
emitted w w' = []
∨ ∃ cz, emitted w w' = [cz] ∧ stillPending w cz = false.
Proof.
destruct 1 as [now ms w w' Hv| | |].
- destruct (verify_pending now ms w w' Hv) as [[_ Hq]|[ss ->]].
  + left. by apply emitted_same.
  + rewrite emitted_park. case_bool_decide as Hb; [|by left].
    right. eexists. split; [done|].
    unfold stillPending, targetOf. cbn [Context Zone].
    rewrite Hb. apply bool_decide_eq_false. auto.
- left. by apply emitted_same.
- left. by apply emitted_same.
- left. by apply emitted_same.
Qed.

(** C6. In every reachable state the delegation queries outstanding
    (sent since the bucket of their target was last empty) have pairwise
    different targets, each with a non-empty bucket; and
    [verifySignatures] sends a delegation query, for the section's
    (context, subjectZone), exactly when a key is missing and the bucket
    of that target is empty. *)
Theorem one_delegation_query_per_context_and_zone (w : World)
  (outstanding : list contextAndZone) :
reachable w outstanding →
NoDup outstanding
∧ (∀ cz, cz ∈ outstanding → stillPending w cz = true)
∧ ∀ now ss b ss' w',
    verifySignatures now ss w = Ok (b, ss', w') →
    let sec := sectionWithSigSender.Section ss in
    (emitted w w' = [targetOf sec]
     ∧ keysMissing w sec
     ∧ pendingSignatureCache.bucket (GetContext sec) (GetSubjectZone sec)
         (pendingSignatures w) = [])
    ∨ (emitted w w' = []
       ∧ ¬ (keysMissing w sec
            ∧ pendingSignatureCache.bucket (GetContext sec)
                (GetSubjectZone sec) (pendingSignatures w) = [])).
Proof.
intros Hreach.
split; [|split; [|intros; by eapply verifySignatures_queries]].
- induction Hreach as [w _|w outstanding w' Hreach IH Hstep];
    [by apply NoDup_nil|].
  apply NoDup_filter.
  destruct (step_outstanding w w' Hstep) as [->|(cz & -> & Hcz)].
  + by rewrite app_nil_r.
  + apply NoDup_app. split; [done|]. split; [|apply NoDup_singleton].
    intros x Hx Hx'. apply list_elem_of_singleton in Hx' as ->.
    assert (Hp : stillPending w cz = true); [|congruence].
    clear IH Hstep Hcz.
    destruct Hreach as [w _|w0 o w1 _ _]; [by apply elem_of_nil in Hx|].
    by apply list_elem_of_filter in Hx as [? _].
- destruct Hreach as [w _|w0 o w1 _ _]; intros cz Hcz;
    [by apply elem_of_nil in Hcz|].
  by apply list_elem_of_filter in Hcz as [? _].
Qed.
End one_query.

Lemma one_delegation_query_per_context_and_zone_witness :
  let sec := SAssertion (examples.www [examples.sig 0 2000 "good"]) in
  let ss := sectionSenderOf (examples.from_peer sec) sec in
  let w := park examples.now ss examples.noKeys in
  NoDup [targetOf sec]
  ∧ (∀ cz, cz ∈ [targetOf sec] → stillPending w cz = true)
  ∧ ∀ now ss0 b ss' w',
      verifySignatures now ss0 w = Ok (b, ss', w') →
      let sec0 := sectionWithSigSender.Section ss0 in
      (emitted w w' = [targetOf sec0]
       ∧ keysMissing w sec0
       ∧ pendingSignatureCache.bucket (GetContext sec0) (GetSubjectZone sec0)
           (pendingSignatures w) = [])
      ∨ (emitted w w' = []
         ∧ ¬ (keysMissing w sec0
              ∧ pendingSignatureCache.bucket (GetContext sec0)
                  (GetSubjectZone sec0) (pendingSignatures w) = [])).
Proof.
  intros sec ss w.
  assert (Hout : filter (fun cz => stillPending w cz = true)
                   ([] ++ emitted examples.noKeys w) = [targetOf sec])
    by (vm_compute; reflexivity).
  rewrite <- Hout.
  apply (one_delegation_query_per_context_and_zone w).
  apply (reachable_step examples.noKeys []).
  - apply reachable_init. reflexivity.
  - apply (step_verify examples.now (examples.from_peer sec)).
    vm_compute. reflexivity.
Defined.

Section keys.
Context `{Env}.

Lemma analyseAssertionContent_eq (a : AssertionSection.t) :
analyseAssertionContent a = (containsDelegation a, allDelegations a).
Proof.
unfold analyseAssertionContent, containsDelegation, allDelegations.
assert (Hgen : ∀ content c d,
  foldl (fun '(containsDelegation, allElementsDelegations) o =>
           if decide (OType o = OTDelegation)
           then (true, allElementsDelegations)
           else (containsDelegation, false))
        (c, d) content
  = (c || existsb (fun o => bool_decide (OType o = OTDelegation)) content,
     d && forallb (fun o => bool_decide (OType o = OTDelegation)) content)).
{ induction content as [|o content IH]; intros c d; cbn.
  - by rewrite orb_false_r, andb_true_r.
  - destruct (decide (OType o = OTDelegation)) as [Ho|Ho]; rewrite IH.
    + rewrite bool_decide_eq_true_2 by done. cbn.
      by rewrite orb_true_r.
    + rewrite bool_decide_eq_false_2 by done. cbn.
      by rewrite andb_false_r. }
apply Hgen.
Qed.

Lemma extractNeededKey_of_assertion (a : AssertionSection.t)
  (keys : gset keyCacheKey) (sig : Signature.t) :
extractNeededKey a true keys sig
= Ok (if decide (Signature.KeySpace sig = RainsKeySpace) then
        (if containsDelegation a then
           {[ {| context := AssertionSection.Context a;
                 zone := AssertionSection.SubjectName a;
                 keyAlgo := Signature.Algorithm sig |} ]}
         else ∅)
        ∪ (if allDelegations a then ∅ else
             {[ {| context := AssertionSection.Context a;
                   zone := AssertionSection.SubjectZone a;
                   keyAlgo := Signature.Algorithm sig |} ]})
        ∪ keys
      else keys).
Proof.
unfold extractNeededKey. cbn [box AssertionSection_withSig].
rewrite analyseAssertionContent_eq.
case_bool_decide as Hks.
{ by rewrite decide_False. }
rewrite decide_True
  by (by destruct (decide (Signature.KeySpace sig = RainsKeySpace))).
cbn [GetContext GetSubjectZone AssertionSection_withSig].
unfold AssertionSection.GetContext, AssertionSection.GetSubjectZone.
destruct (containsDelegation a), (allDelegations a);
  cbn [mret result_ret]; f_equal; set_solver.
Qed.

(** X1. The keys an assertion needs: the key of its subject name when it
  contains a delegation, and the key of its zone unless all its objects
  are delegations, for each signature in the rains key space. *)
Theorem neededKeys_of_assertion (a : AssertionSection.t) :
neededKeys (SAssertion a)
= Ok ((if containsDelegation a then subjectNameKeys a else ∅)
      ∪ (if allDelegations a then ∅ else subjectZoneKeys a)).
Proof.
cbn [neededKeys]. unfold extractNeededKeys, subjectNameKeys, subjectZoneKeys.
change (Sigs a) with (AssertionSection.Signatures a).
generalize (slice.elems (AssertionSection.Signatures a)). intros sigs.
assert (Hstep : ∀ keys,
  foldlM (extractNeededKey a true) keys sigs
  = Ok (keys
        ∪ (if containsDelegation a then
             list_to_set
               ((fun sig => {| context := AssertionSection.Context a;
                               zone := AssertionSection.SubjectName a;
                               keyAlgo := Signature.Algorithm sig |})
                <$> filter (fun sig => Signature.KeySpace sig = RainsKeySpace)
                      sigs)
           else ∅)
        ∪ (if allDelegations a then ∅ else
             list_to_set
               ((fun sig => {| context := AssertionSection.Context a;
                               zone := AssertionSection.SubjectZone a;
                               keyAlgo := Signature.Algorithm sig |})
                <$> filter (fun sig => Signature.KeySpace sig = RainsKeySpace)
                      sigs)))).
{ induction sigs as [|sig sigs IH]; intros keys; cbn [foldlM].
  - cbn. f_equal. destruct (containsDelegation a), (allDelegations a);
      set_solver.
  - rewrite extractNeededKey_of_assertion.
    cbn [mbind result_bind]. rewrite IH. rewrite filter_cons. f_equal.
    destruct (decide (Signature.KeySpace sig = RainsKeySpace));
      destruct (containsDelegation a), (allDelegations a);
      cbn [fmap list_fmap list_to_set foldr]; set_solver. }
rewrite Hstep. f_equal.
destruct (containsDelegation a), (allDelegations a); set_solver.
Qed.

(** X2. [neededKeys] never panics: the type assertion to an assertion in
  [extractNeededKeys] is reached for assertions only. *)
Theorem neededKeys_never_panics (sec : SectionWithSig) :
∃ keys, neededKeys sec = Ok keys.
Proof. exact (neededKeys_ok sec). Qed.

Lemma publicKeysPresent_fold cache (l : list keyCacheKey)
  (keys0 : gmap KeyAlgorithmType PublicKey.t) (missing0 : gset keyCacheKey) :
let '(keys, missing) :=
  foldl (fun '(keys, missingKeys) keyID =>
           match cache keyID with
           | Some key => (<[keyAlgo keyID := key]> keys, missingKeys)
           | None => (keys, {[ keyID ]} ∪ missingKeys)
           end)
        (keys0, missing0) l in
(∀ k, k ∈ missing ↔ k ∈ missing0 ∨ (k ∈ l ∧ cache k = None))
∧ (∀ alg key, keys !! alg = Some key →
     keys0 !! alg = Some key
     ∨ ∃ k, k ∈ l ∧ keyAlgo k = alg ∧ cache k = Some key)
∧ (∀ k, k ∈ l → is_Some (cache k) → is_Some (keys !! keyAlgo k))
∧ (∀ alg, is_Some (keys0 !! alg) → is_Some (keys !! alg)).
Proof.
revert keys0 missing0.
induction l as [|k0 l IH]; intros keys0 missing0; cbn [foldl].
- repeat split.
  + intros Hk. by left.
  + intros [Hk|[Hk _]]; [done|by apply elem_of_nil in Hk].
  + intros alg key Hk. by left.
  + intros k Hk. by apply elem_of_nil in Hk.
  + done.
- destruct (cache k0) as [key0|] eqn:Hc.
  + specialize (IH (<[keyAlgo k0 := key0]> keys0) missing0).
    destruct (foldl _ _ l) as [keys missing].
    destruct IH as (Hm & Hk & Hp & Hmono). repeat split.
    * intros Hin. apply Hm in Hin as [?|[? ?]]; [by left|].
      right. split; [by right|done].
    * intros [?|[Hin Hnone]]; apply Hm; [by left|].
      apply elem_of_cons in Hin as [->|Hin]; [congruence|]. by right.
    * intros alg key Hin. apply Hk in Hin as [Hin|(k & Hin & Ha & Hck)].
      -- destruct (decide (keyAlgo k0 = alg)) as [<-|Hne].
         ++ rewrite lookup_insert_eq in Hin. injection Hin as <-.
            right. exists k0. split; [left|done].
         ++ rewrite lookup_insert_ne in Hin by done. by left.
      -- right. exists k. split; [by right|done].
    * intros k Hin Hsome. apply elem_of_cons in Hin as [->|Hin].
      -- apply Hmono. rewrite lookup_insert_eq. eauto.
      -- by apply Hp.
    * intros alg Hsome. apply Hmono.
      destruct (decide (keyAlgo k0 = alg)) as [<-|Hne].
      -- rewrite lookup_insert_eq. eauto.
      -- by rewrite lookup_insert_ne.
  + specialize (IH keys0 ({[k0]} ∪ missing0)).
    destruct (foldl _ _ l) as [keys missing].
    destruct IH as (Hm & Hk & Hp & Hmono). repeat split.
    * intros Hin. apply Hm in Hin as [Hin|[? ?]].
      -- apply elem_of_union in Hin as [Hin|Hin]; [|by left].
         apply elem_of_singleton in Hin as ->. right. split; [left|done].
      -- right. split; [by right|done].
    * intros [Hin|[Hin Hnone]]; apply Hm.
      -- left. set_solver.
      -- apply elem_of_cons in Hin as [->|Hin]; [left; set_solver|by right].
    * intros alg key Hin. apply Hk in Hin as [Hin|(k & Hin & Ha & Hck)];
        [by left|]. right. exists k. split; [by right|done].
    * intros k Hin Hsome. apply elem_of_cons in Hin as [->|Hin].
      -- rewrite Hc in Hsome. by destruct Hsome.
      -- by apply Hp.
    * done.
Qed.

(** X3. [publicKeysPresent] reports as missing exactly the needed keys that
  are not in the cache, answers [true] exactly when there is none,
  returns only cached keys of needed identifiers, and returns a key for
  the algorithm of every needed identifier that is cached. *)
Theorem publicKeysPresent_correct (cache : keyCacheKey → option PublicKey.t)
  (needed : gset keyCacheKey) :
let '(keys, missing, ok) := publicKeysPresent cache needed in
(∀ k, k ∈ missing ↔ k ∈ needed ∧ cache k = None)
∧ (ok = true ↔ ∀ k, k ∈ needed → is_Some (cache k))
∧ (∀ alg key, keys !! alg = Some key →
     ∃ k, k ∈ needed ∧ keyAlgo k = alg ∧ cache k = Some key)
∧ (∀ k, k ∈ needed → is_Some (cache k) → is_Some (keys !! keyAlgo k)).
Proof.
unfold publicKeysPresent.
pose proof (publicKeysPresent_fold cache (mapRange needed) ∅ ∅) as Hf.
destruct (foldl _ _ (mapRange needed)) as [keys missing].
destruct Hf as (Hm & Hkeys & Hp & _).
assert (Hin : ∀ k, k ∈ mapRange needed ↔ k ∈ needed).
{ intros k. rewrite (mapRange_perm needed). apply elem_of_elements. }
assert (Hmiss : ∀ k, k ∈ missing ↔ k ∈ needed ∧ cache k = None).
{ intros k. rewrite Hm, Hin. set_solver. }
split; [exact Hmiss|]. split; [split|split].
- intros Hok k Hk. apply bool_decide_eq_true in Hok.
  apply size_empty_inv in Hok.
  destruct (cache k) eqn:Hc; [eauto|].
  assert (k ∈ missing) by (apply Hmiss; done). set_solver.
- intros Hall. apply bool_decide_eq_true. apply size_empty_iff.
  apply elem_of_equiv_empty. intros k Hk. apply Hmiss in Hk as [Hk Hnone].
  destruct (Hall k Hk) as [? ?]. congruence.
- intros alg key Hl. apply Hkeys in Hl as [Hl|(k & Hl & ? & ?)];
    [by rewrite lookup_empty in Hl|].
  exists k. by rewrite <- Hin.
- intros k Hk. apply Hp. by apply Hin.
Qed.
End keys.

Section no_signature.
Context `{Env}.

Lemma validSignature_unsigned now (sec : SectionWithSig) keys :
slice.len (Sigs sec) = 0%nat →
validSignature now sec keys = Ok (false, sec).
Proof.
intros Hlen. pose proof (validSignature_outer now sec keys) as Hout.
destruct sec as [a|s|z]; cbn in Hlen.
- rewrite Hout. unfold validateSignatures.
  rewrite bool_decide_eq_true_2 by done. reflexivity.
- unfold validateSignatures in Hout.
  rewrite bool_decide_eq_true_2 in Hout by done. exact Hout.
- unfold validateSignatures in Hout.
  rewrite bool_decide_eq_true_2 in Hout by done. exact Hout.
Qed.

Lemma asserted_park now ss w : asserted (park now ss w) = asserted w.
Proof.
unfold park, pendingSignatureCache.Add. cbn [fst snd].
case_bool_decide; reflexivity.
Qed.

(** X4. A section that carries no signature is never stored, whatever its
  content and whatever keys are known. *)
Theorem unsigned_section_is_never_stored (now : Time)
  (ms : msgSectionSender.t) (sec : SectionWithSig) (w : World) :
msgSectionSender.Section ms = MWithSig sec →
slice.len (Sigs sec) = 0%nat →
∃ w', verify now ms w = Ok (tt, w') ∧ asserted w' = asserted w.
Proof.
intros Hms Hlen.
destruct (structurallyConsistent sec) eqn:Hcons.
- rewrite (verify_consistent now ms sec w Hms Hcons).
  destruct (zoneShardsConsistent sec); [|eauto].
  destruct (keys_present_or_missing w sec) as [[keys Hkeys]|Hmiss].
  + rewrite (verifySignatures_present now (sectionSenderOf ms sec) w keys Hkeys).
    cbn [sectionSenderOf sectionWithSigSender.Section].
    rewrite (validSignature_unsigned now sec keys Hlen). eauto.
  + rewrite (verifySignatures_missing now (sectionSenderOf ms sec) w Hmiss).
    eexists. split; [reflexivity|]. apply asserted_park.
- rewrite (verify_inconsistent now ms sec w Hms Hcons).
  eexists. split; reflexivity.
Qed.
End no_signature.

Lemma unsigned_section_is_never_stored_witness :
  ∃ w', verify examples.now
          (examples.from_peer (SAssertion (examples.www []))) examples.allKeys
        = Ok (tt, w')
        ∧ asserted w' = [].
Proof.
  exact (unsigned_section_is_never_stored examples.now
           (examples.from_peer (SAssertion (examples.www [])))
           (SAssertion (examples.www [])) examples.allKeys eq_refl eq_refl).
Defined.

Section all_expired.
Context `{Env} {Sec : Type} `{LawfulSection Sec}.
Variables (now : Time) (keys : gmap KeyAlgorithmType PublicKey.t).

Lemma DeleteSig_slice (sec : Sec) (i : nat) :
match slice.delete i (Sigs sec) with
| Ok sl => ∃ sec', DeleteSig i sec = Ok sec' ∧ Sigs sec' = sl
                   ∧ ValidSince sec' = ValidSince sec
                   ∧ ValidUntil sec' = ValidUntil sec
| Panic why => DeleteSig i sec = Panic why
end.
Proof.
destruct (DeleteSig i sec) as [sec'|why] eqn:Hd.
- apply DeleteSig_Ok in Hd as (-> & ? & ?). eauto.
- apply DeleteSig_Panic in Hd as ->. reflexivity.
Qed.

Lemma validateLoop_all_expired (bareStub : string) (n : nat) :
∀ (m i : nat) (sec : Sec),
  m = (n - i)%nat → (i < n)%nat → (2 * i ≤ n + 1)%nat → (2 ≤ n)%nat →
  slice.len (Sigs sec) = (n - i)%nat →
  (n ≤ length (slice.backing (Sigs sec)))%nat →
  (∀ p sig, (p < n)%nat → slice.backing (Sigs sec) !! p = Some sig →
            expired now sig = true) →
  validateLoop now bareStub keys (seq i m) sec
  = Panic "slice bounds out of range".
Proof.
induction m as [|m IH]; intros i sec Hm Hi Hhalf Hn Hlen Hcap Hexp; [lia|].
cbn [seq validateLoop].
destruct (lookup_lt_is_Some_2 (slice.backing (Sigs sec)) i) as [sig Hsig];
  [lia|].
rewrite Hsig. pose proof (Hexp i sig Hi Hsig) as He.
unfold expired in He. rewrite He.
pose proof (DeleteSig_slice sec i) as Hd.
destruct (decide (i + 1 ≤ n - i)%nat) as [Hfit|Hfit].
- rewrite delete_Ok in Hd by lia.
  destruct Hd as (sec' & -> & Hsigs & _). cbn [mbind result_bind].
  assert (Hwf : slice_wf (Sigs sec)) by (unfold slice_wf; lia).
  assert (Hdel : slice.delete i (Sigs sec) = Ok (Sigs sec'))
    by (rewrite delete_Ok by lia; by rewrite Hsigs).
  destruct (delete_backing_length _ _ _ Hwf Hdel) as [Hl1 Hl2].
  apply IH; try lia.
  intros p sig' Hp Hsig'.
  rewrite (delete_backing_lookup _ _ i p Hwf Hdel) in Hsig'.
  destruct (decide (p < i)%nat); [by apply (Hexp p)|].
  destruct (decide (p < slice.len (Sigs sec) - 1)%nat);
    [apply (Hexp (S p)); [lia|done]|by apply (Hexp p)].
- rewrite delete_Panic in Hd by lia. rewrite Hd. reflexivity.
Qed.

(** X5. The loop of [validateSignatures] deletes from the slice it ranges
  over. On a section with two or more signatures, all expired, a
  deletion slices beyond the shortened list: the verifier panics. *)
Theorem all_signatures_expired_panics (sec : Sec) :
slice_wf (Sigs sec) →
(2 ≤ slice.len (Sigs sec))%nat →
Forall (fun sig => expired now sig = true) (slice.elems (Sigs sec)) →
validateSignatures now sec keys = Panic "slice bounds out of range".
Proof.
intros Hwf Hlen Hall. unfold validateSignatures.
rewrite bool_decide_eq_false_2 by lia.
rewrite (validateLoop_all_expired (bareStubOf (box sec))
           (slice.len (Sigs sec)) (slice.len (Sigs sec)) 0 sec);
  try done; try lia.
intros p sig Hp Hsig.
apply (proj1 (Forall_lookup _ _) Hall p).
unfold slice.elems. by rewrite lookup_take_lt.
Qed.
End all_expired.

Lemma all_signatures_expired_panics_witness :
  validateSignatures examples.now
    (examples.www [examples.sig 0 10 "good"; examples.sig 0 20 "good";
                   examples.sig 0 30 "good"])
    {[ Ed25519 := examples.key ]}
  = Panic "slice bounds out of range".
Proof.
  apply (all_signatures_expired_panics examples.now {[ Ed25519 := examples.key ]}
           (examples.www [examples.sig 0 10 "good"; examples.sig 0 20 "good";
                          examples.sig 0 30 "good"])).
  - vm_compute. lia.
  - vm_compute. lia.
  - repeat constructor.
Defined.

Section frame.
Context `{Env}.

(** X7. A query is handed to the engine when it expires at [now] or later,
  and dropped without any effect when it expired before [now]. *)
Theorem expired_query_is_dropped (now : Time) (ms : msgSectionSender.t)
  (q : QuerySection.t) (w : World) :
msgSectionSender.Section ms = MQuery q →
verify now ms w
= Ok (tt, if bool_decide (Unix now ≤ QuerySection.Expires q)
          then set_queried (queried w ++ [(q, msgSectionSender.Sender ms)]) w
          else w).
Proof.
intros Hms. unfold verify, validQuery. rewrite Hms.
destruct (Z.ltb_spec (QuerySection.Expires q) (Unix now)).
- by rewrite bool_decide_eq_false_2 by lia.
- by rewrite bool_decide_eq_true_2 by lia.
Qed.

(** X8. The check of the message signatures is not implemented: every
  message passes, whatever its signatures. *)
Theorem verifyMessageSignature_accepts_every_message (msg : RainsMessage) :
verifyMessageSignature msg = true.
Proof.
unfold verifyMessageSignature. case_bool_decide; [done|].
generalize (msgSignatures msg). intros sigs.
induction sigs as [|sig sigs IH]; [done|exact IH].
Qed.
End frame.

Lemma expired_query_is_dropped_witness :
  let q := {| QuerySection.Token_ := 9%N; QuerySection.Name := "www.ch"%string;
              QuerySection.Context := "."%string;
              QuerySection.QType := OTIP4Addr;
              QuerySection.Expires := 999 |} in
  let ms := {| msgSectionSender.Section := MQuery q;
               msgSectionSender.Sender := "peer"%string;
               msgSectionSender.Token := 7%N |} in
  verify examples.now ms examples.allKeys = Ok (tt, examples.allKeys).
Proof.
  intros q ms.
  exact (expired_query_is_dropped examples.now ms q examples.allKeys eq_refl).
Defined.

End rainsd_facts.

(** ** More on the sections of rainslib *)

Module sections_facts.
Import time rainslib rainsd validity verifier_spec sections_spec rainslib_facts rainsd_facts.

Section deleting.
Context {Sec : Type} `{LawfulSection Sec}.

(** X9. [DeleteSig i] removes the [i]-th signature and keeps the others in
  their order, and the validity as it is; an index that is not below
  the number of signatures makes it panic. *)
Theorem DeleteSig_removes_the_ith_signature (sec : Sec) (i : nat) :
slice_wf (Sigs sec) →
if decide (i < slice.len (Sigs sec))%nat then
  ∃ sec', DeleteSig i sec = Ok sec'
          ∧ slice.elems (Sigs sec')
            = take i (slice.elems (Sigs sec))
              ++ drop (S i) (slice.elems (Sigs sec))
          ∧ ValidSince sec' = ValidSince sec
          ∧ ValidUntil sec' = ValidUntil sec
else DeleteSig i sec = Panic "slice bounds out of range".
Proof.
intros Hwf. destruct (decide (i < slice.len (Sigs sec))%nat) as [Hi|Hi].
- destruct (DeleteSig i sec) as [sec'|why] eqn:Hd.
  + apply DeleteSig_Ok in Hd as (Hd & Hs & Hu).
    exists sec'. split; [done|]. split; [|done].
    by apply (delete_elems _ _ i Hwf).
  + apply DeleteSig_Panic in Hd. rewrite delete_Ok in Hd by done. done.
- destruct (DeleteSig i sec) as [sec'|why] eqn:Hd.
  + apply DeleteSig_Ok in Hd as (Hd & _).
    rewrite delete_Panic in Hd by lia. done.
  + apply DeleteSig_Panic in Hd. rewrite delete_Panic in Hd by lia.
    by injection Hd as <-.
Qed.

(** X10. Calling [UpdateValidity] a second time with the same arguments, at
  the same time, changes nothing (for a stored validSince that fits an
  int64). *)
Theorem UpdateValidity_idempotent (sec : Sec) (now : Time)
  (validSince validUntil : Z) (maxValidity : Duration) :
ValidSince sec ≤ math.MaxInt64 →
let once := UpdateValidity now validSince validUntil maxValidity sec in
let twice := UpdateValidity now validSince validUntil maxValidity once in
ValidSince twice = ValidSince once
∧ ValidUntil twice = ValidUntil once
∧ Sigs twice = Sigs sec.
Proof.
intros Hmax once twice. subst once twice.
rewrite !ValidSince_UpdateValidity, !ValidUntil_UpdateValidity,
  !Sigs_UpdateValidity.
unfold extendSince, extendUntil, initialised in *. rewrite !Z.gtb_ltb.
unfold math.MaxInt64 in *.
repeat match goal with
       | |- context [?a =? ?b] => destruct (Z.eqb_spec a b)
       | |- context [?a <? ?b] => destruct (Z.ltb_spec a b)
       end; try lia; (split; [|split]); try done; lia.
Qed.
End deleting.

Lemma DeleteSig_removes_the_ith_signature_witness :
  let s1 := examples.sig 0 10 "good" in
  let s2 := examples.sig 0 20 "good" in
  let s3 := examples.sig 0 30 "good" in
  ∃ a', DeleteSig 1 (examples.www [s1; s2; s3]) = Ok a'
        ∧ slice.elems (Sigs a') = [s1; s3]
        ∧ ValidSince a' = 0 ∧ ValidUntil a' = 0.
Proof.
  intros s1 s2 s3.
  refine (DeleteSig_removes_the_ith_signature (examples.www [s1; s2; s3]) 1 _).
  vm_compute. lia.
Defined.

Lemma UpdateValidity_idempotent_witness :
  let sec := SAssertion (examples.www []) in
  let once := UpdateValidity examples.now 900 5000 (100 * Second) sec in
  let twice := UpdateValidity examples.now 900 5000 (100 * Second) once in
  ValidSince twice = ValidSince once
  ∧ ValidUntil twice = ValidUntil once
  ∧ Sigs twice = Sigs sec.
Proof.
  apply (UpdateValidity_idempotent (SAssertion (examples.www []))
           examples.now 900 5000 (100 * Second)).
  vm_compute. discriminate.
Defined.

Section ordering.
Context `{ObjectOrder}.

Lemma less_irrefl a : less a a = false.
Proof.
unfold less. pose proof (String.compare_antisym a a) as Ha.
destruct (String.compare a a); cbn in Ha; done.
Qed.

Lemma less_neither a b : less a b = false → less b a = false → a = b.
Proof.
unfold less. rewrite (String.compare_antisym b a).
destruct (String.compare a b) eqn:Hc; cbn; try done.
intros _ _. by apply String.compare_eq_iff.
Qed.

Lemma compareObjects_zero (content other : list Object) :
length content = length other →
compareObjects content other = Ok 0
↔ Forall2 (fun o o' => Object_CompareTo o o' = 0) content other.
Proof.
revert other. induction content as [|o content IH]; intros [|o' other] Hlen;
  cbn in Hlen; try lia; cbn [compareObjects].
- split; [constructor|done].
- destruct (Z.eqb_spec (Object_CompareTo o o') 0) as [Ho|Ho]; cbn [negb].
  + rewrite IH by lia. split; [by constructor|].
    intros Hf. by apply Forall2_cons_1 in Hf as [_ ?].
  + split; [intros [= ?]; done|].
    intros Hf. by apply Forall2_cons_1 in Hf as [? _].
Qed.

(** X11. [AssertionSection.CompareTo] answers 0 exactly for two assertions
  with the same subject name, subject zone and context whose contents
  have the same length and compare as 0 object by object; it looks at
  neither the signatures nor the validity. *)
Theorem AssertionSection_CompareTo_zero (a assertion : AssertionSection.t) :
AssertionSection_CompareTo a assertion = Ok 0
↔ AssertionSection.SubjectName a = AssertionSection.SubjectName assertion
  ∧ AssertionSection.SubjectZone a = AssertionSection.SubjectZone assertion
  ∧ AssertionSection.Context a = AssertionSection.Context assertion
  ∧ Forall2 (fun o o' => Object_CompareTo o o' = 0)
      (AssertionSection.Content a) (AssertionSection.Content assertion).
Proof.
unfold AssertionSection_CompareTo. split.
- repeat match goal with
         | |- context [less ?x ?y] =>
             let E := fresh "E" in destruct (less x y) eqn:E; [done|]
         | |- context [(?x <? ?y)%nat] =>
             destruct (Nat.ltb_spec x y); [done|]
         end.
  intros Hc. apply compareObjects_zero in Hc; [|lia].
  repeat split; try done; by apply less_neither.
- intros (-> & -> & -> & Hf).
  rewrite !less_irrefl.
  rewrite (Forall2_length _ _ _ Hf), Nat.ltb_irrefl.
  apply compareObjects_zero; [|done].
  by rewrite (Forall2_length _ _ _ Hf).
Qed.

Lemma compareZoneContent_shards (content : list MessageSectionWithSigForward) :
∀ other other',
  Forall2 sameUpToShards other other' →
  compareZoneContent content other = compareZoneContent content other'.
Proof.
induction content as [|section content IH]; intros other other' Hf;
  [done|].
assert (Htail : Forall2 sameUpToShards (tail other) (tail other'))
  by (destruct Hf; [constructor|done]).
cbn [compareZoneContent]. rewrite (IH _ _ Htail).
destruct section as [a| |]; [|done..].
destruct Hf as [|c c' other other' Hc _]; [done|].
destruct c, c'; cbn in Hc; try discriminate; try done.
by injection Hc as <-.
Qed.

(** X12. [ZoneSection.CompareTo] compares a shard of [z] with [z.Content[i]],
  that is with itself, and not with [zone.Content[i]]: its answer does
  not depend on what the shards of [zone] are. *)
Theorem ZoneSection_CompareTo_ignores_the_other_shards
  (z zone zone' : ZoneSection.t) :
ZoneSection.SubjectZone zone = ZoneSection.SubjectZone zone' →
ZoneSection.Context zone = ZoneSection.Context zone' →
Forall2 sameUpToShards (ZoneSection.Content zone) (ZoneSection.Content zone') →
ZoneSection_CompareTo z zone = ZoneSection_CompareTo z zone'.
Proof.
intros Hz Hc Hf. unfold ZoneSection_CompareTo.
rewrite Hz, Hc, (Forall2_length _ _ _ Hf).
by rewrite (compareZoneContent_shards _ _ _ Hf).
Qed.
End ordering.

Lemma ZoneSection_CompareTo_ignores_the_other_shards_witness :
  let sig := examples.sig 0 2000 "good" in
  let z := examples.zoneOf [FShard (examples.shard "a" "m"
                           [examples.assertion "b" "ch" [examples.ip4] [sig]]
                           [sig])] [sig] in
  let zone' := examples.zoneOf [FShard (examples.shard "n" "z" [] [])] [] in
  ZoneSection_CompareTo z z = ZoneSection_CompareTo z zone'.
Proof.
  intros sig z zone'.
  apply (ZoneSection_CompareTo_ignores_the_other_shards z z zone').
  - reflexivity.
  - reflexivity.
  - repeat constructor.
Defined.

(** Two zones with different shards compare as equal. *)
Example zones_with_different_shards_compare_equal :
  let sig := examples.sig 0 2000 "good" in
  let z := examples.zoneOf [FShard (examples.shard "a" "m"
                           [examples.assertion "b" "ch" [examples.ip4] [sig]]
                           [sig])] [sig] in
  let zone' := examples.zoneOf [FShard (examples.shard "n" "z" [] [])] [] in
  ZoneSection_CompareTo z zone' = Ok 0 ∧ ZoneSection_CompareTo zone' z = Ok 0.
Proof. vm_compute. split; reflexivity. Qed.

Section antisymmetry.
Context `{ObjectOrder}.
Hypothesis Object_CompareTo_antisym :
∀ o o', Object_CompareTo o' o = - Object_CompareTo o o'.

Lemma less_cases a b :
(less a b = true ∧ less b a = false)
∨ (less a b = false ∧ less b a = true)
∨ (less a b = false ∧ less b a = false).
Proof.
unfold less. rewrite (String.compare_antisym b a).
destruct (String.compare a b); cbn; auto.
Qed.

Ltac order_cases :=
repeat match goal with
       | |- context [less ?x ?y] =>
           destruct (less_cases x y) as [[-> ->]|[[-> ->]|[-> ->]]];
           try reflexivity
       | |- context [(?x <? ?y)%nat] =>
           destruct (Nat.ltb_spec x y); try reflexivity
       end.

Lemma compareObjects_antisym (content other : list Object) :
length content = length other →
compareObjects other content = Z.opp <$> compareObjects content other.
Proof.
revert other. induction content as [|o content IH]; intros [|o' other] Hlen;
  cbn in Hlen; try lia; cbn [compareObjects]; [done|].
rewrite (Object_CompareTo_antisym o o').
destruct (Z.eqb_spec (Object_CompareTo o o') 0) as [->|Ho]; cbn.
- apply IH. lia.
- destruct (Z.eqb_spec (- Object_CompareTo o o') 0); [lia|done].
Qed.

Lemma AssertionSection_CompareTo_antisym (a b : AssertionSection.t) :
AssertionSection_CompareTo b a = Z.opp <$> AssertionSection_CompareTo a b.
Proof.
unfold AssertionSection_CompareTo. order_cases; try lia.
apply compareObjects_antisym. lia.
Qed.

Lemma compareAssertions_antisym (content other : list AssertionSection.t) :
length content = length other →
compareAssertions other content = Z.opp <$> compareAssertions content other.
Proof.
revert other. induction content as [|a content IH]; intros [|a' other] Hlen;
  cbn in Hlen; try lia; cbn [compareAssertions]; [done|].
rewrite (AssertionSection_CompareTo_antisym a a').
destruct (AssertionSection_CompareTo a a') as [c|why]; cbn; [|done].
destruct (Z.eqb_spec c 0) as [->|Hc]; cbn.
- apply IH. lia.
- destruct (Z.eqb_spec (- c) 0); [lia|done].
Qed.

(** X25. If [Object.CompareTo] is antisymmetric, so are
  [AssertionSection.CompareTo] and [ShardSection.CompareTo]: comparing
  the other way round negates the answer (also for the subject zones
  of shards, which are compared in reverse). *)
Theorem section_CompareTo_antisymmetric :
(∀ a b : AssertionSection.t,
   AssertionSection_CompareTo b a = Z.opp <$> AssertionSection_CompareTo a b)
∧ (∀ s t : ShardSection.t,
     ShardSection_CompareTo t s = Z.opp <$> ShardSection_CompareTo s t).
Proof.
split; [exact AssertionSection_CompareTo_antisym|].
intros s t. unfold ShardSection_CompareTo. order_cases; try lia.
apply compareAssertions_antisym. lia.
Qed.
End antisymmetry.

Lemma section_CompareTo_antisymmetric_witness :
  (∀ a b : AssertionSection.t,
     AssertionSection_CompareTo b a = Z.opp <$> AssertionSection_CompareTo a b)
  ∧ (∀ s t : ShardSection.t,
       ShardSection_CompareTo t s = Z.opp <$> ShardSection_CompareTo s t).
Proof.
  apply section_CompareTo_antisymmetric.
  intros o o'. cbn. rewrite (String.compare_antisym (Value o) (Value o')).
  destruct (String.compare (Value o') (Value o)); reflexivity.
Defined.

(** [ZoneSection.CompareTo] is not antisymmetric: a zone holding an
    assertion is smaller than one holding a shard at the same place, which
    compares as equal to it the other way round. *)
Example ZoneSection_CompareTo_is_not_antisymmetric :
  let sig := examples.sig 0 2000 "good" in
  let z := examples.zoneOf [FAssertion (examples.assertion "b" "ch" [examples.ip4] [sig])]
             [sig] in
  let zone' := examples.zoneOf [FShard (examples.shard "a" "m" [] [sig])] [sig] in
  ZoneSection_CompareTo z zone' = Ok (-1) ∧ ZoneSection_CompareTo zone' z = Ok 0.
Proof. vm_compute. split; reflexivity. Qed.

End sections_facts.

(** ** The resolver *)

Module libresolve_facts.
Import rainslib libresolve resolver_spec.

Section fuel.
Context `{Network}.

Lemma handleRedirect_mono (depth depth' : nat) name ans allowed x :
  (depth ≤ depth')%nat →
  handleRedirect depth name ans allowed = Some x →
  handleRedirect depth' name ans allowed = Some x.
Proof.
  revert depth' name allowed x.
  induction depth as [|depth IH]; intros depth' name allowed x Hle Hd;
    [discriminate|].
  destruct depth' as [|depth']; [lia|].
  assert (Hrec : ∀ n t y, handleRedirect depth n ans t = Some y →
                          handleRedirect depth' n ans t = Some y).
  { intros. apply IH; [lia|done]. }
  cbn [handleRedirect] in *.
  destruct (bool_decide (OTName ∈ allowed));
    destruct (nameMap ans !! name) as [nameVal|];
    destruct (bool_decide (OTServiceInfo ∈ allowed)
              && HasPrefix name rainsPrefix);
    destruct (srvMap ans !! name) as [srvVal|];
    destruct (bool_decide (OTIP6Addr ∈ allowed)
              || bool_decide (OTIP4Addr ∈ allowed));
    destruct (ipMap ans !! name) as [ipAddr|];
    try exact Hd;
    repeat match type of Hd with
           | context [handleRedirect depth ?n ans ?t] =>
               let E := fresh "E" in
               destruct (handleRedirect depth n ans t) as [[?|]|] eqn:E;
               [rewrite (Hrec _ _ _ E)..|discriminate Hd]
           end;
    exact Hd.
Qed.

Lemma followRedirects_mono (depth depth' : nat) names ans addr x :
  (depth ≤ depth')%nat →
  followRedirects depth names ans addr = Some x →
  followRedirects depth' names ans addr = Some x.
Proof.
  intros Hle. revert addr.
  induction names as [|name names IH]; intros addr; cbn; [done|].
  destruct (handleRedirect depth name ans allAllowedTypes) as [r|] eqn:E;
    [|done].
  rewrite (handleRedirect_mono depth depth' _ _ _ _ Hle E).
  destruct r; [done|]. apply IH.
Qed.

Lemma walk_mono (fuel fuel' : nat) q addr r x :
  (fuel ≤ fuel')%nat →
  walk fuel q addr r = Some x → walk fuel' q addr r = Some x.
Proof.
  revert fuel' addr r.
  induction fuel as [|fuel IH]; intros fuel' addr r Hle Hw; [discriminate|].
  destruct fuel' as [|fuel']; [lia|].
  cbn [walk] in *.
  destruct (SendQuery _ _ _) as [answer|]; [|done].
  case_bool_decide; [done|].
  destruct (handleAnswer _ _ _) as [[ans r']|]; [|done].
  destruct (isFinal ans); [done|].
  destruct (isRedir ans); [|done].
  destruct (followRedirects fuel _ _ _) as [addr'|] eqn:E; [|done].
  rewrite (followRedirects_mono fuel fuel' _ _ _ _ ltac:(lia) E).
  apply IH; [lia|done].
Qed.

Lemma walkFails_walk q addr r r' :
  walkFails q addr r r' →
  ∃ fuel, walk fuel q addr r = Some (Ok (None, r')).
Proof.
  induction 1 as [addr r Hs|addr r answer Hs He
                 |addr r answer ans r' Hs He Hh Hf Hr
                 |addr r answer ans r' depth addr' r'' Hs He Hh Hf Hr Hfol _ IH].
  - exists 1%nat. cbn. by rewrite Hs.
  - exists 1%nat. cbn. rewrite Hs. by rewrite bool_decide_eq_true_2.
  - exists 1%nat. cbn. rewrite Hs, bool_decide_eq_false_2, Hh, Hf, Hr; done.
  - destruct IH as [fuel Hw].
    exists (S (Nat.max depth fuel)). cbn [walk].
    rewrite Hs, bool_decide_eq_false_2, Hh, Hf, Hr by done.
    rewrite (followRedirects_mono depth (Nat.max depth fuel) _ _ _ _
               ltac:(lia) Hfol).
    apply (walk_mono fuel); [lia|done].
Qed.

Lemma rootsFail_tryRoots q roots r r' :
  rootsFail q roots r r' →
  ∃ fuel, ∀ fuel', (fuel ≤ fuel')%nat →
    tryRoots fuel' q roots r = Some (Ok (None, Some (NoAnswerObtained q), r')).
Proof.
  induction 1 as [r|root rest r r' r'' Hw _ IH].
  - exists 0%nat. done.
  - destruct (walkFails_walk _ _ _ _ Hw) as [fuel1 Hw1].
    destruct IH as [fuel2 Hr].
    exists (Nat.max fuel1 fuel2). intros fuel' Hle. cbn [tryRoots].
    rewrite (walk_mono fuel1 fuel' _ _ _ _ ltac:(lia) Hw1).
    apply Hr. lia.
Qed.

(** C8. When the walk from every root ends without a final answer,
    [recursiveResolve] returns a nil message and the error that no answer
    could be obtained. The roots are tried when the delegation shortcut
    has not answered: the query asks for no delegation, or none is cached
    for its name. *)
Theorem no_answer_from_any_root (q : Query) (r r' : Resolver) :
  ¬ cachedDelegation q r →
  rootsFail q (RootNameServers r) r r' →
  ∃ fuel, ∀ fuel', (fuel ≤ fuel')%nat →
    recursiveResolve fuel' q r
    = Some (Ok (None, Some (NoAnswerObtained q), r')).
Proof.
  intros Hshort Hroots.
  destruct (rootsFail_tryRoots _ _ _ _ Hroots) as [fuel Hfuel].
  exists fuel. intros fuel' Hle. unfold recursiveResolve.
  case_bool_decide as Hd.
  - destruct (Delegations r !! QName q) eqn:Hl; [|by apply Hfuel].
    destruct Hshort. split; [done|by rewrite Hl].
  - by apply Hfuel.
Qed.
End fuel.
Import libresolve_examples.

Lemma no_answer_from_any_root_witness :
  ∃ fuel, ∀ fuel', (fuel ≤ fuel')%nat →
    recursiveResolve fuel' addressQuery (resolver ∅)
    = Some (Ok (None, Some (NoAnswerObtained addressQuery),
                sent (sent (resolver ∅)))).
Proof.
  refine (no_answer_from_any_root addressQuery (resolver ∅)
            (sent (sent (resolver ∅))) _ _).
  - intros [Hin _]. vm_compute in Hin.
    apply list_elem_of_singleton in Hin. discriminate.
  - apply (rootsFail_cons _ _ _ _ (sent (resolver ∅))).
    + apply fails_error. reflexivity.
    + apply (rootsFail_cons _ _ _ _ (sent (sent (resolver ∅)))).
      * apply (fails_empty _ _ _ {| MsgContent := [] |}); reflexivity.
      * apply rootsFail_nil.
Defined.

Section lookup_facts.
Context `{Network}.

(** *** The delegation cache *)

Lemma handleObject_Delegations a types name ans r o ans' r' :
handleObject a types name (ans, r) o = Ok (ans', r') →
RootNameServers r' = RootNameServers r
∧ queriesSent r' = queriesSent r
∧ Delegations r'
  = if decide (OType o = OTDelegation)
    then <[FQDN a := a]> (Delegations r) else Delegations r.
Proof.
unfold handleObject. intros Hh.
destruct (OType o) eqn:Ho; destruct (OValue o); cbn in Hh;
  repeat match type of Hh with
         | context [if ?b then _ else _] => destruct b; cbn in Hh
         end;
  try discriminate; injection Hh as <- <-;
  (split; [done|]); (split; [done|]); cbn;
  destruct (decide _); try done.
Qed.

Lemma handleAssertion_Delegations a types name :
∀ content ans r ans' r',
  rainsd.foldlM (handleObject a types name) (ans, r) content = Ok (ans', r') →
  RootNameServers r' = RootNameServers r
  ∧ queriesSent r' = queriesSent r
  ∧ Delegations r'
    = if bool_decide (Exists (fun o => OType o = OTDelegation) content)
      then <[FQDN a := a]> (Delegations r) else Delegations r.
Proof.
induction content as [|o content IH]; intros ans r ans' r' Hf;
  cbn [rainsd.foldlM] in Hf.
- injection Hf as <- <-.
  rewrite bool_decide_eq_false_2 by (by intros ?%Exists_nil). done.
- destruct (handleObject a types name (ans, r) o) as [[ans1 r1]|] eqn:Ho;
    cbn [mbind result_bind] in Hf; [|done].
  apply handleObject_Delegations in Ho as (Hr1 & Hq1 & Hd1).
  apply IH in Hf as (Hr & Hq & Hd).
  split; [congruence|]. split; [congruence|].
  rewrite Hd, Hd1.
  destruct (decide (OType o = OTDelegation)) as [Hdel|Hdel].
  + rewrite (bool_decide_eq_true_2 (Exists _ (o :: content)))
      by (by left).
    case_bool_decide; [|done]. by rewrite insert_insert_eq.
  + case_bool_decide as He1.
    * rewrite (bool_decide_eq_true_2 (Exists _ (o :: content)))
        by (by right). done.
    * rewrite (bool_decide_eq_false_2 (Exists _ (o :: content))); [done|].
      intros [?|?]%Exists_cons; done.
Qed.

(** X13. Handling an assertion that holds a delegation caches the assertion
  under its fully qualified name, and a later delegation query for that
  name is answered with it from the cache, without any query sent. *)
Theorem handled_delegation_is_answered_from_cache (a : Assertion)
  (types : gset ObjectType) (name : string) (ans ans' : Answer)
  (r r' : Resolver) (q : Query) (fuel : nat) :
handleAssertion a types name (ans, r) = Ok (ans', r') →
hasDelegation a →
QName q = FQDN a → OTDelegation ∈ QTypes q →
Delegations r' !! FQDN a = Some a
∧ recursiveResolve fuel q r'
  = Some (Ok (Some {| MsgContent := [SecAssertion a] |}, None, r')).
Proof.
intros Hh (o & Ho & Hdel) Hq Ht.
apply handleAssertion_Delegations in Hh as (_ & _ & Hd).
rewrite bool_decide_eq_true_2 in Hd
  by (apply Exists_exists; eauto).
assert (Hl : Delegations r' !! FQDN a = Some a)
  by (rewrite Hd; apply lookup_insert_eq).
split; [done|]. unfold recursiveResolve.
rewrite bool_decide_eq_true_2 by done. by rewrite Hq, Hl.
Qed.
End lookup_facts.

Section resolver_state.
Context `{Network}.

Lemma advances_refl r : advances 0 r r.
Proof. unfold advances, keepsDelegations. rewrite Nat.add_0_r. done. Qed.

Lemma advances_trans n m r1 r2 r3 :
advances n r1 r2 → advances m r2 r3 → advances (n + m) r1 r3.
Proof.
unfold advances, keepsDelegations.
intros (? & ? & ?) (? & ? & ?). split; [congruence|].
split; [lia|]. auto.
Qed.

Lemma advances_sent r : advances 1 r (sent r).
Proof.
unfold advances, keepsDelegations. cbn.
split; [done|]. split; [lia|done].
Qed.

Lemma handleAssertion_advances a types name ans r ans' r' :
handleAssertion a types name (ans, r) = Ok (ans', r') → advances 0 r r'.
Proof.
intros Hh. apply handleAssertion_Delegations in Hh as (Hr & Hq & Hd).
split; [done|]. split; [lia|]. intros n Hn. rewrite Hd.
case_bool_decide; [|done].
destruct (decide (FQDN a = n)) as [<-|Hne].
- rewrite lookup_insert_eq. eauto.
- by rewrite lookup_insert_ne.
Qed.

Lemma handleAssertions_advances types name :
∀ content ans r ans' r',
  rainsd.foldlM (fun st sec => handleAssertion sec types name st)
    (ans, r) content = Ok (ans', r') →
  advances 0 r r'.
Proof.
induction content as [|a content IH]; intros ans r ans' r' Hf;
  cbn [rainsd.foldlM] in Hf.
- injection Hf as <- <-. apply advances_refl.
- destruct (handleAssertion a types name (ans, r)) as [[ans1 r1]|] eqn:Ha;
    cbn [mbind result_bind] in Hf; [|done].
  apply (advances_trans 0 0 r r1 r');
    [by eapply handleAssertion_advances|by eapply IH].
Qed.

Lemma handleZone_advances z types name ans r ans' r' :
handleZone z types name (ans, r) = Ok (ans', r') → advances 0 r r'.
Proof.
unfold handleZone. intros Hh.
destruct (rainsd.foldlM _ _ _) as [[ans1 r1]|] eqn:Hf;
  cbn [mbind result_bind] in Hh; [|done].
apply handleAssertions_advances in Hf.
destruct (HasSuffix _ _); injection Hh as <- <-; done.
Qed.

Lemma handleAnswer_advances msg q r ans r' :
handleAnswer msg q r = Ok (ans, r') → advances 0 r r'.
Proof.
unfold handleAnswer.
generalize ({| isFinal := false; isRedir := false; redirMap := ∅;
               srvMap := ∅; ipMap := ∅; nameMap := ∅ |}).
generalize (MsgContent msg). intros content. revert r.
induction content as [|sec content IH]; intros r ans0 Hf;
  cbn [rainsd.foldlM] in Hf.
- injection Hf as <- <-. apply advances_refl.
- destruct sec as [a|s|z|q'|];
    cbn [mbind result_bind mret result_ret] in Hf.
  + destruct (handleAssertion a _ _ _) as [[ans1 r1]|] eqn:Ha;
      cbn [mbind result_bind] in Hf; [|done].
    apply (advances_trans 0 0 r r1 r');
      [by eapply handleAssertion_advances|by eapply IH].
  + by eapply IH.
  + destruct (handleZone z _ _ _) as [[ans1 r1]|] eqn:Hz;
      cbn [mbind result_bind] in Hf; [|done].
    apply (advances_trans 0 0 r r1 r');
      [by eapply handleZone_advances|by eapply IH].
  + by eapply IH.
  + by eapply IH.
Qed.

Lemma walk_advances fuel q :
∀ addr r msg r',
  walk fuel q addr r = Some (Ok (msg, r')) →
  ∃ n, (0 < n)%nat ∧ advances n r r'.
Proof.
induction fuel as [|fuel IH]; intros addr r msg r' Hw; [done|].
cbn [walk] in Hw.
destruct (SendQuery _ _ _) as [answer|].
2: { injection Hw as <- <-. exists 1%nat. split; [lia|apply advances_sent]. }
case_bool_decide.
{ injection Hw as <- <-. exists 1%nat. split; [lia|apply advances_sent]. }
destruct (handleAnswer answer q (sent r)) as [[ans r1]|] eqn:Hh; [|done].
apply handleAnswer_advances in Hh.
pose proof (advances_trans 1 0 r (sent r) r1 (advances_sent r) Hh) as Hr1.
destruct (isFinal ans).
{ injection Hw as <- <-. exists 1%nat. split; [lia|done]. }
destruct (isRedir ans).
2: { injection Hw as <- <-. exists 1%nat. split; [lia|done]. }
destruct (followRedirects _ _ _ _) as [addr'|]; [|done].
apply IH in Hw as (n & Hn & Hadv).
exists (1 + 0 + n)%nat. split; [lia|].
by apply (advances_trans (1 + 0) n r r1 r').
Qed.

Lemma tryRoots_outcome fuel q :
∀ roots r msg err r',
  tryRoots fuel q roots r = Some (Ok (msg, err, r')) →
  messageOrError msg err
  ∧ ∃ n, advances n r r'.
Proof.
induction roots as [|root roots IH]; intros r msg err r' Ht;
  cbn [tryRoots] in Ht.
- injection Ht as <- <- <-. split; [right; eauto|].
  exists 0%nat. apply advances_refl.
- destruct (walk fuel q (Some root) r) as [[[[answer|] r1]|]|] eqn:Hw;
    try done.
  + injection Ht as <- <- <-.
    apply walk_advances in Hw as (n & Hn & Hadv).
    split; [left; eauto|]. by exists n.
  + apply walk_advances in Hw as (n & Hn & Hadv).
    apply IH in Ht as (Hme & m & Hadv').
    split; [done|]. exists (n + m)%nat.
    by apply (advances_trans n m r r1 r').
Qed.

(** X14. [recursiveResolve] returns a message or an error, never both and
  never neither; it keeps the roots and every cached delegation, and
  the count of queries sent never decreases. *)
Theorem recursiveResolve_outcome (fuel : nat) (q : Query) (r r' : Resolver)
  (msg : option Message) (err : option error) :
recursiveResolve fuel q r = Some (Ok (msg, err, r')) →
messageOrError msg err
∧ RootNameServers r' = RootNameServers r
∧ (queriesSent r ≤ queriesSent r')%nat
∧ keepsDelegations r r'.
Proof.
unfold recursiveResolve. intros Hr.
assert (Hroots : tryRoots fuel q (RootNameServers r) r
                 = Some (Ok (msg, err, r')) →
                 messageOrError msg err
                 ∧ RootNameServers r' = RootNameServers r
                 ∧ (queriesSent r ≤ queriesSent r')%nat
                 ∧ keepsDelegations r r').
{ intros Ht. apply tryRoots_outcome in Ht as (Hme & n & Hr1 & Hq & Hk).
  split; [done|]. split; [done|]. split; [lia|done]. }
case_bool_decide; [|by apply Hroots].
destruct (Delegations r !! QName q); [|by apply Hroots].
injection Hr as <- <- <-. split; [left; eauto|].
split; [done|]. split; [lia|]. by intros name.
Qed.
End resolver_state.

Lemma recursiveResolve_outcome_witness :
  messageOrError (@None Message)
    (Some (NoAnswerObtained libresolve_examples.addressQuery))
  ∧ RootNameServers (sent (sent (libresolve_examples.resolver ∅)))
    = RootNameServers (libresolve_examples.resolver ∅)
  ∧ (queriesSent (libresolve_examples.resolver ∅)
     ≤ queriesSent (sent (sent (libresolve_examples.resolver ∅))))%nat
  ∧ keepsDelegations (libresolve_examples.resolver ∅)
      (sent (sent (libresolve_examples.resolver ∅))).
Proof.
  apply (recursiveResolve_outcome 1 libresolve_examples.addressQuery).
  vm_compute. reflexivity.
Defined.

Lemma handled_delegation_is_answered_from_cache_witness :
  let a := libresolve_examples.chDelegation in
  let r := libresolve_examples.resolver ∅ in
  let r' := set_Delegations {[ "ch.." := a ]} r in
  Delegations r' !! FQDN a = Some a
  ∧ recursiveResolve 0
      {| QName := "ch.."; QContext := "."; QTypes := [OTDelegation] |} r'
    = Some (Ok (Some {| MsgContent := [SecAssertion a] |}, None, r')).
Proof.
  intros a r r'.
  apply (handled_delegation_is_answered_from_cache a {[ OTDelegation ]} "ch.."
           {| isFinal := false; isRedir := false; redirMap := ∅; srvMap := ∅;
              ipMap := ∅; nameMap := ∅ |}
           {| isFinal := true; isRedir := false; redirMap := ∅; srvMap := ∅;
              ipMap := ∅; nameMap := ∅ |} r r').
  - vm_compute. reflexivity.
  - exists {| OType := OTDelegation; OValue := VString "K_ch" |}.
    split; [left|reflexivity].
  - reflexivity.
  - left.
Defined.

Section redirects.
Context `{Network}.

(** X15. A name that is an alias of itself, with no address and no service
  entry of its own: [handleRedirect] calls itself with the same
  arguments, so no depth of calls suffices for it to return. *)
Theorem handleRedirect_alias_of_itself_never_returns (name : string)
  (ans : Answer) (types : list ObjectType) (allowedTypes : gset ObjectType)
  (depth : nat) :
ipMap ans !! name = None →
srvMap ans !! name = None →
nameMap ans !! name = Some {| AliasName := name; AliasTypes := types |} →
OTName ∈ types → OTName ∈ allowedTypes →
handleRedirect depth name ans allowedTypes = None.
Proof.
intros Hip Hsrv Hname Htypes. revert allowedTypes.
induction depth as [|depth IH]; intros allowedTypes Hallowed; [done|].
cbn [handleRedirect]. rewrite Hip, Hsrv, Hname. cbn [AliasName AliasTypes].
rewrite (bool_decide_eq_true_2 (OTName ∈ allowedTypes)) by done.
rewrite (IH (list_to_set types)) by (by apply elem_of_list_to_set).
destruct (_ || _), (_ && _); reflexivity.
Qed.
End redirects.

Lemma handleRedirect_alias_of_itself_never_returns_witness :
  handleRedirect 1000 "ns.ch."
    {| isFinal := false; isRedir := true; redirMap := {[ "ch." := "ns.ch." ]};
       srvMap := ∅; ipMap := ∅;
       nameMap := {[ "ns.ch." := {| AliasName := "ns.ch.";
                                    AliasTypes := [OTName; OTIP4Addr] |} ]} |}
    allAllowedTypes
  = None.
Proof.
  apply (handleRedirect_alias_of_itself_never_returns "ns.ch." _
           [OTName; OTIP4Addr]).
  - reflexivity.
  - reflexivity.
  - reflexivity.
  - left.
  - vm_compute. reflexivity.
Defined.

Section lookup_modes.
Context `{Network}.

Lemma tryForwarders_outcome q all :
∀ forwarders r msg err r',
  tryForwarders q forwarders all r = (msg, err, r') →
  messageOrError msg err
  ∧ (queriesSent r' ≤ queriesSent r + length forwarders)%nat
  ∧ (queriesSent r ≤ queriesSent r')%nat
  ∧ Delegations r' = Delegations r
  ∧ (msg = None → queriesSent r' = (queriesSent r + length forwarders)%nat).
Proof.
induction forwarders as [|f forwarders IH]; intros r msg err r' Ht;
  cbn [tryForwarders] in Ht.
- injection Ht as <- <- <-. split; [right; eauto|]. cbn. repeat split; lia.
- destruct (SendQuery _ _ _) as [answer|].
  + injection Ht as <- <- <-. split; [left; eauto|]. cbn.
    repeat split; try lia. done.
  + apply IH in Ht as (Hme & Hle & Hge & Hd & Hall). cbn in *.
    split; [done|]. repeat split; try lia; try done.
    intros Hnone. rewrite (Hall Hnone). lia.
Qed.

(** X16. [forwardQuery] returns a message or an error, never both and never
  neither. With no forwarder it fails at once; otherwise it sends one
  query per forwarder until one answers, so at most one per forwarder,
  and exactly that many when none answers. The delegation cache is not
  touched. *)
Theorem forwardQuery_outcome (settings : Settings) (q : Query)
  (r r' : Resolver) (msg : option Message) (err : option lookupError) :
forwardQuery settings q r = (msg, err, r') →
messageOrError msg err
∧ (queriesSent r ≤ queriesSent r'
   ≤ queriesSent r + length (Forwarders settings))%nat
∧ Delegations r' = Delegations r
∧ (msg = None →
   queriesSent r' = (queriesSent r + length (Forwarders settings))%nat)
∧ (Forwarders settings = [] → err = Some NoForwarders).
Proof.
unfold forwardQuery. intros Hf. case_bool_decide as Hlen.
- injection Hf as <- <- <-. split; [right; eauto|].
  rewrite Hlen. repeat split; try lia; done.
- apply tryForwarders_outcome in Hf as (Hme & Hle & Hge & Hd & Hall).
  split; [done|]. repeat split; try lia; try done.
  intros Hnil. rewrite Hnil in Hlen. done.
Qed.

(** X17. In forward mode and in an unsupported mode [ClientLookup] always
  returns, with a message or an error, never both and never neither; in
  an unsupported mode it is the error that names the mode, and the
  resolver is untouched. In recursive mode the lookup need not return
  (an alias of itself is followed for ever); whenever it returns, it is
  with a message or an error, never both and never neither. *)
Theorem ClientLookup_message_or_error (fuel : nat) (settings : Settings)
  (q : Query) (r : Resolver) :
(Mode settings ≠ Recursive →
 ∃ msg err r',
   ClientLookup fuel settings q r = Some (Ok (msg, err, r'))
   ∧ messageOrError msg err
   ∧ (Mode settings ≠ Forward →
      msg = None ∧ err = Some (UnsupportedMode (Mode settings)) ∧ r' = r))
∧ (∀ msg err r',
     ClientLookup fuel settings q r = Some (Ok (msg, err, r')) →
     messageOrError msg err).
Proof.
split.
- intros Hmode. unfold ClientLookup. destruct (Mode settings) eqn:Hm; [done| |].
  + destruct (forwardQuery settings q r) as [[msg err] r'] eqn:Hf.
    exists msg, err, r'. split; [done|].
    split; [|done]. by apply forwardQuery_outcome in Hf as (? & _).
  + eexists _, _, _. split; [reflexivity|]. split; [right; eauto|done].
- intros msg err r'. unfold ClientLookup. intros Hc.
  destruct (Mode settings).
  + destruct (recursiveResolve fuel q r) as [[[[m e] r1]|]|] eqn:Hr;
      try done.
    injection Hc as <- <- <-.
    apply recursiveResolve_outcome in Hr as ([[? ->]|[-> [e' ->]]] & _).
    * by left.
    * right. cbn. eauto.
  + injection Hc as Hc.
    by apply forwardQuery_outcome in Hc as (? & _).
  + injection Hc as <- <- <-. right. eauto.
Qed.

(** X18. [ServerLookup] discards the error of the lookup and sets the token
  of the message: when the lookup gave no message, it dereferences a
  nil pointer and panics; otherwise the message goes out under the
  token of the query. *)
Theorem ServerLookup_panics_without_answer (fuel : nat) (settings : Settings)
  (q : Query) (addr : Addr) (token : N) (r r' : Resolver)
  (msg : option Message) (err : option lookupError) :
ClientLookup fuel settings q r = Some (Ok (msg, err, r')) →
ServerLookup fuel settings q addr token r
= Some (match msg with
        | Some msg => Ok (addr, (token, msg), r')
        | None => Panic "invalid memory address or nil pointer dereference"
        end).
Proof.
unfold ClientLookup, ServerLookup. intros Hc. destruct (Mode settings).
- destruct (recursiveResolve fuel q r) as [[[[m e] r1]|]|]; try done.
  injection Hc as <- <- <-. by destruct m.
- injection Hc as Hc. rewrite Hc. by destruct msg.
- by injection Hc as <- <- <-.
Qed.

(** X19. [getDelegations] answers with exactly the cached delegations of the
  names for which the message holds a delegation query. *)
Theorem getDelegations_answers_cached (msg : Message) (r : Resolver)
  (s : Section) :
s ∈ getDelegations msg r
↔ ∃ q a, SecQuery q ∈ MsgContent msg ∧ OTDelegation ∈ QTypes q
         ∧ Delegations r !! QName q = Some a ∧ s = SecAssertion a.
Proof.
unfold getDelegations.
assert (Hgen : ∀ content answer,
  s ∈ foldl (fun answer s =>
               match s with
               | SecQuery q =>
                   if bool_decide (OTDelegation ∈ QTypes q) then
                     match Delegations r !! QName q with
                     | Some a => answer ++ [SecAssertion a]
                     | None => answer
                     end
                   else answer
               | _ => answer
               end) answer content
  ↔ s ∈ answer
    ∨ ∃ q a, SecQuery q ∈ content ∧ OTDelegation ∈ QTypes q
             ∧ Delegations r !! QName q = Some a ∧ s = SecAssertion a).
{ induction content as [|sec content IH]; intros answer; cbn [foldl].
  - split; [by left|]. intros [?|(q & a & Hin & _)]; [done|].
    by apply elem_of_nil in Hin.
  - rewrite IH. clear IH.
    assert (Hskip : (∀ q, sec ≠ SecQuery q) →
      (s ∈ answer
         ∨ (∃ q a, SecQuery q ∈ content ∧ OTDelegation ∈ QTypes q
                   ∧ Delegations r !! QName q = Some a ∧ s = SecAssertion a))
      ↔ (s ∈ answer
         ∨ (∃ q a, SecQuery q ∈ sec :: content ∧ OTDelegation ∈ QTypes q
                   ∧ Delegations r !! QName q = Some a
                   ∧ s = SecAssertion a))).
    { intros Hne. split.
      - intros [?|(q & a & Hin & ?)]; [by left|].
        right. exists q, a. split; [by right|done].
      - intros [?|(q & a & Hin & ?)]; [by left|].
        apply elem_of_cons in Hin as [Heq|Hin];
          [by destruct (Hne q)|].
        right. exists q, a. done. }
    destruct sec as [a0|s0|z0|q0|]; try (apply Hskip; congruence).
    case_bool_decide as Hd.
    2: { split.
         - intros [?|(q & a & Hin & ?)]; [by left|].
           right. exists q, a. split; [by right|done].
         - intros [?|(q & a & Hin & Ht & ?)]; [by left|].
           apply elem_of_cons in Hin as [[= <-]|Hin]; [done|].
           right. exists q, a. done. }
    destruct (Delegations r !! QName q0) as [a0|] eqn:Hl.
    + split.
      * intros [Hin|(q & a & Hin & ?)].
        -- apply elem_of_app in Hin as [?|Hin]; [by left|].
           apply list_elem_of_singleton in Hin as ->.
           right. exists q0, a0. split; [left|done].
        -- right. exists q, a. split; [by right|done].
      * intros [?|(q & a & Hin & Ht & Hq & ->)].
        -- left. apply elem_of_app. by left.
        -- apply elem_of_cons in Hin as [[= <-]|Hin].
           ++ left. apply elem_of_app. right.
              rewrite Hl in Hq. injection Hq as <-.
              by apply list_elem_of_singleton.
           ++ right. exists q, a. done.
    + split.
      * intros [?|(q & a & Hin & ?)]; [by left|].
        right. exists q, a. split; [by right|done].
      * intros [?|(q & a & Hin & Ht & Hq & ->)]; [by left|].
        apply elem_of_cons in Hin as [[= <-]|Hin]; [congruence|].
        right. exists q, a. done. }
rewrite Hgen. split.
- intros [Hin|?]; [by apply elem_of_nil in Hin|done].
- intros ?. by right.
Qed.
End lookup_modes.

Lemma forwardQuery_outcome_witness :
  let r := libresolve_examples.resolver ∅ in
  let msg := Some {| MsgContent := [] |} in
  messageOrError msg (@None lookupError)
  ∧ (queriesSent r ≤ queriesSent (sent (sent r))
     ≤ queriesSent r + length (Forwarders forwarding))%nat
  ∧ Delegations (sent (sent r)) = Delegations r
  ∧ (msg = None →
     queriesSent (sent (sent r))
     = (queriesSent r + length (Forwarders forwarding))%nat)
  ∧ (Forwarders forwarding = [] → @None lookupError = Some NoForwarders).
Proof.
  intros r msg.
  apply (forwardQuery_outcome forwarding libresolve_examples.addressQuery r).
  vm_compute. reflexivity.
Defined.

Lemma ClientLookup_message_or_error_witness :
  ∃ msg err r',
    ClientLookup 0 forwarding addressQuery (resolver ∅)
    = Some (Ok (msg, err, r'))
    ∧ messageOrError msg err
    ∧ (Mode forwarding ≠ Forward →
       msg = None ∧ err = Some (UnsupportedMode (Mode forwarding))
       ∧ r' = resolver ∅).
Proof.
  apply (proj1 (ClientLookup_message_or_error 0 forwarding addressQuery
                  (resolver ∅))).
  discriminate.
Defined.

Lemma ServerLookup_panics_without_answer_witness :
  ServerLookup 1 recursing libresolve_examples.addressQuery "client:1" 7
    (libresolve_examples.resolver ∅)
  = Some (Panic "invalid memory address or nil pointer dereference").
Proof.
  apply (ServerLookup_panics_without_answer 1 recursing
           libresolve_examples.addressQuery "client:1" 7
           (libresolve_examples.resolver ∅)
           (sent (sent (libresolve_examples.resolver ∅))) None
           (Some (RecursiveLookupFailed
                    (NoAnswerObtained libresolve_examples.addressQuery)))).
  vm_compute. reflexivity.
Defined.

End libresolve_facts.

(** ** The CBOR form of a message *)

Module message_facts.
Import message message_spec.

Section round_trip.
Context `{SectionCodec}.

Lemma lookup_app_absent k m1 m2 :
  Forall (fun kv => kv.1 ≠ k) m1 → lookup k (m1 ++ m2) = lookup k m2.
Proof.
  induction 1 as [|[k' v] m1 Hk _ IH]; cbn; [done|].
  cbn in Hk. destruct (Z.eqb_spec k k'); [congruence|done].
Qed.

Lemma readAll_strings (caps : list string) :
  readAll asString (map read (IText <$> caps)) = Ok caps.
Proof. induction caps as [|c caps IH]; cbn; [done|]. by rewrite IH. Qed.

Lemma readToken_bytes (bytes token : list N) (i : nat) :
  Forall (fun b => (b < 256)%N) bytes →
  (i + length bytes ≤ length token)%nat →
  readToken i (map read (IUint <$> bytes)) token
  = Ok (take i token ++ bytes ++ drop (i + length bytes) token).
Proof.
  intros Hall. revert i token.
  induction Hall as [|b bytes Hb _ IH]; intros i token Hlen; cbn.
  - by rewrite Nat.add_0_r, take_drop.
  - cbn in Hlen. rewrite bool_decide_eq_true_2 by lia.
    rewrite IH by (rewrite length_insert; lia).
    rewrite N.mod_small by done. f_equal.
    rewrite (take_S_r (<[i:=b]> token) i b)
      by (apply list_lookup_insert_eq; lia).
    rewrite take_insert_ge by lia.
    rewrite drop_insert_lt by lia.
    rewrite <- app_assoc. cbn. 
    replace (S (i + length bytes)) with (i + S (length bytes))%nat by lia.
    reflexivity.
Qed.

(** The section decoders undo the section encoders. *)
Definition bodiesRoundTrip : Prop :=
  ∀ k b, is_Some (typeCode k) →
    ∃ m, read (marshalBody k b) = DIntMap m ∧ UnmarshalMap k m = Some b.

Lemma kindOfCode_typeCode k code :
  typeCode k = Some code → kindOfCode code = Some k.
Proof. destruct k; cbn; intros [= <-]; reflexivity. Qed.

Lemma readSections_written (content acc : list MessageSection) items :
  bodiesRoundTrip →
  writeSections content = Some items →
  readSections (map read items) acc = Ok (None, acc ++ content).
Proof.
  intros Hb. revert acc items.
  induction content as [|[k b] content IH]; intros acc items Hw; cbn in Hw.
  - injection Hw as <-. cbn. by rewrite app_nil_r.
  - destruct (typeCode k) as [code|] eqn:Hcode; [|done].
    destruct (writeSections content) as [items'|]; [|done].
    injection Hw as <-.
    destruct (Hb k b) as (m & Hm & Hu); [by rewrite Hcode|].
    cbn. rewrite (kindOfCode_typeCode _ _ Hcode). cbn.
    rewrite Hm. cbn. rewrite Hu.
    rewrite (IH _ _ eq_refl). by rewrite <- app_assoc.
Qed.

(** X20. Without message signatures, decoding what [MarshalCBOR] wrote gives
    the message back. *)
Lemma unsigned_message_round_trips (rm : RainsMessage) (wire : item) :
  bodiesRoundTrip → wellFormed rm → Signatures rm = [] →
  MarshalCBOR rm = Some wire →
  UnmarshalCBOR wire zeroMessage = Ok (None, rm).
Proof.
  intros Hb (Hlen & Hbytes & _) Hsig Hm. unfold MarshalCBOR in Hm.
  destruct (writeSections (Content rm)) as [msgsect|] eqn:Hw; [|done].
  injection Hm as <-. rewrite Hsig. cbn [length bool_decide].
  rewrite bool_decide_eq_false_2 by (cbn; lia). cbn [app].
  unfold UnmarshalCBOR. cbn [ReadTag].
  rewrite N.eqb_refl. cbn [negb ReadIntMapUntagged].
  rewrite map_app. cbn [map app].
  assert (Hcaps :
    (match lookup 1
             (map (fun kv : Z * item => let (k, v) := kv in (k, read v))
                (if bool_decide (0 < length (Capabilities rm))%nat
                 then [(1, IArray (IText <$> Capabilities rm))] else [])
              ++ [(2, read (IArray (IUint <$> Token rm)));
                  (23, read (IArray msgsect))]) with
     | Some caps =>
         caps ← asSlice (Some caps);
         caps ← readAll asString caps;
         mret (set_Capabilities caps zeroMessage)
     | None => mret zeroMessage
     end) = Ok (set_Capabilities (Capabilities rm) zeroMessage)).
  { case_bool_decide as Hc; cbn.
    - rewrite readAll_strings. done.
    - destruct (Capabilities rm); [done|cbn in Hc; lia]. }
  assert (H0 : ∀ k, k ≠ 1 →
    lookup k
      (map (fun kv : Z * item => let (k, v) := kv in (k, read v))
         (if bool_decide (0 < length (Capabilities rm))%nat
          then [(1, IArray (IText <$> Capabilities rm))] else [])
       ++ [(2, read (IArray (IUint <$> Token rm)));
           (23, read (IArray msgsect))])
    = lookup k [(2, read (IArray (IUint <$> Token rm)));
                (23, read (IArray msgsect))]).
  { intros k Hk. apply lookup_app_absent.
    case_bool_decide; repeat constructor. cbn. congruence. }
  rewrite (H0 0) by done. cbn [lookup Z.eqb mbind result_bind mret result_ret].
  rewrite Hcaps. cbn [mbind result_bind].
  rewrite (H0 2) by done. rewrite (H0 23) by done.
  cbn [lookup Z.eqb Pos.eqb read asSlice mbind result_bind].
  cbn [set_Capabilities Token zeroMessage].
  rewrite (readToken_bytes (Token rm) (replicate 16 0%N) 0)
    by (rewrite ?length_replicate; (done || lia)).
  rewrite drop_ge by (rewrite length_replicate; lia).
  cbn [mbind result_bind set_Token set_Capabilities Content zeroMessage].
  rewrite (readSections_written (Content rm) [] msgsect Hb Hw).
  cbn. rewrite app_nil_r. destruct rm; cbn in *; subst. reflexivity.
Qed.
(** C9 fails on every message that carries a signature: the decoder
    asserts that the value under key 0 is a slice of slices, while the
    reader delivers a slice (as the decoder itself assumes for the
    capabilities, the token and the sections), so decoding what
    [MarshalCBOR] wrote panics. *)
Theorem signed_message_decoding_panics (rm into : RainsMessage) (wire : item) :
  Signatures rm ≠ [] →
  MarshalCBOR rm = Some wire →
  UnmarshalCBOR wire into = Panic "interface conversion".
Proof.
  intros Hsig Hm. unfold MarshalCBOR in Hm.
  destruct (writeSections (Content rm)) as [msgsect|]; [|done].
  injection Hm as <-.
  rewrite bool_decide_eq_true_2 in *
    by (destruct (Signatures rm); [done|cbn; lia]).
  reflexivity.
Qed.
End round_trip.

Lemma signed_message_decoding_panics_witness :
  ∃ wire, MarshalCBOR message_examples.signedMessage = Some wire
          ∧ UnmarshalCBOR wire zeroMessage = Panic "interface conversion".
Proof.
  eexists. split; [reflexivity|].
  apply (signed_message_decoding_panics message_examples.signedMessage
           zeroMessage);
    [vm_compute; discriminate|reflexivity].
Defined.

Example unsigned_message_example :
  ∃ wire, MarshalCBOR message_examples.unsignedMessage = Some wire
          ∧ UnmarshalCBOR wire zeroMessage
            = Ok (None, message_examples.unsignedMessage).
Proof. eexists. split; [reflexivity|]. vm_compute. reflexivity. Qed.

Section decoding.
Context `{SectionCodec}.

Lemma lookup_read_absent (k : Z) (m : list (Z * item)) :
Forall (fun kv => kv.1 ≠ k) m →
lookup k (map (fun kv : Z * item => let (k, v) := kv in (k, read v)) m)
= None.
Proof.
induction 1 as [|[k' v] m Hk _ IH]; cbn [map lookup]; [done|].
cbn in Hk. destruct (Z.eqb_spec k k'); [congruence|exact IH].
Qed.

(** X21. [MarshalCBOR] returns an error when the message holds a section
  it has no type code for, an address section or a section of another
  type, wherever it stands in the content. *)
Theorem MarshalCBOR_fails_on_unknown_section (rm : RainsMessage) :
Exists (fun sect => typeCode (kind sect) = None) (Content rm) →
MarshalCBOR rm = None.
Proof.
unfold MarshalCBOR. intros Hex.
assert (Hw : writeSections (Content rm) = None).
{ induction Hex as [sect content Hsect|sect content _ IH];
    cbn [writeSections].
  - by rewrite Hsect.
  - rewrite IH. by destruct (typeCode (kind sect)). }
by rewrite Hw.
Qed.

(** X22. A wire that does not start with the tag of a RAINS message is
  answered with an error, and the message decoded into is left as it
  was. *)
Theorem UnmarshalCBOR_rejects_other_tags (wire : item) (rm : RainsMessage) :
(∀ content, wire ≠ ITag messageTag content) →
∃ err, UnmarshalCBOR wire rm = Ok (Some err, rm)
       ∧ (err = FailedToReadTag ∨ ∃ tag, err = UnexpectedTag tag).
Proof.
intros Htag. unfold UnmarshalCBOR.
destruct wire as [n|z|s|b|l|m|tag content]; cbn [ReadTag];
  try (eexists; split; [reflexivity|by left]).
destruct (N.eqb_spec tag messageTag) as [->|Hne].
- by destruct (Htag content).
- cbn [negb]. eexists. split; [reflexivity|right; eauto].
Qed.

(** X23. A message map without the token key is answered with the error that
  the token is missing, after the signatures and capabilities have
  been read. *)
Theorem UnmarshalCBOR_requires_token (m : list (Z * item)) (rm : RainsMessage) :
Forall (fun kv => kv.1 ≠ 0 ∧ kv.1 ≠ 1 ∧ kv.1 ≠ 2) m →
UnmarshalCBOR (ITag messageTag (IMap m)) rm = Ok (Some TokenMissing, rm).
Proof.
intros Hm. unfold UnmarshalCBOR. cbn [ReadTag].
rewrite N.eqb_refl. cbn [negb ReadIntMapUntagged].
assert (Hl : ∀ k, k = 0 ∨ k = 1 ∨ k = 2 →
  lookup k (map (fun kv : Z * item => let (k, v) := kv in (k, read v)) m)
  = None).
{ intros k Hk. apply lookup_read_absent.
  eapply Forall_impl; [exact Hm|]. cbn. intros kv ?. lia. }
rewrite (Hl 0), (Hl 1), (Hl 2) by auto. reflexivity.
Qed.

(** X24. The token of a message has 16 bytes: a token array with more
  elements makes the decoder index beyond them, and it panics. *)
Theorem UnmarshalCBOR_panics_on_long_token (bytes : list N)
  (rest : list (Z * item)) :
(16 < length bytes)%nat →
Forall (fun kv => kv.1 ≠ 0 ∧ kv.1 ≠ 1) rest →
UnmarshalCBOR
  (ITag messageTag (IMap ((2, IArray (IUint <$> bytes)) :: rest)))
  zeroMessage
= Panic "index out of range".
Proof.
intros Hlen Hrest. unfold UnmarshalCBOR. cbn [ReadTag].
rewrite N.eqb_refl. cbn [negb ReadIntMapUntagged map lookup Z.eqb].
assert (Hl : ∀ k, k = 0 ∨ k = 1 →
  lookup k (map (fun kv : Z * item => let (k, v) := kv in (k, read v)) rest)
  = None).
{ intros k Hk. apply lookup_read_absent.
  eapply Forall_impl; [exact Hrest|]. cbn. intros kv ?. lia. }
cbn [Pos.eqb]. rewrite (Hl 0), (Hl 1) by auto.
cbn [mbind result_bind mret result_ret read asSlice].
assert (Hrt : ∀ (vals : list N) i (token : list N),
  (length token < i + length vals)%nat → (i ≤ length token)%nat →
  readToken i (map read (IUint <$> vals)) token
  = Panic "index out of range").
{ induction vals as [|v vals IH]; intros i token Hlt Hle; cbn in *; [lia|].
  case_bool_decide; [|done].
  apply IH; rewrite length_insert; lia. }
cbn [zeroMessage Token].
rewrite (Hrt bytes 0%nat) by (rewrite ?length_replicate; lia).
reflexivity.
Qed.
End decoding.

Lemma unsigned_message_round_trips_witness :
  ∃ wire, MarshalCBOR message_examples.unsignedMessage = Some wire
          ∧ UnmarshalCBOR wire zeroMessage
            = Ok (None, message_examples.unsignedMessage).
Proof.
  eexists. split; [reflexivity|].
  apply unsigned_message_round_trips.
  - intros k b _. eexists. split; reflexivity.
  - split; [reflexivity|]. split.
    + vm_compute. repeat constructor.
    + repeat constructor; eexists; reflexivity.
  - reflexivity.
  - reflexivity.
Defined.

Lemma UnmarshalCBOR_rejects_other_tags_witness :
  ∃ err, UnmarshalCBOR (ITag 55799 (IMap [])) message_examples.unsignedMessage
         = Ok (Some err, message_examples.unsignedMessage)
         ∧ (err = FailedToReadTag ∨ ∃ tag, err = UnexpectedTag tag).
Proof.
  apply (UnmarshalCBOR_rejects_other_tags (ITag 55799 (IMap []))).
  intros content. discriminate.
Defined.

Lemma UnmarshalCBOR_requires_token_witness :
  UnmarshalCBOR (ITag messageTag (IMap [(23, IArray [])])) zeroMessage
  = Ok (Some TokenMissing, zeroMessage).
Proof.
  apply (UnmarshalCBOR_requires_token [(23, IArray [])]).
  repeat constructor; discriminate.
Defined.

Lemma UnmarshalCBOR_panics_on_long_token_witness :
  UnmarshalCBOR
    (ITag messageTag
       (IMap [(2, IArray (IUint <$> replicate 17 7%N)); (23, IArray [])]))
    zeroMessage
  = Panic "index out of range".
Proof.
  apply (UnmarshalCBOR_panics_on_long_token (replicate 17 7%N)
           [(23, IArray [])]).
  - vm_compute. lia.
  - repeat constructor; discriminate.
Defined.

Lemma MarshalCBOR_fails_on_unknown_section_witness :
  let rm : RainsMessage :=
    {| Capabilities := []; Token := message_examples.token;
       Content := [{| kind := KAssertion; body := "a"%string |};
                   {| kind := KAddressQuery; body := "q"%string |}];
       Signatures := [] |} in
  MarshalCBOR rm = None.
Proof.
  intros rm. apply (MarshalCBOR_fails_on_unknown_section rm).
  right. left. reflexivity.
Defined.

Section sort_facts.
Context `{SectionOrder}.

Lemma sortedOfKind_kind k content s :
s ∈ sortedOfKind k content → kind s = k.
Proof.
unfold sortedOfKind. intros Hs.
apply list_elem_of_fmap in Hs as (b & -> & _). reflexivity.
Qed.

Lemma sortedOfKind_perm k content :
sortedOfKind k content ≡ₚ filter (fun sect => kind sect = k) content.
Proof.
unfold sortedOfKind. rewrite sortSlice_perm.
induction content as [|[k' b] content IH]; [done|].
rewrite filter_cons. cbn [kind]. case_decide as Hk; [|exact IH].
subst k'. cbn. by rewrite IH.
Qed.

(** The eight slices of [Sort] hold the sections of the eight types, and
    no other section. *)
Lemma kinds_partition (content : list MessageSection) :
filter (fun sect => kind sect = KAddressQuery) content
++ filter (fun sect => kind sect = KAddressZone) content
++ filter (fun sect => kind sect = KAddressAssertion) content
++ filter (fun sect => kind sect = KAssertion) content
++ filter (fun sect => kind sect = KShard) content
++ filter (fun sect => kind sect = KZone) content
++ filter (fun sect => kind sect = KQuery) content
++ filter (fun sect => kind sect = KNotification) content
≡ₚ filter (fun sect => kind sect ≠ KOther) content.
Proof.
induction content as [|[k b] content IH]; [done|].
rewrite !filter_cons. cbn [kind].
destruct k; repeat (case_decide; try congruence);
  cbn [app]; rewrite <- ?Permutation_middle;
  first [exact IH | by apply Permutation_skip].
Qed.

Lemma same_kind_sorted k (l : list MessageSection) :
(∀ s, s ∈ l → kind s = k) →
StronglySorted (fun s s' => (rank (kind s) ≤ rank (kind s'))%nat) l.
Proof.
induction l as [|s l IH]; intros Hk; constructor.
- apply IH. intros s' Hs'. apply Hk. by right.
- apply Forall_forall. intros s' Hs'.
  rewrite (Hk s) by left. rewrite (Hk s') by (by right). done.
Qed.

(** X26. [Sort] keeps every section of the eight types it names, each
  with its content sorted, and drops the sections of any other type; it
  orders the sections by kind: address queries, address zones, address
  assertions, assertions, shards, zones, queries, notifications; and
  leaves capabilities, token and signatures alone. *)
Theorem Sort_permutes_and_groups (m : RainsMessage) :
Content (Sort m)
≡ₚ filter (fun sec => kind sec ≠ KOther)
     ((fun sec => {| kind := kind sec;
                     body := sortSection (kind sec) (body sec) |})
      <$> Content m)
∧ StronglySorted (fun s s' => (rank (kind s) ≤ rank (kind s'))%nat)
    (Content (Sort m))
∧ Capabilities (Sort m) = Capabilities m
∧ Token (Sort m) = Token m
∧ Signatures (Sort m) = Signatures m.
Proof.
unfold Sort. cbn [Content Capabilities Token Signatures set_Content].
split; [|split; [|done]].
- rewrite !sortedOfKind_perm. apply kinds_partition.
- assert (Hblock : ∀ k content,
    StronglySorted (fun s s' => (rank (kind s) ≤ rank (kind s'))%nat)
      (sortedOfKind k content)).
  { intros k content. apply (same_kind_sorted k).
    intros s. apply sortedOfKind_kind. }
  repeat (apply StronglySorted_app;
          split;
          [intros s s' Hs Hs'; apply sortedOfKind_kind in Hs;
           rewrite ?elem_of_app in Hs';
           repeat match type of Hs' with
                  | _ ∨ _ => destruct Hs' as [Hs'|Hs']
                  end;
           apply sortedOfKind_kind in Hs'; cbn beta; rewrite Hs, Hs';
           cbn; lia|];
          split; [apply Hblock|]).
  apply Hblock.
Qed.
End sort_facts.
End message_facts.
